(** * qenerate: GraphQL query to pydantic class generator

    A shallow embedding of [qenerate/core/unwrapper.py] and
    [qenerate/plugins/pydantic_v1/plugin.py].

    Python objects of the classes [ParsedNode], [ParsedInlineFragmentNode],
    [ParsedClassNode] and [ParsedOperationNode] live in a store (a list
    indexed by address); [parent] and [fields] hold addresses, so that the
    aliasing between a node, its parent's [fields] list and its children's
    [parent] attribute is the one of the program.  Methods that mutate
    ([list.append], [list.sort], the visitor's cursor and its
    deduplication cache) are functions on that store in an error monad. *)

From Stdlib Require Import Ascii String.
From stdpp Require Import base list strings gmap sorting.

Set Default Proof Using "Type".
Set Warnings "-register-all".
Local Open Scope string_scope.
Local Open Scope list_scope.

(** ** GraphQL output types (graphql-core) *)

(** [GraphQLScalarType] is the class [isinstance] tests for; every other
    named type (object, interface, union, enum) is a [GraphQLNamedType]. *)
Inductive GraphQLOutputType : Type :=
  | GraphQLScalarType (name : string)
  | GraphQLNamedType (name : string)
  | GraphQLList (of_type : GraphQLOutputType)
  | GraphQLNonNull (of_type : GraphQLOutputType).

Definition is_GraphQLNonNull (t : GraphQLOutputType) : bool :=
  match t with GraphQLNonNull _ => true | _ => false end.

Definition is_GraphQLList (t : GraphQLOutputType) : bool :=
  match t with GraphQLList _ => true | _ => false end.

Definition is_GraphQLScalarType (t : GraphQLOutputType) : bool :=
  match t with GraphQLScalarType _ => true | _ => false end.

(** graphql-core refuses to build a non-null wrapper around a non-null
    type; every schema type is well formed in this sense. *)
Fixpoint well_formed (t : GraphQLOutputType) : bool :=
  match t with
  | GraphQLScalarType _ | GraphQLNamedType _ => true
  | GraphQLList u => well_formed u
  | GraphQLNonNull u => negb (is_GraphQLNonNull u) && well_formed u
  end.

(** The type under all the wrappers. *)
Fixpoint innermost (t : GraphQLOutputType) : GraphQLOutputType :=
  match t with
  | GraphQLList u | GraphQLNonNull u => innermost u
  | _ => t
  end.

(** [str(graphql_type)] *)
Fixpoint gql_str (t : GraphQLOutputType) : string :=
  match t with
  | GraphQLScalarType n | GraphQLNamedType n => n
  | GraphQLList u => "[" +:+ gql_str u +:+ "]"
  | GraphQLNonNull u => gql_str u +:+ "!"
  end.

(** ** core/unwrapper.py *)

Module Unwrapper.

Inductive WrapperType : Type := LIST | OPTIONAL.

Record UnwrapperResult : Type := mkUnwrapperResult {
  wrapper_stack : list WrapperType;
  inner_gql_type : GraphQLOutputType;
  is_primitive : bool
}.

(** [Unwrapper.unwrap].  [wrappers] and the rebinding of [gql_type] are the
    two results of the first [if]. *)
Fixpoint unwrap (gql_type : GraphQLOutputType) : UnwrapperResult :=
  let wrappers :=
    match gql_type with GraphQLNonNull _ => [] | _ => [OPTIONAL] end in
  let gql_type' :=
    match gql_type with GraphQLNonNull u => u | _ => gql_type end in
  match gql_type' with
  | GraphQLList u =>
      let res := unwrap u in
      {| wrapper_stack := wrappers ++ [LIST] ++ wrapper_stack res;
         inner_gql_type := inner_gql_type res;
         is_primitive := is_primitive res |}
  | _ =>
      {| wrapper_stack := wrappers;
         inner_gql_type := gql_type';
         is_primitive := is_GraphQLScalarType gql_type' |}
  end.

(** Re-wrapping, following the specification of [UnwrapResult]: the stack is
    read from its last (innermost) wrapper to its first.  While reading, a
    type is non-null unless an [OPTIONAL] marker says otherwise; a [LIST]
    marker closes the element type and opens the list around it. *)
Definition close (nonnull : bool) (t : GraphQLOutputType) : GraphQLOutputType :=
  if nonnull then GraphQLNonNull t else t.

Definition rewrap_step (w : WrapperType) (acc : GraphQLOutputType * bool)
  : GraphQLOutputType * bool :=
  match w with
  | OPTIONAL => (acc.1, false)
  | LIST => (GraphQLList (close acc.2 acc.1), true)
  end.

Definition rewrap (stack : list WrapperType) (inner : GraphQLOutputType)
  : GraphQLOutputType :=
  let acc := fold_left (fun acc w => rewrap_step w acc) (rev stack) (inner, true) in
  close acc.2 acc.1.

(** The accumulator of [rewrap], and what it holds for an unwrapped type. *)
Definition rewrap_acc (stack : list WrapperType) (inner : GraphQLOutputType)
  : GraphQLOutputType * bool :=
  fold_left (fun acc w => rewrap_step w acc) (rev stack) (inner, true).

Definition strip_non_null (t : GraphQLOutputType) : GraphQLOutputType :=
  match t with GraphQLNonNull u => u | _ => t end.

Definition unwrap_inverts (t : GraphQLOutputType) : Prop :=
  let r := unwrap t in
  rewrap_acc (wrapper_stack r) (inner_gql_type r)
  = (strip_non_null t, is_GraphQLNonNull t)
  /\ inner_gql_type r = innermost t
  /\ is_primitive r = is_GraphQLScalarType (innermost t).

End Unwrapper.

(** ** Python built-ins used by the plugin *)

(** [old] is not empty: scan [s] from the left, replacing every
    non-overlapping occurrence.  [skip] counts the characters of the
    occurrence just replaced that are still to be dropped. *)
Fixpoint replace_from (old new : string) (skip : nat) (s : string) : string :=
  match s with
  | EmptyString => EmptyString
  | String c s' =>
      match skip with
      | S k => replace_from old new k s'
      | O =>
          if String.prefix old s
          then new +:+ replace_from old new (String.length old - 1) s'
          else String c (replace_from old new 0 s')
      end
  end.

(** [old] is empty: Python inserts [new] before every character and at the
    end. *)
Fixpoint replace_empty (new : string) (s : string) : string :=
  match s with
  | EmptyString => new
  | String c s' => new +:+ String c (replace_empty new s')
  end.

(** [s.replace(old, new)] *)
Definition replace (old new s : string) : string :=
  match old with
  | EmptyString => replace_empty new s
  | _ => replace_from old new 0 s
  end.

(** [sep.join(l)] is [String.concat sep l]. *)

(** [s[:-2]] *)
Definition drop_last_two (s : string) : string :=
  String.substring 0 (String.length s - 2) s.

(** [s[-1]], [None] when Python raises [IndexError]. *)
Definition last_char (s : string) : option string :=
  match String.length s with
  | O => None
  | S n => Some (String.substring n 1 s)
  end.

(** [l.sort(key=key, reverse=True)]: Python's sort is stable, and stays so
    with [reverse=True]: elements with equal keys keep their order.  An
    insertion sort from the right does the same: the element inserted was in
    front of all those already placed, and stays in front of those whose key
    is not greater. *)
Fixpoint insert_desc {A} (key : A -> nat) (x : A) (l : list A) : list A :=
  match l with
  | [] => [x]
  | y :: l' =>
      if Nat.ltb (key x) (key y) then y :: insert_desc key x l'
      else x :: y :: l'
  end.

Fixpoint sort_desc {A} (key : A -> nat) (l : list A) : list A :=
  match l with
  | [] => []
  | x :: l' => insert_desc key x (sort_desc key l')
  end.

(** The order the sort establishes: no key is followed by a greater one. *)
Definition desc {A} (key : A -> nat) (a b : A) : Prop := key b <= key a.

(** ** Exceptions and the state-and-error monad *)

Inductive Exception : Type :=
  | GraphQLSyntaxError
  | AnonymousQueryError
  | InvalidQueryError (errors : list string)
  | ValueError
  | IndexError
  | AttributeError
  (** not a Python exception: the model followed an address that is not in
      the store, or ran out of fuel. *)
  | Stuck.

Definition Result (A : Type) : Type := Exception + A.

Definition M (S A : Type) : Type := S -> Result (A * S).

Definition ret {S A} (a : A) : M S A := fun s => inr (a, s).
Definition raise {S A} (e : Exception) : M S A := fun _ => inl e.
Definition bind {S A B} (m : M S A) (k : A -> M S B) : M S B :=
  fun s => match m s with
           | inl e => inl e
           | inr (a, s') => k a s'
           end.
Definition get {S} : M S S := fun s => inr (s, s).
Definition put {S} (s : S) : M S unit := fun _ => inr (tt, s).

Declare Scope monad_scope.
Delimit Scope monad_scope with monad.
Notation "x <- m ;; k" := (bind m (fun x => k))
  (at level 100, m at next level, right associativity) : monad_scope.
Notation "m ;;; k" := (bind m (fun _ => k))
  (at level 100, right associativity) : monad_scope.
Local Open Scope monad_scope.

(** [for x in l: acc = body(acc, x)] *)
Definition for_each {S A B} (l : list A) (acc : B) (body : B -> A -> M S B) : M S B :=
  (fix go (l : list A) (acc : B) : M S B :=
     match l with
     | [] => ret acc
     | x :: l' => acc' <- body acc x ;; go l' acc'
     end) l acc.

(** ** The intermediate representation *)

Record ParsedFieldType : Type := mkParsedFieldType {
  unwrapped_python_type : string;
  wrapped_python_type : string;
  is_primitive : bool
}.

(** The class of a node object; a [ParsedClassNode] also has its two keys. *)
Inductive NodeClass : Type :=
  | ParsedNodeC
  | ParsedInlineFragmentNodeC
  | ParsedClassNodeC (gql_key py_key : string)
  | ParsedOperationNodeC.

Abbreviation addr := nat.

Record ParsedNode : Type := mkParsedNode {
  cls : NodeClass;
  parent : option addr;
  fields : list addr;
  parsed_type : ParsedFieldType
}.

(** The objects allocated so far; a new object gets the next address. *)
Abbreviation Store := (list ParsedNode).

Definition isinstance_ParsedInlineFragmentNode (n : ParsedNode) : bool :=
  match cls n with ParsedInlineFragmentNodeC => true | _ => false end.

Definition isinstance_ParsedClassNode (n : ParsedNode) : bool :=
  match cls n with ParsedClassNodeC _ _ => true | _ => false end.

Definition deref (a : addr) : M Store ParsedNode :=
  fun h => match h !! a with
           | Some n => inr (n, h)
           | None => inl Stuck
           end.

Definition set_fields (n : ParsedNode) (l : list addr) : ParsedNode :=
  {| cls := cls n; parent := parent n; fields := l; parsed_type := parsed_type n |}.

(** [len(a.fields)] for the object at [a] *)
Definition len_fields (h : Store) (a : addr) : nat :=
  match h !! a with
  | Some n => length (fields n)
  | None => 0
  end.

(** ** The emitter: [class_code_string], [field_type], [_traverse] *)

Definition INDENT : string := "    ".

Definition NL : string := String (ascii_of_nat 10) EmptyString.

Definition DQ : string := String (ascii_of_nat 34) EmptyString.

Definition HEADER : string :=
  DQ +:+ DQ +:+ DQ +:+ NL +:+
  "THIS IS AN AUTO-GENERATED FILE. DO NOT MODIFY MANUALLY!" +:+ NL +:+
  DQ +:+ DQ +:+ DQ +:+ NL.

Definition IMPORTS : string :=
  "from typing import Optional, Union  # noqa: F401 # pylint: disable=W0611" +:+ NL +:+
  NL +:+
  "from pydantic import BaseModel, Extra, Field, Json  " +:+
  "# noqa: F401  # pylint: disable=W0611".

(** [ParsedClassNode.field_type].  The sort is in place: the store is
    updated with the sorted list before the loop reads it. *)
Definition field_type (self : addr) : M Store string :=
  n <- deref self ;;
  h <- get ;;
  let sorted := sort_desc (len_fields h) (fields n) in
  put (<[self := set_fields n sorted]> h) ;;;
  unions <- for_each sorted []
    (fun unions field =>
       f <- deref field ;;
       if isinstance_ParsedInlineFragmentNode f
       then ret (unions ++ [unwrapped_python_type (parsed_type f)])
       else ret unions) ;;
  if Nat.ltb 0 (length unions) then
    let unions := unions ++ [unwrapped_python_type (parsed_type n)] in
    ret (replace (unwrapped_python_type (parsed_type n))
                 ("Union[" +:+ String.concat ", " unions +:+ "]")
                 (wrapped_python_type (parsed_type n)))
  else ret (wrapped_python_type (parsed_type n)).

(** The loop the three [class_code_string] methods share: one line per
    [ParsedClassNode] child of [self], in the order of [self.fields]. *)
Definition field_lines (self_fields : list addr) (lines : list string)
  : M Store (list string) :=
  for_each self_fields lines
    (fun lines field =>
       f <- deref field ;;
       match cls f with
       | ParsedClassNodeC gql_key py_key =>
           ft <- field_type field ;;
           ret (lines ++ [INDENT +:+ py_key +:+ ": " +:+ ft +:+ " = " +:+
                          "Field(..., alias=" +:+ DQ +:+ gql_key +:+ DQ +:+ ")"])
       | _ => ret lines
       end).

Definition config_lines (lines : list string) : list string :=
  lines ++ [""; INDENT +:+ "class Config:";
            INDENT +:+ INDENT +:+ "smart_union = True";
            INDENT +:+ INDENT +:+ "extra = Extra.forbid"].

(** [class_code_string], dispatched on the class of [self]. *)
Definition class_code_string (self : addr) : M Store string :=
  n <- deref self ;;
  match cls n with
  | ParsedNodeC => ret ""
  | ParsedInlineFragmentNodeC =>
      match parent n with
      | None => ret ""
      | Some p =>
          if is_primitive (parsed_type n) then ret ""
          else
            pn <- deref p ;;
            let lines := [NL +:+ NL;
                          "class " +:+ unwrapped_python_type (parsed_type n) +:+
                          "(" +:+ unwrapped_python_type (parsed_type pn) +:+ "):"] in
            lines <- field_lines (fields n) lines ;;
            ret (String.concat NL (config_lines lines))
      end
  | ParsedClassNodeC _ _ =>
      if is_primitive (parsed_type n) then ret ""
      else
        let lines := [NL +:+ NL;
                      "class " +:+ unwrapped_python_type (parsed_type n) +:+
                      "(BaseModel):"] in
        lines <- field_lines (fields n) lines ;;
        ret (String.concat NL (config_lines lines))
  | ParsedOperationNodeC =>
      let lines := [NL +:+ NL;
                    "class " +:+ unwrapped_python_type (parsed_type n) +:+
                    "Query(BaseModel):"] in
      lines <- field_lines (fields n) lines ;;
      ret (String.concat NL (config_lines lines))
  end.

(** [PydanticV1Plugin._traverse].  The recursion follows addresses, so it
    takes fuel.  Each [for child in node.fields] reads [node.fields] when the
    loop starts; Python reads the list again at every step, which is the
    same as long as the body leaves the list alone: in a store that is a
    tree a traversal changes objects below its node only ([traverse_tree]
    below), and a call of [field_type] the object it is called on. *)
Fixpoint _traverse (fuel : nat) (node : addr) : M Store string :=
  match fuel with
  | O => raise Stuck
  | S fuel' =>
      n <- deref node ;;
      result <- for_each (fields n) ""
        (fun result child =>
           c <- deref child ;;
           if negb (isinstance_ParsedInlineFragmentNode c)
           then s <- _traverse fuel' child ;; ret (result +:+ s)
           else ret result) ;;
      s <- class_code_string node ;;
      let result := result +:+ s in
      n <- deref node ;;
      for_each (fields n) result
        (fun result child =>
           c <- deref child ;;
           if isinstance_ParsedInlineFragmentNode c
           then s <- _traverse fuel' child ;; ret (result +:+ s)
           else ret result)
  end.

(** ** The selection-tree builder: [FieldToTypeMatcherVisitor] *)

(** The two functions of [qenerate/plugins/pydantic_v1/mapper.py], which
    the plugin imports. *)
Class Mapper : Type := {
  graphql_primitive_to_python : GraphQLOutputType -> string;
  graphql_field_name_to_python : string -> string
}.

(** The part of a graphql-core document the visitor has methods for.
    [type] is what [type_info.get_type()] returns when the node is entered. *)
Inductive SelectionNode : Type :=
  | FieldNode (name : string) (alias : option string)
              (type : option GraphQLOutputType) (selection_set : list SelectionNode)
  | InlineFragmentNode (type : option GraphQLOutputType)
                       (selection_set : list SelectionNode)
  | FragmentSpreadNode (name : string).

Inductive DefinitionNode : Type :=
  | OperationDefinitionNode (name : option string) (selection_set : list SelectionNode)
  | FragmentDefinitionNode (name : string) (selection_set : list SelectionNode).

Definition DocumentNode : Type := list DefinitionNode.

(** What the plugin calls in graphql-core.  [TypeInfo schema] annotates a
    document with the types the [TypeInfoVisitor] tracks while visiting. *)
Class GraphQLCore : Type := {
  GraphQLSchema : Type;
  IntrospectionQuery : Type;
  build_client_schema : IntrospectionQuery -> GraphQLSchema;
  graphql_parse : string -> option DocumentNode;
  validate : GraphQLSchema -> DocumentNode -> list string;
  TypeInfo : GraphQLSchema -> DocumentNode -> DocumentNode
}.

(** [get_operation_ast(document_ast)] without an operation name: the only
    operation of the document; on meeting a second one the loop returns
    [None]. *)
Fixpoint get_operation_ast_from (operation : option DefinitionNode)
    (definitions : list DefinitionNode) : option DefinitionNode :=
  match definitions with
  | [] => operation
  | definition :: rest =>
      match definition with
      | OperationDefinitionNode _ _ =>
          match operation with
          | Some _ => None
          | None => get_operation_ast_from (Some definition) rest
          end
      | _ => get_operation_ast_from operation rest
      end
  end.

Definition get_operation_ast (document_ast : DocumentNode) : option DefinitionNode :=
  get_operation_ast_from None document_ast.

Record FieldToTypeMatcherVisitor : Type := mkVisitor {
  store : Store;
  parsed : addr;
  (** the attribute [self.parent], the cursor of the traversal *)
  self_parent : option addr;
  deduplication_cache : gset string
}.

Definition Visit (A : Type) : Type := M FieldToTypeMatcherVisitor A.

(** The root object and the visitor, as [__init__] makes them. *)
Definition root_type : ParsedFieldType :=
  {| unwrapped_python_type := ""; wrapped_python_type := ""; is_primitive := false |}.

Definition visitor_init : FieldToTypeMatcherVisitor :=
  {| store := [ {| cls := ParsedNodeC; parent := None; fields := [];
                   parsed_type := root_type |} ];
     parsed := 0;
     self_parent := Some 0;
     deduplication_cache := ∅ |}.

(** The [while] loop of [_to_python_type]. *)
Fixpoint dedup_loop (fuel : nat) (h : Store) (cache : gset string)
    (cur : option addr) (class_name : string) : Result string :=
  match cur with
  | None => inr class_name
  | Some c =>
      match h !! c with
      | None => inl Stuck
      | Some n =>
          match parent n with
          | None => inr class_name
          | Some p =>
              if decide (class_name ∈ cache) then
                match fuel with
                | O => inl Stuck
                | S fuel' =>
                    dedup_loop fuel' h cache (Some p)
                      (unwrapped_python_type (parsed_type n) +:+ "_" +:+ class_name)
                end
              else inr class_name
          end
      end
  end.

Section Visitor.
Context `{Mapper}.

Definition _to_python_type (graphql_type : GraphQLOutputType) : Visit string :=
  if is_GraphQLScalarType graphql_type then
    ret (graphql_primitive_to_python graphql_type)
  else
    fun v =>
      let cur := self_parent v in
      let class_name := replace "_" "" (gql_str graphql_type) in
      match last_char class_name with
      | None => inl IndexError
      | Some last =>
          let class_name := drop_last_two class_name +:+ "V" +:+ last in
          match dedup_loop (length (store v)) (store v) (deduplication_cache v)
                           cur class_name with
          | inl e => inl e
          | inr class_name =>
              inr (class_name,
                   {| store := store v; parsed := parsed v;
                      self_parent := self_parent v;
                      deduplication_cache := {[class_name]} ∪ deduplication_cache v |})
          end
      end.

(** [_parse_type] from [needs_further_unwrapping] on; [rec] is the call
    [self._parse_type(graphql_type=graphql_type)], made only when needed. *)
Definition _parse_type_tail (is_optional is_list : bool)
    (graphql_type : GraphQLOutputType) (rec : Visit ParsedFieldType)
  : Visit ParsedFieldType :=
  let needs_further_unwrapping :=
    is_GraphQLNonNull graphql_type || is_GraphQLList graphql_type in
  parsed_of_type <-
    (if needs_further_unwrapping then p <- rec ;; ret (Some p) else ret None) ;;
  unwrapped_type <-
    match parsed_of_type with
    | None => _to_python_type graphql_type
    | Some p => ret (unwrapped_python_type p)
    end ;;
  let wrapped_type :=
    match parsed_of_type with
    | None => unwrapped_type
    | Some p => wrapped_python_type p
    end in
  let is_primitive :=
    match parsed_of_type with
    | None => is_GraphQLScalarType graphql_type
    | Some p => is_primitive p
    end in
  let wrapped_type :=
    if is_optional && is_list then "Optional[list[" +:+ wrapped_type +:+ "]]"
    else if is_optional then "Optional[" +:+ wrapped_type +:+ "]"
    else if is_list then "list[" +:+ wrapped_type +:+ "]"
    else wrapped_type in
  ret {| unwrapped_python_type := unwrapped_type;
         wrapped_python_type := wrapped_type;
         is_primitive := is_primitive |}.

(** [_parse_type].  The two [isinstance] tests at its start are the case
    analysis; a named type needs no further unwrapping, so that no recursive
    call is made for it. *)
Fixpoint _parse_type (graphql_type : GraphQLOutputType) : Visit ParsedFieldType :=
  match graphql_type with
  | GraphQLNonNull u =>
      match u with
      | GraphQLList e => _parse_type_tail false true e (_parse_type e)
      | _ => _parse_type_tail false false u (_parse_type u)
      end
  | GraphQLList e => _parse_type_tail true true e (_parse_type e)
  | _ => _parse_type_tail true false graphql_type (raise Stuck)
  end.

(** [current = C(parent=self.parent, fields=[], ...)],
    [self.parent.fields.append(current)], [self.parent = current] *)
Definition push_node (c : NodeClass) (ty : ParsedFieldType) : Visit unit :=
  fun v =>
    match self_parent v with
    | None => inl AttributeError
    | Some p =>
        match store v !! p with
        | None => inl Stuck
        | Some pn =>
            let current := {| cls := c; parent := Some p; fields := [];
                              parsed_type := ty |} in
            let a := length (store v) in
            inr (tt,
                 {| store := <[p := set_fields pn (fields pn ++ [a])]> (store v)
                             ++ [current];
                    parsed := parsed v;
                    self_parent := Some a;
                    deduplication_cache := deduplication_cache v |})
        end
    end.

(** [self.parent = self.parent.parent if self.parent else self.parent] *)
Definition pop_node : Visit unit :=
  fun v =>
    match self_parent v with
    | None => inr (tt, v)
    | Some c =>
        match store v !! c with
        | None => inl Stuck
        | Some n =>
            inr (tt, {| store := store v; parsed := parsed v;
                        self_parent := parent n;
                        deduplication_cache := deduplication_cache v |})
        end
    end.

Definition enter_inline_fragment (type : option GraphQLOutputType) : Visit unit :=
  match type with
  | None => raise ValueError
  | Some graphql_type =>
      field_type <- _parse_type graphql_type ;;
      push_node ParsedInlineFragmentNodeC field_type
  end.

Definition leave_inline_fragment : Visit unit := pop_node.

Definition enter_operation_definition (name : option string) : Visit unit :=
  match name with
  | None => raise ValueError
  | Some value =>
      push_node ParsedOperationNodeC
        {| unwrapped_python_type := value;
           wrapped_python_type := "Optional[list[" +:+ value +:+ "]]";
           is_primitive := false |}
  end.

Definition leave_operation_definition : Visit unit := pop_node.

Definition enter_field (name : string) (alias : option string)
    (type : option GraphQLOutputType) : Visit unit :=
  match type with
  | None => raise ValueError
  | Some graphql_type =>
      field_type <- _parse_type graphql_type ;;
      let py_key := graphql_field_name_to_python name in
      let gql_key := match alias with Some a => a | None => name end in
      push_node (ParsedClassNodeC gql_key py_key) field_type
  end.

Definition leave_field : Visit unit := pop_node.

(** [visit(document_ast, TypeInfoVisitor(type_info, visitor))]: depth first,
    [enter_*] before the selection set of a node and [leave_*] after it.
    Nodes of the other kinds have no method in the visitor. *)
Fixpoint visit_selection (sel : SelectionNode) : Visit unit :=
  match sel with
  | FieldNode name alias type selection_set =>
      enter_field name alias type ;;;
      for_each selection_set tt (fun _ s => visit_selection s) ;;;
      leave_field
  | InlineFragmentNode type selection_set =>
      enter_inline_fragment type ;;;
      for_each selection_set tt (fun _ s => visit_selection s) ;;;
      leave_inline_fragment
  | FragmentSpreadNode _ => ret tt
  end.

Definition visit_selection_set (selection_set : list SelectionNode) : Visit unit :=
  for_each selection_set tt (fun _ s => visit_selection s).

Definition visit_definition (d : DefinitionNode) : Visit unit :=
  match d with
  | OperationDefinitionNode name selection_set =>
      enter_operation_definition name ;;;
      visit_selection_set selection_set ;;;
      leave_operation_definition
  | FragmentDefinitionNode _ selection_set =>
      visit_selection_set selection_set
  end.

Definition visit (document_ast : DocumentNode) : Visit unit :=
  for_each document_ast tt (fun _ d => visit_definition d).

Context `{GraphQLCore}.

(** [QueryParser.parse]: the store of the visitor and the address of
    [visitor.parsed]. *)
Definition parse (query : string) (schema : GraphQLSchema) : Result (Store * addr) :=
  match graphql_parse query with
  | None => inl GraphQLSyntaxError
  | Some document_ast =>
      let operation := get_operation_ast document_ast in
      match operation with
      | Some (OperationDefinitionNode None _) => inl AnonymousQueryError
      | _ =>
          let errors := validate schema document_ast in
          match errors with
          | _ :: _ => inl (InvalidQueryError errors)
          | [] =>
              match visit (TypeInfo schema document_ast) visitor_init with
              | inl e => inl e
              | inr (_, visitor) => inr (store visitor, parsed visitor)
              end
          end
      end
  end.

(** [PydanticV1Plugin.generate] *)
Definition generate (query : string) (raw_schema : IntrospectionQuery) : Result string :=
  let result := HEADER +:+ IMPORTS in
  let schema := build_client_schema raw_schema in
  match parse query schema with
  | inl e => inl e
  | inr (h, ast) =>
      match _traverse (length h) ast h with
      | inl e => inl e
      | inr (s, _) => inr (result +:+ s +:+ NL)
      end
  end.

End Visitor.

(** ** The tree a store holds, and the emitter as the specification words it *)

(** A node with its address, its class, its type and its children in the
    order of [fields]. *)
Inductive Tree : Type :=
  | TNode (a : addr) (c : NodeClass) (ty : ParsedFieldType) (children : list Tree).

Definition t_addr (t : Tree) : addr := match t with TNode a _ _ _ => a end.
Definition t_cls (t : Tree) : NodeClass := match t with TNode _ c _ _ => c end.
Definition t_type (t : Tree) : ParsedFieldType := match t with TNode _ _ ty _ => ty end.
Definition t_children (t : Tree) : list Tree := match t with TNode _ _ _ cs => cs end.

Definition t_is_fragment (t : Tree) : bool :=
  match t_cls t with ParsedInlineFragmentNodeC => true | _ => false end.

(** The addresses of a tree, in pre-order. *)
Fixpoint addrs (t : Tree) : list addr :=
  match t with
  | TNode a _ _ cs => a :: concat (map addrs cs)
  end.

Fixpoint t_size (t : Tree) : nat :=
  match t with
  | TNode _ _ _ cs => S (list_sum (map t_size cs))
  end.

Fixpoint t_height (t : Tree) : nat :=
  match t with
  | TNode _ _ _ cs => S (foldr Nat.max 0 (map t_height cs))
  end.

(** [repr h p t]: in the store [h] the object at the address of [t] has
    parent [p], the class and type of [t], and its [fields] are the addresses
    of the children of [t], each of which is in turn in [h] with this object
    as parent. *)
Inductive repr (h : Store) : option addr -> Tree -> Prop :=
  | repr_node (p : option addr) (a : addr) (c : NodeClass) (ty : ParsedFieldType)
              (cs : list Tree) :
      h !! a = Some {| cls := c; parent := p; fields := map t_addr cs;
                       parsed_type := ty |} ->
      Forall (repr h (Some a)) cs ->
      repr h p (TNode a c ty cs).

(** What the specification says of [field_type], read on the store; [order]
    is the order the sort gives to the children of [n]. *)
Definition is_fragment_at (h : Store) (a : addr) : bool :=
  from_option isinstance_ParsedInlineFragmentNode false (h !! a).

Definition class_name_at (h : Store) (a : addr) : string :=
  from_option (fun m => unwrapped_python_type (parsed_type m)) "" (h !! a).

Definition union_names (h : Store) (n : ParsedNode) (order : list addr) : list string :=
  map (class_name_at h) (List.filter (is_fragment_at h) order)
  ++ [unwrapped_python_type (parsed_type n)].

Definition spec_field_type (h : Store) (n : ParsedNode) (order : list addr) : string :=
  if existsb (is_fragment_at h) (fields n) then
    replace (unwrapped_python_type (parsed_type n))
            ("Union[" +:+ String.concat ", " (union_names h n order) +:+ "]")
            (wrapped_python_type (parsed_type n))
  else wrapped_python_type (parsed_type n).

(** The field type of a class node: with a fragment among the children, the
    children are sorted by descending number of children, the class names of
    the fragments are collected in that order, the class name of the node
    comes last, and the union takes the place of the class name in the
    wrapped name. *)
Definition tree_field_type (t : Tree) : string :=
  if existsb t_is_fragment (t_children t) then
    let sorted := sort_desc (fun c => length (t_children c)) (t_children t) in
    let names :=
      map (fun c => unwrapped_python_type (t_type c)) (List.filter t_is_fragment sorted)
      ++ [unwrapped_python_type (t_type t)] in
    replace (unwrapped_python_type (t_type t))
            ("Union[" +:+ String.concat ", " names +:+ "]")
            (wrapped_python_type (t_type t))
  else wrapped_python_type (t_type t).

Definition tree_field_line (c : Tree) : list string :=
  match t_cls c with
  | ParsedClassNodeC gql_key py_key =>
      [INDENT +:+ py_key +:+ ": " +:+ tree_field_type c +:+ " = " +:+
       "Field(..., alias=" +:+ DQ +:+ gql_key +:+ DQ +:+ ")"]
  | _ => []
  end.

Definition tree_class_header (pty : option ParsedFieldType) (t : Tree) : string :=
  "class " +:+ unwrapped_python_type (t_type t) +:+
  match t_cls t with
  | ParsedOperationNodeC => "Query(BaseModel):"
  | ParsedInlineFragmentNodeC =>
      "(" +:+ match pty with
              | Some pt => unwrapped_python_type pt
              | None => ""
              end +:+ "):"
  | _ => "(BaseModel):"
  end.

(** Does the node emit a class declaration?  [pty] is the type of the
    parent, when there is one. *)
Definition declares (pty : option ParsedFieldType) (t : Tree) : bool :=
  match t_cls t with
  | ParsedNodeC => false
  | ParsedInlineFragmentNodeC =>
      match pty with
      | None => false
      | Some _ => negb (is_primitive (t_type t))
      end
  | ParsedClassNodeC _ _ => negb (is_primitive (t_type t))
  | ParsedOperationNodeC => true
  end.

(** The declaration of a node: header, one line per class child in child
    order, configuration block. *)
Definition tree_declaration (pty : option ParsedFieldType) (t : Tree) : string :=
  String.concat NL
    (config_lines ([NL +:+ NL; tree_class_header pty t]
                   ++ concat (map tree_field_line (t_children t)))).

Definition tree_class_code_string (pty : option ParsedFieldType) (t : Tree) : string :=
  if declares pty t then tree_declaration pty t else "".

(** The rendering order: the children that are not fragments, then the node
    itself, then the fragments. *)
Fixpoint emit (pty : option ParsedFieldType) (t : Tree) : string :=
  match t with
  | TNode a c ty cs =>
      String.concat "" (map (fun ch => if t_is_fragment ch then ""
                                       else emit (Some ty) ch) cs)
      +:+ tree_class_code_string pty t
      +:+ String.concat "" (map (fun ch => if t_is_fragment ch
                                           then emit (Some ty) ch else "") cs)
  end.



(** The type of the object a parent pointer leads to. *)
Definition parent_type (h : Store) (p : option addr) : option ParsedFieldType :=
  match p with
  | None => None
  | Some a => parsed_type <$> h !! a
  end.

(** Two stores hold the same objects up to the order of their [fields]. *)
Definition same_up_to_order (h h' : Store) : Prop :=
  length h = length h' /\
  forall a n, h !! a = Some n ->
    exists n', h' !! a = Some n' /\
      cls n' = cls n /\ parent n' = parent n /\ parsed_type n' = parsed_type n /\
      fields n' ≡ₚ fields n.

(** Two stores agree on every address outside [X]. *)
Definition agree_outside (X : list addr) (h h' : Store) : Prop :=
  forall b, b ∉ X -> h' !! b = h !! b.

(** The addresses below the root of a tree. *)
Definition strict_addrs (t : Tree) : list addr :=
  concat (map addrs (t_children t)).

Definition t_is_class (t : Tree) : bool :=
  match t_cls t with ParsedClassNodeC _ _ => true | _ => false end.

(** What a rendering loop over the children [cs] may change: the objects
    below the children it picks. *)
Definition touched_by (pick : Tree -> bool) (cs : list Tree) : list addr :=
  concat (map (fun c => if pick c then strict_addrs c else []) cs).

(** What [field_type] reads of a node [t]: the object of [t] itself, and of
    each child its class, its type and the length of its [fields]. *)
Definition child_seen (h : Store) (g : Tree) : Prop :=
  exists m, h !! t_addr g = Some m /\ cls m = t_cls g /\
            parsed_type m = t_type g /\
            length (fields m) = length (t_children g).

Definition shallow (h : Store) (t : Tree) : Prop :=
  (exists p, h !! t_addr t
             = Some {| cls := t_cls t; parent := p;
                       fields := map t_addr (t_children t);
                       parsed_type := t_type t |}) /\
  Forall (child_seen h) (t_children t).

(** The store of a finished traversal: the root has no parent and an empty
    type; every other object has a parent whose [fields] holds it, and is in
    the [fields] of no other object. *)
Definition well_formed_store (h : Store) (root : addr) : Prop :=
  (exists n, h !! root = Some n /\ cls n = ParsedNodeC /\ parent n = None /\
             unwrapped_python_type (parsed_type n) = "" /\
             wrapped_python_type (parsed_type n) = "") /\
  (forall c m, h !! c = Some m -> c <> root ->
     exists p pn, parent m = Some p /\ h !! p = Some pn /\ c ∈ fields pn) /\
  (forall c m q qn, h !! c = Some m -> h !! q = Some qn -> c ∈ fields qn ->
     parent m = Some q) /\
  (forall q qn, h !! q = Some qn -> NoDup (fields qn) /\
     Forall (fun c => is_Some (h !! c)) (fields qn)).

(** ** What a visit builds *)

(** A part of the visit started with the cursor at the object [a] comes
    back with the cursor at [a]; it has appended the roots of new trees
    [ts] to the [fields] of [a], allocated the objects of these trees at
    the next free addresses in pre-order, and left every other object of the
    store as it was. *)
Definition builds (m : Visit unit) : Prop :=
  forall v v' a na,
    m v = inr (tt, v') ->
    self_parent v = Some a ->
    store v !! a = Some na ->
    parsed v' = parsed v /\
    self_parent v' = Some a /\
    length (store v) <= length (store v') /\
    (forall b, b < length (store v) -> b <> a -> store v' !! b = store v !! b) /\
    exists ts,
      store v' !! a = Some (set_fields na (fields na ++ map t_addr ts)) /\
      concat (map addrs ts)
      = seq (length (store v)) (length (store v') - length (store v)) /\
      Forall (repr (store v') (Some a)) ts.

(** A part of the visit that touches the deduplication cache only. *)
Definition keeps_store {A} (m : Visit A) : Prop :=
  forall v x v', m v = inr (x, v') ->
    store v' = store v /\ parsed v' = parsed v /\ self_parent v' = self_parent v.

(** Parent pointers lead to lower addresses, and the cursor is in the
    store: what the walk up the ancestors relies on. *)
Definition chain_ok (h : Store) : Prop :=
  forall c n p, h !! c = Some n -> parent n = Some p -> p < c.

Definition cursor_ok (v : FieldToTypeMatcherVisitor) : Prop :=
  chain_ok (store v) /\
  forall a, self_parent v = Some a -> a < length (store v).

(** A part of the visit that never gets stuck from a state with
    [cursor_ok], and keeps [cursor_ok]. *)
Definition safe {A} (m : Visit A) : Prop :=
  forall v, cursor_ok v ->
    match m v with
    | inl e => e <> Stuck
    | inr (_, v') => cursor_ok v'
    end.

(** A part of the visit that returns from every state with [cursor_ok] and
    a cursor, with the cursor where it was. *)
Definition returns (m : Visit unit) : Prop :=
  forall v a, cursor_ok v -> self_parent v = Some a ->
    exists v', m v = inr (tt, v') /\ cursor_ok v' /\ self_parent v' = Some a.



(** ** What the specification says of [_parse_type] *)

(** The two flags, and the type left once the two tests have stripped what
    they strip. *)
Definition spec_is_optional (t : GraphQLOutputType) : bool :=
  negb (is_GraphQLNonNull t).

Definition spec_is_list (t : GraphQLOutputType) : bool :=
  is_GraphQLList (Unwrapper.strip_non_null t).

Definition below_wrappers (t : GraphQLOutputType) : GraphQLOutputType :=
  match Unwrapper.strip_non_null t with
  | GraphQLList e => e
  | u => u
  end.

Definition is_wrapped (t : GraphQLOutputType) : bool :=
  is_GraphQLNonNull t || is_GraphQLList t.

(** The re-wrapping for the two flags. *)
Definition py_wrap (is_optional is_list : bool) (inner : string) : string :=
  match is_optional, is_list with
  | true, true => "Optional[list[" +:+ inner +:+ "]]"
  | true, false => "Optional[" +:+ inner +:+ "]"
  | false, true => "list[" +:+ inner +:+ "]"
  | false, false => inner
  end.

(** The class name of a type that is not a scalar, before deduplication:
    the underscores go, then the last two characters make room for
    [V] and the last character. *)
Definition candidate_class_name (t : GraphQLOutputType) : option string :=
  let class_name := replace "_" "" (gql_str t) in
  match last_char class_name with
  | None => None
  | Some last => Some (drop_last_two class_name +:+ "V" +:+ last)
  end.

(** A type [_to_python_type] has a name for. *)
Definition resolvable (t : GraphQLOutputType) : bool :=
  is_GraphQLScalarType t || bool_decide (is_Some (candidate_class_name t)).




(** ** Example schema and queries *)

Module Example.

#[export] Instance mapper : Mapper := {|
  graphql_primitive_to_python := fun t =>
    match gql_str t with
    | "String" => "str"
    | "Int" => "int"
    | "Boolean" => "bool"
    | s => s
    end;
  graphql_field_name_to_python := fun s => s
|}.

Definition String_ : option GraphQLOutputType :=
  Some (GraphQLNonNull (GraphQLScalarType "String")).

Definition named (n : string) : option GraphQLOutputType :=
  Some (GraphQLNamedType n).

Definition list_of (n : string) : option GraphQLOutputType :=
  Some (GraphQLList (GraphQLNonNull (GraphQLNamedType n))).

(** [query Q { a { b { c } } }] *)
Definition chain_query : string := "query Q { a { b { c } } }".
Definition chain_document : DocumentNode :=
  [OperationDefinitionNode (Some "Q")
     [FieldNode "a" None (list_of "A_v1")
        [FieldNode "b" None (named "B_v1")
           [FieldNode "c" None String_ []]]]].

(** Three fields of one object type. *)
Definition triple_query : string := "query Q { a { x } b { y } c { z } }".
Definition triple_document : DocumentNode :=
  [OperationDefinitionNode (Some "Q")
     [FieldNode "a" None (list_of "T_v1") [FieldNode "x" None String_ []];
      FieldNode "b" None (list_of "T_v1") [FieldNode "y" None String_ []];
      FieldNode "c" None (list_of "T_v1") [FieldNode "z" None String_ []]]].

(** A scalar child in front of a child with a selection set. *)
Definition reorder_query : string := "query Q { a { x y { z } } }".
Definition reorder_document : DocumentNode :=
  [OperationDefinitionNode (Some "Q")
     [FieldNode "a" None (named "A_v1")
        [FieldNode "x" None String_ [];
         FieldNode "y" None (named "B_v1") [FieldNode "z" None String_ []]]]].

(** Inline fragments on an interface. *)
Definition pet_query : string :=
  "query Q { pet { name ... on Dog_v1 { bark } ... on Cat_v1 { meow purr } } }".
Definition pet_document : DocumentNode :=
  [OperationDefinitionNode (Some "Q")
     [FieldNode "pet" None (list_of "Pet_v1")
        [FieldNode "name" None String_ [];
         InlineFragmentNode (named "Dog_v1") [FieldNode "bark" None String_ []];
         InlineFragmentNode (named "Cat_v1")
           [FieldNode "meow" None String_ []; FieldNode "purr" None String_ []]]]].

(** An operation without a name, and a field the schema does not have. *)
Definition anonymous_query : string := "{ a { x } }".
Definition anonymous_document : DocumentNode :=
  [OperationDefinitionNode None
     [FieldNode "a" None (list_of "T_v1") [FieldNode "x" None String_ []]]].

Definition invalid_query : string := "query Q { nope }".
Definition invalid_document : DocumentNode :=
  [OperationDefinitionNode (Some "Q") [FieldNode "nope" None None []]].

Definition documents : list (string * DocumentNode) :=
  [(chain_query, chain_document); (triple_query, triple_document);
   (reorder_query, reorder_document); (pet_query, pet_document);
   (anonymous_query, anonymous_document); (invalid_query, invalid_document)].

Fixpoint lookup_document (l : list (string * DocumentNode)) (q : string)
  : option DocumentNode :=
  match l with
  | [] => None
  | (q', d) :: l' => if String.eqb q q' then Some d else lookup_document l' q
  end.

(** The validation of the example schema only knows that a field without a
    type is not in the schema. *)
Definition example_validate (document_ast : DocumentNode) : list string :=
  match document_ast with
  | [OperationDefinitionNode _ [FieldNode name _ None _]] =>
      ["Cannot query field " +:+ name +:+ " on type Query."]
  | _ => []
  end.

#[export] Instance core : GraphQLCore := {|
  GraphQLSchema := unit;
  IntrospectionQuery := unit;
  build_client_schema := fun raw => raw;
  graphql_parse := lookup_document documents;
  validate := fun _ => example_validate;
  TypeInfo := fun _ document_ast => document_ast
|}.

(** The store [parse] builds for [pet_query], and the store for
    [reorder_query]. *)
Definition pet_store : Store :=
  match parse pet_query tt with
  | inr (h, _) => h
  | inl _ => []
  end.

Definition reorder_store : Store :=
  match parse reorder_query tt with
  | inr (h, _) => h
  | inl _ => []
  end.

Definition pet_node : ParsedNode :=
  match pet_store !! 2 with
  | Some n => n
  | None => {| cls := ParsedNodeC; parent := None; fields := [];
               parsed_type := root_type |}
  end.

Definition str_type : ParsedFieldType :=
  {| unwrapped_python_type := "str"; wrapped_python_type := "str";
     is_primitive := true |}.

Definition object_type (name wrapped : string) : ParsedFieldType :=
  {| unwrapped_python_type := name; wrapped_python_type := wrapped;
     is_primitive := false |}.

Definition leaf (a : addr) (key : string) : Tree :=
  TNode a (ParsedClassNodeC key key) str_type [].

(** The tree of [pet_store] below the field [pet], and the whole tree. *)
Definition pet_subtree : Tree :=
  TNode 2 (ParsedClassNodeC "pet" "pet") (object_type "PetV1" "Optional[list[PetV1]]")
    [leaf 3 "name";
     TNode 4 ParsedInlineFragmentNodeC (object_type "DogV1" "Optional[DogV1]")
       [leaf 5 "bark"];
     TNode 6 ParsedInlineFragmentNodeC (object_type "CatV1" "Optional[CatV1]")
       [leaf 7 "meow"; leaf 8 "purr"]].

Definition pet_tree : Tree :=
  TNode 0 ParsedNodeC root_type
    [TNode 1 ParsedOperationNodeC (object_type "Q" "Optional[list[Q]]")
       [pet_subtree]].

(** The text [generate] is to return for [chain_query]. *)
Definition field_line (py_key type gql_key : string) : string :=
  "    " +:+ py_key +:+ ": " +:+ type +:+ " = Field(..., alias=" +:+
  DQ +:+ gql_key +:+ DQ +:+ ")".

Definition class_text (header : string) (field_lines : list string) : string :=
  String.concat NL
    ([NL +:+ NL; header] ++ field_lines ++
     [""; "    class Config:"; "        smart_union = True";
      "        extra = Extra.forbid"]).

Definition chain_text : string :=
  HEADER +:+ IMPORTS +:+
  class_text "class BV1(BaseModel):" [field_line "c" "str" "c"] +:+
  class_text "class AV1(BaseModel):" [field_line "b" "Optional[BV1]" "b"] +:+
  class_text "class QQuery(BaseModel):" [field_line "a" "Optional[list[AV1]]" "a"] +:+
  NL.

(** The text [generate] returns for [triple_query]. *)
Definition triple_text : string :=
  HEADER +:+ IMPORTS +:+
  class_text "class TV1(BaseModel):" [field_line "x" "str" "x"] +:+
  class_text "class Q_TV1(BaseModel):" [field_line "y" "str" "y"] +:+
  class_text "class Q_TV1(BaseModel):" [field_line "z" "str" "z"] +:+
  class_text "class QQuery(BaseModel):"
    [field_line "a" "Optional[list[TV1]]" "a";
     field_line "b" "Optional[list[Q_TV1]]" "b";
     field_line "c" "Optional[list[Q_TV1]]" "c"] +:+
  NL.

End Example.

(** Proves [repr] for a closed store and tree by looking every node up. *)
Ltac prove_repr :=
  repeat match goal with
         | |- Forall _ [] => apply List.Forall_nil
         | |- Forall _ (_ :: _) => apply List.Forall_cons
         | |- repr _ _ (TNode _ _ _ _) =>
             apply repr_node; [vm_compute; reflexivity|]
         end.

(** ** What [str.replace] returns *)

(** [old] occurs in [s]. *)
Definition occurs (old s : string) : Prop :=
  exists front back, s = front +:+ old +:+ back.

(** In [front +:+ old] the only occurrence of [old] is the one at the end:
    in a string that starts with [front +:+ old], the leftmost occurrence of
    [old] starts behind [front]. *)
Definition leftmost (old front : string) : Prop :=
  forall a b, front +:+ old = a +:+ old +:+ b -> b = "".

(** [result] is [s] with every occurrence of [old] replaced by [new], the
    occurrences taken from the left and without overlap, as Python documents
    [str.replace] for a string [old] that is not empty.  This is stated
    without [replace]. *)
Inductive Replaced (old new : string) : string -> string -> Prop :=
  | Replaced_none (s : string) :
      ~ occurs old s -> Replaced old new s s
  | Replaced_first (front back result : string) :
      leftmost old front ->
      Replaced old new back result ->
      Replaced old new (front +:+ old +:+ back) (front +:+ new +:+ result).

(** ** Wrapper stacks and type expressions *)

(** The stacks [Unwrapper.unwrap] makes: no [OPTIONAL] follows an
    [OPTIONAL]. *)
Fixpoint valid_stack (stack : list Unwrapper.WrapperType) : bool :=
  match stack with
  | [] => true
  | Unwrapper.OPTIONAL :: rest =>
      match rest with
      | Unwrapper.OPTIONAL :: _ => false
      | _ => valid_stack rest
      end
  | Unwrapper.LIST :: rest => valid_stack rest
  end.

(** The Python type expression of a wrapper stack around a name. *)
Definition py_wrapper (w : Unwrapper.WrapperType) (s : string) : string :=
  match w with
  | Unwrapper.OPTIONAL => "Optional[" +:+ s +:+ "]"
  | Unwrapper.LIST => "list[" +:+ s +:+ "]"
  end.

Definition render_stack (stack : list Unwrapper.WrapperType) (name : string) : string :=
  foldr py_wrapper name stack.

(** The stack without the [OPTIONAL] of the elements of the innermost
    list. *)
Fixpoint forget_element_optional (stack : list Unwrapper.WrapperType)
  : list Unwrapper.WrapperType :=
  match stack with
  | [] => []
  | w :: rest =>
      match w, rest with
      | Unwrapper.LIST, [Unwrapper.OPTIONAL] => [Unwrapper.LIST]
      | _, _ => w :: forget_element_optional rest
      end
  end.

(** The names the loop of [_to_python_type] tries, in the order it tries
    them: the class name, then that name behind the class name of the node
    at the cursor, and so on up the ancestors.  A node without a parent adds
    no name. *)
Fixpoint candidates (fuel : nat) (h : Store) (cur : option addr)
    (class_name : string) : list string :=
  class_name ::
  match cur with
  | None => []
  | Some c =>
      match h !! c with
      | None => []
      | Some n =>
          match parent n, fuel with
          | Some p, S fuel' =>
              candidates fuel' h (Some p)
                (unwrapped_python_type (parsed_type n) +:+ "_" +:+ class_name)
          | _, _ => []
          end
      end
  end.

(** ** The shape of a tree and of a document *)

(** A tree without its addresses and its class names: the class of every
    node with its keys, whether its type is a primitive, and its children in
    order. *)
Inductive Shape : Type :=
  | ShapeNode (c : NodeClass) (primitive : bool) (children : list Shape).

Fixpoint shape (t : Tree) : Shape :=
  match t with
  | TNode _ c ty cs => ShapeNode c (is_primitive ty) (map shape cs)
  end.


Section Shapes.
Context `{Mapper}.

(** The nodes a selection stands for: a field is a class node with the alias
    (or else the name) as GraphQL key and the mapped name as Python key, an
    inline fragment is a fragment node, a fragment spread is nothing. *)
Fixpoint selection_shape (sel : SelectionNode) : list Shape :=
  match sel with
  | FieldNode name alias (Some graphql_type) selection_set =>
      [ShapeNode (ParsedClassNodeC (default name alias)
                                   (graphql_field_name_to_python name))
                 (is_GraphQLScalarType (innermost graphql_type))
                 (concat (map selection_shape selection_set))]
  | InlineFragmentNode (Some graphql_type) selection_set =>
      [ShapeNode ParsedInlineFragmentNodeC
                 (is_GraphQLScalarType (innermost graphql_type))
                 (concat (map selection_shape selection_set))]
  | _ => []
  end.

(** A named operation is an operation node; the selections of a fragment
    definition stand where the definition is visited. *)
Definition definition_shape (d : DefinitionNode) : list Shape :=
  match d with
  | OperationDefinitionNode (Some _) selection_set =>
      [ShapeNode ParsedOperationNodeC false
                 (concat (map selection_shape selection_set))]
  | OperationDefinitionNode None _ => []
  | FragmentDefinitionNode _ selection_set =>
      concat (map selection_shape selection_set)
  end.

Definition document_shape (document_ast : DocumentNode) : list Shape :=
  concat (map definition_shape document_ast).

(** [builds] with the shape of the trees built. *)
Definition grows (shapes : list Shape) (m : Visit unit) : Prop :=
  forall v v' a na,
    m v = inr (tt, v') ->
    self_parent v = Some a ->
    store v !! a = Some na ->
    parsed v' = parsed v /\
    self_parent v' = Some a /\
    length (store v) <= length (store v') /\
    (forall b, b < length (store v) -> b <> a -> store v' !! b = store v !! b) /\
    exists ts,
      store v' !! a = Some (set_fields na (fields na ++ map t_addr ts)) /\
      concat (map addrs ts)
      = seq (length (store v)) (length (store v') - length (store v)) /\
      Forall (repr (store v') (Some a)) ts /\
      map shape ts = shapes.

End Shapes.

(** ** What the visit raises *)

(** A part of the visit that, from a state with [cursor_ok], returns with
    the cursor where it was or raises an exception with [P]. *)
Definition raises_only {A} (P : Exception -> Prop) (m : Visit A) : Prop :=
  forall v, cursor_ok v ->
    match m v with
    | inl e => P e
    | inr (_, v') => cursor_ok v' /\ self_parent v' = self_parent v
    end.

(** A part of the visit that, from a state with [cursor_ok] and the cursor
    at an object, returns with the cursor at that object or raises
    [ValueError] or [IndexError]. *)
Definition steady (m : Visit unit) : Prop :=
  forall v a, cursor_ok v -> self_parent v = Some a ->
    match m v with
    | inl e => e = ValueError \/ e = IndexError
    | inr (_, v') => cursor_ok v' /\ self_parent v' = Some a
    end.

(** ** The command: [code_command.py] *)

(** [s.endswith(suffix)] *)
Fixpoint endswith (s suffix : string) : bool :=
  String.eqb s suffix ||
  match s with
  | EmptyString => false
  | String _ s' => endswith s' suffix
  end.

(** [s[:-3]] *)
Definition drop_last_three (s : string) : string :=
  String.substring 0 (String.length s - 3) s.

(** What the command calls outside the repository and in the modules of the
    repository that are not part of this development: [os.walk] (the root
    and the file names of every directory under [dir], for the files at
    hand), [os.path.join], [json.loads(text)["data"]] ([None] when
    [json.loads] raises, [Some None] when there is no key [data]), and
    [FeatureFlagParser.parse(content).plugin]. *)
Class OperatingSystem `{GraphQLCore} : Type := {
  os_walk : gmap string string -> string -> list (string * list string);
  os_path_join : string -> string -> string;
  json_loads_data : string -> option (option IntrospectionQuery);
  feature_flags_plugin : string -> string
}.

(** The exceptions that end the command. *)
Inductive CommandException : Type :=
  | FileNotFoundError (path : string)
  | JSONDecodeError
  | KeyError (key : string)
  | PluginException (e : Exception).

(** The files by path, and the lines printed so far. *)
Record World : Type := mkWorld {
  file_system : gmap string string;
  printed : list string
}.

Definition print (line : string) (w : World) : World :=
  {| file_system := file_system w; printed := printed w ++ [line] |}.

Definition write (path text : string) (w : World) : World :=
  {| file_system := <[path := text]> (file_system w); printed := printed w |}.

Definition anonymous_message (file : string) : string :=
  "[Skipping File] Query in " +:+ file +:+ " is anonymous. " +:+
  "Qenerate does not support anonymous queries." +:+
  "Please name the query.".

Definition invalid_message (file : string) : string :=
  "[Skipping File] Schema validation failed for " +:+ "query " +:+ file +:+ ".".

(** What becomes of one query file, read off the files the command started
    with. *)
Inductive Verdict : Type :=
  | Written (code : string)
  | Skipped (message : string)
  | Raised (e : CommandException).

Section Command.
Context `{Mapper} `{OperatingSystem}.

(** [plugins] *)
Definition plugins : gmap string (string -> IntrospectionQuery -> Result string) :=
  {[ "pydantic_v1" := generate ]}.

(** [CodeCommand._find_query_files] *)
Definition _find_query_files (fs : gmap string string) (dir : string) : list string :=
  foldl (fun result '(root, files) =>
           foldl (fun result name =>
                    if endswith name ".gql"
                    then result ++ [os_path_join root name]
                    else result)
                 result files)
        [] (os_walk fs dir).

(** The body of the loop of [generate_code] for one file: the exception
    raised, if any, and the world it leaves. *)
Definition generate_file (introspection : IntrospectionQuery) (file : string)
    (w : World) : option CommandException * World :=
  match file_system w !! file with
  | None => (Some (FileNotFoundError file), w)
  | Some content =>
      let plugin_name := feature_flags_plugin content in
      match plugins !! plugin_name with
      | None => (Some (KeyError plugin_name), w)
      | Some plugin =>
          match plugin content introspection with
          | inl AnonymousQueryError => (None, print (anonymous_message file) w)
          | inl (InvalidQueryError _) => (None, print (invalid_message file) w)
          | inl e => (Some (PluginException e), w)
          | inr code => (None, write (drop_last_three file +:+ "py") code w)
          end
      end
  end.

Fixpoint generate_files (introspection : IntrospectionQuery) (files : list string)
    (w : World) : option CommandException * World :=
  match files with
  | [] => (None, w)
  | file :: files' =>
      match generate_file introspection file w with
      | (None, w') => generate_files introspection files' w'
      | raised => raised
      end
  end.

(** [CodeCommand.generate_code] *)
Definition generate_code (introspection_file_path dir : string) (w : World)
  : option CommandException * World :=
  match file_system w !! introspection_file_path with
  | None => (Some (FileNotFoundError introspection_file_path), w)
  | Some text =>
      match json_loads_data text with
      | None => (Some JSONDecodeError, w)
      | Some None => (Some (KeyError "data"), w)
      | Some (Some introspection) =>
          generate_files introspection (_find_query_files (file_system w) dir) w
      end
  end.

(** The verdict on [file], from the files [fs]. *)
Definition verdict (introspection : IntrospectionQuery) (fs : gmap string string)
    (file : string) : Verdict :=
  match fs !! file with
  | None => Raised (FileNotFoundError file)
  | Some content =>
      if decide (feature_flags_plugin content = "pydantic_v1") then
        match generate content introspection with
        | inl AnonymousQueryError => Skipped (anonymous_message file)
        | inl (InvalidQueryError _) => Skipped (invalid_message file)
        | inl e => Raised (PluginException e)
        | inr code => Written code
        end
      else Raised (KeyError (feature_flags_plugin content))
  end.

Definition target (file : string) : string := drop_last_three file +:+ "py".

Definition written_by (introspection : IntrospectionQuery) (fs : gmap string string)
    (files : list string) (path : string) : Prop :=
  exists file code,
    file ∈ files /\ verdict introspection fs file = Written code /\ path = target file.

Definition messages (introspection : IntrospectionQuery) (fs : gmap string string)
    (files : list string) : list string :=
  omap (fun file => match verdict introspection fs file with
                    | Skipped message => Some message
                    | _ => None
                    end) files.

End Command.

Module ExampleCommand.
Import Example.

(** [posixpath.join] for two components *)
Definition posix_join (a b : string) : string :=
  if String.prefix "/" b then b
  else if String.eqb a "" || endswith a "/" then a +:+ b
  else a +:+ "/" +:+ b.

#[export] Instance operating_system : OperatingSystem := {|
  os_walk := fun _ dir =>
    [(dir, ["chain.gql"; "README.md"; "anonymous.gql"]);
     (posix_join dir "pets", ["pet.gql"; "pet.py"])];
  os_path_join := posix_join;
  json_loads_data := fun text =>
    if String.eqb text "{}" then Some None
    else if String.prefix "{" text then Some (Some tt) else None;
  feature_flags_plugin := fun _ => "pydantic_v1"
|}.

Definition example_files : gmap string string :=
  {[ "schema.json" := "{ data }";
     "queries/chain.gql" := chain_query;
     "queries/README.md" := "queries";
     "queries/anonymous.gql" := anonymous_query;
     "queries/pets/pet.gql" := pet_query;
     "queries/pets/pet.py" := "stale" ]}.

Definition example_world : World :=
  {| file_system := example_files; printed := [] |}.

End ExampleCommand.

Module ExampleUnderscore.
Import Example.




End ExampleUnderscore.
(** * Theorems *)

(** ** The type wrapper resolver *)

Module UnwrapperFacts.
Import Unwrapper.

Lemma rewrap_acc_cons w stack inner :
  rewrap_acc (w :: stack) inner = rewrap_step w (rewrap_acc stack inner).
Proof.
  unfold rewrap_acc. simpl. rewrite fold_left_app. reflexivity.
Qed.

Lemma close_strip t : close (is_GraphQLNonNull t) (strip_non_null t) = t.
Proof. destruct t; reflexivity. Qed.

Lemma unwrap_inverts_all t :
  (well_formed t = true -> unwrap_inverts t) /\
  (well_formed (GraphQLNonNull t) = true -> unwrap_inverts (GraphQLNonNull t)).
Proof.
  induction t as [n|n|e [IHe _]|u [_ IHu]]; unfold unwrap_inverts in *.
  - split; intros _; simpl; repeat split.
  - split; intros _; simpl; repeat split.
  - split; simpl; intros Hwf; specialize (IHe Hwf);
      destruct IHe as (Hacc & Hin & Hprim); (split; [|split; assumption]).
    + change (OPTIONAL :: LIST :: wrapper_stack (unwrap e))
        with ([OPTIONAL] ++ [LIST] ++ wrapper_stack (unwrap e)).
      simpl. rewrite !rewrap_acc_cons, Hacc. simpl. by rewrite close_strip.
    + rewrite rewrap_acc_cons, Hacc. simpl. by rewrite close_strip.
  - split; [exact IHu|]. simpl. intros Hwf. discriminate.
Qed.

End UnwrapperFacts.

(** C3.  For every well-formed wrapped output type, re-applying the wrapper
    stack of [Unwrapper.unwrap] from its last (innermost) wrapper to its first
    gives the type back; the stack lists the wrappers from the outermost
    one, the inner type is the innermost type, and [is_primitive] says
    whether that innermost type is a scalar. *)
Theorem unwrap_rewrap (t : GraphQLOutputType) :
  well_formed t = true ->
  let r := Unwrapper.unwrap t in
  Unwrapper.rewrap (Unwrapper.wrapper_stack r) (Unwrapper.inner_gql_type r) = t
  /\ Unwrapper.inner_gql_type r = innermost t
  /\ Unwrapper.is_primitive r = is_GraphQLScalarType (innermost t)
  /\ (forall e, t = GraphQLList e ->
        Unwrapper.wrapper_stack r
        = Unwrapper.OPTIONAL :: Unwrapper.LIST
            :: Unwrapper.wrapper_stack (Unwrapper.unwrap e))
  /\ (forall e, t = GraphQLNonNull (GraphQLList e) ->
        Unwrapper.wrapper_stack r
        = Unwrapper.LIST :: Unwrapper.wrapper_stack (Unwrapper.unwrap e))
  /\ (forall n, t = GraphQLNamedType n \/ t = GraphQLScalarType n ->
        Unwrapper.wrapper_stack r = [Unwrapper.OPTIONAL])
  /\ (forall n, t = GraphQLNonNull (GraphQLNamedType n)
                \/ t = GraphQLNonNull (GraphQLScalarType n) ->
        Unwrapper.wrapper_stack r = []).
Proof.
  intros Hwf r.
  destruct (proj1 (UnwrapperFacts.unwrap_inverts_all t) Hwf) as (Hacc & Hin & Hprim).
  split; [|split; [exact Hin|split; [exact Hprim|]]].
  - unfold Unwrapper.rewrap. fold (Unwrapper.rewrap_acc
      (Unwrapper.wrapper_stack r) (Unwrapper.inner_gql_type r)).
    subst r. rewrite Hacc. simpl. apply UnwrapperFacts.close_strip.
  - subst r. repeat split.
    + intros e ->. reflexivity.
    + intros e ->. reflexivity.
    + intros n [-> | ->]; reflexivity.
    + intros n [-> | ->]; reflexivity.
Qed.

Lemma unwrap_rewrap_witness :
  let t := GraphQLNonNull (GraphQLList (GraphQLList (GraphQLNonNull (GraphQLScalarType "Int")))) in
  let r := Unwrapper.unwrap t in
  Unwrapper.wrapper_stack r = [Unwrapper.LIST; Unwrapper.OPTIONAL; Unwrapper.LIST]
  /\ Unwrapper.rewrap (Unwrapper.wrapper_stack r) (Unwrapper.inner_gql_type r) = t.
Proof.
  split; [reflexivity|].
  apply (unwrap_rewrap
    (GraphQLNonNull (GraphQLList (GraphQLList (GraphQLNonNull (GraphQLScalarType "Int")))))).
  reflexivity.
Defined.

(** ** Strings, loops and the sort *)

Lemma str_app_cons (x : ascii) (a b : string) :
  String x a +:+ b = String x (a +:+ b).
Proof. reflexivity. Qed.

Lemma str_app_nil_l (a : string) : "" +:+ a = a.
Proof. reflexivity. Qed.

Lemma str_app_assoc (a b c : string) : (a +:+ b) +:+ c = a +:+ (b +:+ c).
Proof.
  induction a as [|x a IH]; [reflexivity|]. by rewrite !str_app_cons, IH.
Qed.

Lemma str_app_nil_r (a : string) : a +:+ "" = a.
Proof.
  induction a as [|x a IH]; [reflexivity|]. by rewrite str_app_cons, IH.
Qed.

Lemma concat_empty_cons (x : string) (l : list string) :
  String.concat "" (x :: l) = x +:+ String.concat "" l.
Proof.
  destruct l as [|y l]; simpl; [by rewrite str_app_nil_r|reflexivity].
Qed.

Lemma concat_empty_app (l k : list string) :
  String.concat "" (l ++ k) = String.concat "" l +:+ String.concat "" k.
Proof.
  induction l as [|x l IH]; [reflexivity|].
  change ((x :: l) ++ k) with (x :: (l ++ k)).
  rewrite !concat_empty_cons, IH. symmetry. apply str_app_assoc.
Qed.


Section ForEach.
Context {S A B : Type}.
Implicit Types (body : B -> A -> M S B) (l : list A) (acc : B) (s : S).

Lemma for_each_nil body acc s : for_each [] acc body s = inr (acc, s).
Proof. reflexivity. Qed.

Lemma for_each_cons body x l acc s :
  for_each (x :: l) acc body s =
  match body acc x s with
  | inl e => inl e
  | inr (acc', s') => for_each l acc' body s'
  end.
Proof. reflexivity. Qed.

(** A loop whose body keeps a preorder on the state keeps it. *)
Lemma for_each_preserves (R : S -> S -> Prop) `{!Reflexive R, !Transitive R} body :
  (forall acc x s acc' s', body acc x s = inr (acc', s') -> R s s') ->
  forall l acc s acc' s', for_each l acc body s = inr (acc', s') -> R s s'.
Proof.
  intros Hbody l. induction l as [|x l IH]; intros acc s acc' s' Hrun.
  - rewrite for_each_nil in Hrun. by simplify_eq.
  - rewrite for_each_cons in Hrun.
    destruct (body acc x s) as [e|[acc1 s1]] eqn:Hb; [discriminate|].
    etrans; [by eapply Hbody|by eapply IH].
Qed.

End ForEach.

(** Running a [bind]. *)
Lemma bind_inr {S A B} (m : M S A) (k : A -> M S B) s a s' :
  m s = inr (a, s') -> bind m k s = k a s'.
Proof. unfold bind. by intros ->. Qed.

Lemma bind_run {S A B} (m : M S A) (k : A -> M S B) s r :
  bind m k s = inr r -> exists a s', m s = inr (a, s') /\ k a s' = inr r.
Proof.
  unfold bind. destruct (m s) as [e|[a s']]; [discriminate|]. eauto.
Qed.

Lemma deref_Some (h : Store) a n : h !! a = Some n -> deref a h = inr (n, h).
Proof. unfold deref. by intros ->. Qed.

Lemma deref_run (h h' : Store) a n :
  deref a h = inr (n, h') -> h !! a = Some n /\ h' = h.
Proof. unfold deref. destruct (h !! a); naive_solver. Qed.

Section Sort.
Context {A : Type}.
Implicit Types (key : A -> nat) (l : list A).

Lemma insert_desc_perm key x l : insert_desc key x l ≡ₚ x :: l.
Proof.
  induction l as [|y l IH]; simpl; [done|].
  destruct (Nat.ltb (key x) (key y)); [|done].
  rewrite IH. apply Permutation_swap.
Qed.

Lemma sort_desc_perm key l : sort_desc key l ≡ₚ l.
Proof.
  induction l as [|x l IH]; simpl; [done|].
  by rewrite insert_desc_perm, IH.
Qed.

Lemma sort_desc_length key l : length (sort_desc key l) = length l.
Proof. by rewrite sort_desc_perm. Qed.

Lemma insert_desc_sorted key x l :
  StronglySorted (desc key) l -> StronglySorted (desc key) (insert_desc key x l).
Proof.
  induction 1 as [|y l Hs IH Hy]; simpl.
  - repeat constructor.
  - destruct (Nat.ltb_spec (key x) (key y)) as [Hlt|Hge].
    + constructor; [exact IH|].
      rewrite insert_desc_perm. constructor; [unfold desc; lia|exact Hy].
    + constructor; [by constructor|].
      constructor; [exact Hge|].
      eapply Forall_impl; [exact Hy|]. unfold desc. intros z Hz. simpl in Hz. lia.
Qed.

(** The sort puts the greatest keys first ... *)
Lemma sort_desc_sorted key l : StronglySorted (desc key) (sort_desc key l).
Proof.
  induction l as [|x l IH]; simpl; [constructor|by apply insert_desc_sorted].
Qed.

Lemma insert_desc_stable key x l k :
  List.filter (fun a => Nat.eqb (key a) k) (insert_desc key x l)
  = List.filter (fun a => Nat.eqb (key a) k) (x :: l).
Proof.
  induction l as [|y l IH]; [reflexivity|].
  simpl insert_desc. destruct (Nat.ltb_spec (key x) (key y)) as [Hlt|Hge]; [|reflexivity].
  simpl in *. rewrite IH.
  destruct (Nat.eqb_spec (key x) k), (Nat.eqb_spec (key y) k); try reflexivity. lia.
Qed.

(** ... and is stable: the elements of any one key stay in their order. *)
Lemma sort_desc_stable key l k :
  List.filter (fun a => Nat.eqb (key a) k) (sort_desc key l)
  = List.filter (fun a => Nat.eqb (key a) k) l.
Proof.
  induction l as [|x l IH]; [reflexivity|].
  simpl sort_desc. rewrite insert_desc_stable. simpl. by rewrite IH.
Qed.

Lemma insert_desc_ext key key' x l :
  key x = key' x -> Forall (fun a => key a = key' a) l ->
  insert_desc key x l = insert_desc key' x l.
Proof.
  intros Hx. induction 1 as [|y l Hy _ IH]; simpl; [reflexivity|].
  by rewrite Hx, Hy, IH.
Qed.

Lemma sort_desc_ext key key' l :
  Forall (fun a => key a = key' a) l -> sort_desc key l = sort_desc key' l.
Proof.
  induction 1 as [|x l Hx Hl IH]; simpl; [reflexivity|].
  rewrite IH. apply insert_desc_ext; [exact Hx|].
  by rewrite sort_desc_perm.
Qed.

End Sort.

Lemma insert_desc_map {A B} (f : A -> B) (key : B -> nat) x l :
  insert_desc key (f x) (map f l) = map f (insert_desc (fun a => key (f a)) x l).
Proof.
  induction l as [|y l IH]; simpl; [reflexivity|].
  destruct (Nat.ltb (key (f x)) (key (f y))); simpl; [by rewrite IH|reflexivity].
Qed.

Lemma sort_desc_map {A B} (f : A -> B) (key : B -> nat) l :
  sort_desc key (map f l) = map f (sort_desc (fun a => key (f a)) l).
Proof.
  induction l as [|x l IH]; simpl; [reflexivity|].
  by rewrite IH, insert_desc_map.
Qed.

Lemma existsb_perm {A} (f : A -> bool) (l k : list A) :
  l ≡ₚ k -> existsb f l = existsb f k.
Proof.
  induction 1 as [|x l k _ IH|x y l|l k m _ IH1 _ IH2]; simpl.
  - reflexivity.
  - by rewrite IH.
  - by destruct (f x), (f y).
  - by rewrite IH1.
Qed.

Lemma existsb_filter_length {A} (f : A -> bool) (l : list A) :
  Nat.ltb 0 (length (List.filter f l)) = existsb f l.
Proof.
  induction l as [|x l IH]; simpl; [reflexivity|].
  destruct (f x); simpl; [reflexivity|exact IH].
Qed.
(** ** [str.replace] *)

Lemma str_length_app (a b : string) :
  String.length (a +:+ b) = String.length a + String.length b.
Proof. induction a as [|x a IH]; [done|]. rewrite str_app_cons. simpl. by rewrite IH. Qed.

Lemma str_length_zero (s : string) : String.length s = 0 -> s = "".
Proof. by destruct s. Qed.

Lemma prefix_app (a b : string) : String.prefix a (a +:+ b) = true.
Proof.
  induction a as [|x a IH]; [by destruct b|].
  rewrite str_app_cons. simpl. by destruct (ascii_dec x x).
Qed.

Lemma prefix_true (a s : string) :
  String.prefix a s = true -> exists b, s = a +:+ b.
Proof.
  revert s. induction a as [|x a IH]; intros s Hp.
  - exists s. by rewrite str_app_nil_l.
  - destruct s as [|y s]; simpl in Hp; [discriminate|].
    destruct (ascii_dec x y) as [->|]; [|discriminate].
    destruct (IH _ Hp) as (b & ->). exists b. by rewrite str_app_cons.
Qed.

(** The characters still to be dropped are dropped. *)
Lemma replace_from_skip (old new a b : string) :
  replace_from old new (String.length a) (a +:+ b) = replace_from old new 0 b.
Proof.
  induction a as [|x a IH]; [by rewrite str_app_nil_l|].
  by rewrite str_app_cons.
Qed.

(** One scan from the left: either [old] does not occur and the string is
    returned as it is, or the leftmost occurrence is replaced and the scan
    goes on behind it. *)
Lemma replace_from_scan (o : ascii) (old' new : string) (s : string) :
  let old := String o old' in
  (~ occurs old s /\ replace_from old new 0 s = s)
  \/ (exists front back,
        s = front +:+ old +:+ back
        /\ leftmost old front
        /\ replace_from old new 0 s
           = front +:+ new +:+ replace_from old new 0 back).
Proof.
  intros old. induction s as [|c s IH].
  - left. split; [|done]. intros ([|x a] & b & Heq).
    + by rewrite str_app_nil_l in Heq.
    + by rewrite str_app_cons in Heq.
  - cbn [replace_from]. destruct (String.prefix old (String c s)) eqn:Hp.
    + right. destruct (prefix_true _ _ Hp) as (back & Heq).
      exists "", back. rewrite !str_app_nil_l. split; [exact Heq|]. split.
      * intros a b Hab. rewrite str_app_nil_l in Hab.
        apply (f_equal String.length) in Hab. rewrite !str_length_app in Hab.
        apply str_length_zero. lia.
      * unfold old in Heq. rewrite str_app_cons in Heq. injection Heq as _ ->.
        f_equal. simpl String.length.
        replace (S (String.length old') - 1) with (String.length old') by lia.
        apply replace_from_skip.
    + assert (Hnot : forall b, String c s <> old +:+ b).
      { intros b Heq. by rewrite Heq, prefix_app in Hp. }
      destruct IH as [[Hno Hrep]|(front & back & -> & Hleft & Hrep)].
      * left. split; [|by rewrite Hrep]. intros ([|x a] & b & Heq).
        -- rewrite str_app_nil_l in Heq. by apply (Hnot b).
        -- rewrite str_app_cons in Heq. injection Heq as _ ->.
           apply Hno. by exists a, b.
      * right. exists (String c front), back.
        split; [by rewrite str_app_cons|]. split; [|by rewrite Hrep, str_app_cons].
        intros [|x a] b Heq.
        -- exfalso. rewrite str_app_nil_l in Heq. apply (Hnot (b +:+ back)).
           rewrite <- (str_app_assoc old b back), <- Heq.
           by rewrite str_app_assoc, str_app_cons.
        -- rewrite !str_app_cons in Heq. injection Heq as _ Heq.
           by apply (Hleft a b).
Qed.

(** [replace] replaces every occurrence, from the left and without overlap. *)
Lemma replace_Replaced (old new s : string) :
  old <> "" -> Replaced old new s (replace old new s).
Proof.
  destruct old as [|o old']; [done|]. intros _. unfold replace.
  assert (Hlen : forall n s, String.length s <= n ->
            Replaced (String o old') new s (replace_from (String o old') new 0 s)).
  { clear s. induction n as [|n IH]; intros s Hs.
    - destruct s; [|simpl in Hs; lia]. apply Replaced_none.
      intros ([|x a] & b & Heq).
      + by rewrite str_app_nil_l in Heq.
      + by rewrite str_app_cons in Heq.
    - destruct (replace_from_scan o old' new s)
        as [[Hno ->]|(front & back & -> & Hleft & ->)].
      + by apply Replaced_none.
      + apply Replaced_first; [exact Hleft|]. apply IH.
        rewrite !str_length_app in Hs. simpl in Hs. lia. }
  by apply (Hlen (String.length s)).
Qed.

(** ** [field_type] *)

Lemma lookup_set_fields (h : Store) self n l c :
  h !! self = Some n ->
  <[self := set_fields n l]> h !! c
  = (fun m => if decide (c = self) then set_fields m l else m) <$> h !! c.
Proof.
  intros Hself. destruct (decide (c = self)) as [->|Hne].
  - rewrite list_lookup_insert_eq by (by eapply lookup_lt_Some).
    by rewrite Hself.
  - rewrite list_lookup_insert_ne by done. by destruct (h !! c).
Qed.

Lemma is_fragment_at_set_fields (h : Store) self n l c :
  h !! self = Some n ->
  is_fragment_at (<[self := set_fields n l]> h) c = is_fragment_at h c.
Proof.
  intros Hself. unfold is_fragment_at. rewrite (lookup_set_fields _ _ _ _ _ Hself).
  destruct (h !! c) as [m|]; simpl; [|reflexivity]. by case_decide.
Qed.

Lemma class_name_at_set_fields (h : Store) self n l c :
  h !! self = Some n ->
  class_name_at (<[self := set_fields n l]> h) c = class_name_at h c.
Proof.
  intros Hself. unfold class_name_at. rewrite (lookup_set_fields _ _ _ _ _ Hself).
  destruct (h !! c) as [m|]; simpl; [|reflexivity]. by case_decide.
Qed.

Lemma is_Some_set_fields (h : Store) self n l c :
  h !! self = Some n ->
  is_Some (<[self := set_fields n l]> h !! c) <-> is_Some (h !! c).
Proof.
  intros Hself. rewrite (lookup_set_fields _ _ _ _ _ Hself).
  apply fmap_is_Some.
Qed.

(** The loop of [field_type] collects the class names of the fragments. *)
Lemma is_fragment_at_Some (h : Store) c m :
  h !! c = Some m -> is_fragment_at h c = isinstance_ParsedInlineFragmentNode m.
Proof. unfold is_fragment_at. by intros ->. Qed.

Lemma class_name_at_Some (h : Store) c m :
  h !! c = Some m -> class_name_at h c = unwrapped_python_type (parsed_type m).
Proof. unfold class_name_at. by intros ->. Qed.

Lemma unions_loop (h : Store) (l : list addr) (unions : list string) :
  Forall (fun c => is_Some (h !! c)) l ->
  for_each l unions
    (fun unions field =>
       f <- deref field ;;
       if isinstance_ParsedInlineFragmentNode f
       then ret (unions ++ [unwrapped_python_type (parsed_type f)])
       else ret unions) h
  = inr (unions ++ map (class_name_at h) (List.filter (is_fragment_at h) l), h).
Proof.
  intros Hl. revert unions.
  induction Hl as [|c l [m Hm] _ IH]; intros unions.
  - rewrite for_each_nil. simpl. by rewrite app_nil_r.
  - rewrite for_each_cons. rewrite (bind_inr _ _ _ _ _ (deref_Some _ _ _ Hm)).
    simpl List.filter. rewrite (is_fragment_at_Some _ _ _ Hm).
    destruct (isinstance_ParsedInlineFragmentNode m); unfold ret.
    + rewrite IH. simpl. rewrite (class_name_at_Some _ _ _ Hm).
      by rewrite <- app_assoc.
    + by rewrite IH.
Qed.

Lemma existsb_ext_in {A} (f g : A -> bool) (l : list A) :
  (forall x, f x = g x) -> existsb f l = existsb g l.
Proof. intros Hfg. induction l as [|x l IH]; simpl; [reflexivity|]. by rewrite Hfg, IH. Qed.

Lemma filter_ext_all {A} (f g : A -> bool) (l : list A) :
  (forall x, f x = g x) -> List.filter f l = List.filter g l.
Proof. intros Hfg. induction l as [|x l IH]; simpl; [reflexivity|]. by rewrite Hfg, IH. Qed.

Lemma field_type_run (h : Store) (self : addr) (n : ParsedNode) :
  h !! self = Some n ->
  Forall (fun c => is_Some (h !! c)) (fields n) ->
  let order := sort_desc (len_fields h) (fields n) in
  field_type self h
  = inr (spec_field_type h n order, <[self := set_fields n order]> h).
Proof.
  intros Hself Hall order.
  unfold field_type.
  rewrite (bind_inr _ _ _ _ _ (deref_Some _ _ _ Hself)).
  unfold bind at 1, get. unfold bind at 1, put.
  fold order.
  erewrite bind_inr; last first.
  { apply unions_loop. apply Forall_forall. intros c Hc.
    apply (is_Some_set_fields _ _ _ _ _ Hself).
    eapply Forall_forall in Hall; [exact Hall|].
    by rewrite <- (sort_desc_perm (len_fields h)). }
  rewrite app_nil_l, length_map, existsb_filter_length.
  unfold spec_field_type, union_names.
  rewrite (existsb_perm _ _ _ (sort_desc_perm (len_fields h) (fields n))).
  fold order.
  rewrite (existsb_ext_in _ (is_fragment_at h))
    by (intros; by apply is_fragment_at_set_fields).
  rewrite (filter_ext_all _ (is_fragment_at h))
    by (intros; by apply is_fragment_at_set_fields).
  rewrite (map_ext _ (class_name_at h))
    by (intros; by apply class_name_at_set_fields).
  by destruct (existsb (is_fragment_at h) (fields n)).
Qed.

(** C2.  For a class node whose children are in the store, [field_type]
    sorts the children by descending number of children (the order is a
    permutation of the children, no child is followed by one with more
    children, and children with equally many children keep their order),
    writes that order to the node, and returns: when a child is an inline
    fragment, the wrapped name with every occurrence of the unwrapped name
    replaced by [Union[...]] of the class names of the fragments in that
    order followed by the unwrapped name; otherwise the wrapped name.  What
    replacing means is stated by [Replaced], without [replace]. *)
Theorem field_type_union (h : Store) (self : addr) (n : ParsedNode) :
  h !! self = Some n ->
  isinstance_ParsedClassNode n = true ->
  Forall (fun c => is_Some (h !! c)) (fields n) ->
  let order := sort_desc (len_fields h) (fields n) in
  let name := unwrapped_python_type (parsed_type n) in
  let union :=
    "Union[" +:+
    String.concat ", "
      (map (class_name_at h) (List.filter (is_fragment_at h) order) ++ [name])
    +:+ "]" in
  order ≡ₚ fields n
  /\ StronglySorted (desc (len_fields h)) order
  /\ (forall k, List.filter (fun a => Nat.eqb (len_fields h a) k) order
                = List.filter (fun a => Nat.eqb (len_fields h a) k) (fields n))
  /\ (exists text,
        field_type self h = inr (text, <[self := set_fields n order]> h)
        /\ text = spec_field_type h n order
        /\ (existsb (is_fragment_at h) (fields n) = true ->
            text = replace name union (wrapped_python_type (parsed_type n))
            /\ (name <> "" ->
                Replaced name union (wrapped_python_type (parsed_type n)) text))
        /\ (existsb (is_fragment_at h) (fields n) = false ->
            text = wrapped_python_type (parsed_type n))).
Proof.
  intros Hself _ Hall order name union.
  split; [apply sort_desc_perm|].
  split; [apply sort_desc_sorted|].
  split; [intros k; apply sort_desc_stable|].
  exists (spec_field_type h n order).
  split; [by apply field_type_run|]. split; [reflexivity|].
  unfold spec_field_type, union_names. split; intros ->; [|reflexivity].
  split; [reflexivity|]. intros Hname. by apply replace_Replaced.
Qed.

(** ** What rendering does to the store *)

#[local] Instance same_up_to_order_refl : Reflexive same_up_to_order.
Proof. intros h. split; [reflexivity|]. intros a n Hn. exists n. by repeat split. Qed.

#[local] Instance same_up_to_order_trans : Transitive same_up_to_order.
Proof.
  intros h1 h2 h3 [Hl12 H12] [Hl23 H23]. split; [congruence|].
  intros a n Hn.
  destruct (H12 a n Hn) as (n2 & Hn2 & Hc2 & Hp2 & Ht2 & Hf2).
  destruct (H23 a n2 Hn2) as (n3 & Hn3 & Hc3 & Hp3 & Ht3 & Hf3).
  exists n3. repeat split; try congruence. by rewrite Hf3.
Qed.

Lemma set_fields_same (h : Store) self n l :
  h !! self = Some n -> l ≡ₚ fields n ->
  same_up_to_order h (<[self := set_fields n l]> h).
Proof.
  intros Hself Hperm. split; [by rewrite length_insert|].
  intros a m Hm. rewrite (lookup_set_fields _ _ _ _ _ Hself), Hm. simpl.
  eexists; split; [reflexivity|]. case_decide; [|by repeat split].
  simplify_eq. by repeat split.
Qed.

Lemma set_fields_agree (h : Store) self n l :
  agree_outside [self] h (<[self := set_fields n l]> h).
Proof.
  intros b Hb. apply list_lookup_insert_ne. intros ->. apply Hb. by left.
Qed.

Lemma agree_outside_refl X h : agree_outside X h h.
Proof. by intros b _. Qed.

Lemma agree_outside_trans X Y Z h1 h2 h3 :
  agree_outside X h1 h2 -> agree_outside Y h2 h3 ->
  X ⊆ Z -> Y ⊆ Z -> agree_outside Z h1 h3.
Proof.
  intros H12 H23 HX HY b Hb. rewrite H23, H12; [done|..]; intros ?; apply Hb; auto.
Qed.

Lemma agree_outside_mono X Y h h' :
  agree_outside X h h' -> X ⊆ Y -> agree_outside Y h h'.
Proof. intros Hag HXY b Hb. apply Hag. intros ?. apply Hb. auto. Qed.

(** The loop of [field_type] leaves the store as it is. *)
Lemma unions_loop_state (l : list addr) (unions unions' : list string) (h h' : Store) :
  for_each l unions
    (fun unions field =>
       f <- deref field ;;
       if isinstance_ParsedInlineFragmentNode f
       then ret (unions ++ [unwrapped_python_type (parsed_type f)])
       else ret unions) h = inr (unions', h') ->
  h' = h.
Proof.
  intros Hrun. symmetry. revert Hrun.
  apply (for_each_preserves eq). clear.
  intros acc x s acc' s' Hb. apply bind_run in Hb as (f & s1 & Hd & Hk).
  apply deref_run in Hd as [_ ->].
  destruct (isinstance_ParsedInlineFragmentNode f); unfold ret in Hk; by simplify_eq.
Qed.

(** [field_type] changes the store at [self] only, and there only the
    order of [fields]. *)
Lemma field_type_effect (self : addr) (h h' : Store) (s : string) :
  field_type self h = inr (s, h') ->
  exists n, h !! self = Some n /\
    h' = <[self := set_fields n (sort_desc (len_fields h) (fields n))]> h.
Proof.
  unfold field_type. intros Hrun.
  apply bind_run in Hrun as (n & h1 & Hd & Hrun).
  apply deref_run in Hd as [Hself ->].
  unfold bind at 1, get in Hrun. unfold bind at 1, put in Hrun.
  apply bind_run in Hrun as (unions & h2 & Hloop & Hrun).
  apply unions_loop_state in Hloop as ->.
  exists n. split; [exact Hself|].
  destruct (Nat.ltb 0 (length unions)); unfold ret in Hrun; by simplify_eq.
Qed.

Lemma field_type_same (self : addr) (h h' : Store) (s : string) :
  field_type self h = inr (s, h') -> same_up_to_order h h'.
Proof.
  intros (n & Hself & ->)%field_type_effect.
  apply set_fields_same; [exact Hself|apply sort_desc_perm].
Qed.

Lemma field_lines_same (l : list addr) (lines lines' : list string) (h h' : Store) :
  field_lines l lines h = inr (lines', h') -> same_up_to_order h h'.
Proof.
  unfold field_lines. apply (for_each_preserves same_up_to_order). clear.
  intros acc x s acc' s' Hb. apply bind_run in Hb as (f & s1 & Hd & Hk).
  apply deref_run in Hd as [_ ->].
  destruct (cls f); try (unfold ret in Hk; by simplify_eq).
  apply bind_run in Hk as (ft & s2 & Hft & Hk). unfold ret in Hk. simplify_eq.
  by eapply field_type_same.
Qed.

Lemma class_code_string_same (self : addr) (h h' : Store) (s : string) :
  class_code_string self h = inr (s, h') -> same_up_to_order h h'.
Proof.
  unfold class_code_string. intros Hrun.
  apply bind_run in Hrun as (n & h1 & Hd & Hrun).
  apply deref_run in Hd as [Hself ->].
  destruct (cls n).
  - unfold ret in Hrun. by simplify_eq.
  - destruct (parent n) as [p|]; [|unfold ret in Hrun; by simplify_eq].
    destruct (is_primitive (parsed_type n)); [unfold ret in Hrun; by simplify_eq|].
    apply bind_run in Hrun as (pn & h1 & Hd & Hrun).
    apply deref_run in Hd as [_ ->].
    apply bind_run in Hrun as (lines & h2 & Hfl & Hrun).
    unfold ret in Hrun. simplify_eq. by eapply field_lines_same.
  - destruct (is_primitive (parsed_type n)); [unfold ret in Hrun; by simplify_eq|].
    apply bind_run in Hrun as (lines & h2 & Hfl & Hrun).
    unfold ret in Hrun. simplify_eq. by eapply field_lines_same.
  - apply bind_run in Hrun as (lines & h2 & Hfl & Hrun).
    unfold ret in Hrun. simplify_eq. by eapply field_lines_same.
Qed.

Lemma traverse_unfold (fuel : nat) (node : addr) :
  _traverse (S fuel) node =
  (n <- deref node ;;
   result <- for_each (fields n) ""
     (fun result child =>
        c <- deref child ;;
        if negb (isinstance_ParsedInlineFragmentNode c)
        then s <- _traverse fuel child ;; ret (result +:+ s)
        else ret result) ;;
   s <- class_code_string node ;;
   let result := result +:+ s in
   n <- deref node ;;
   for_each (fields n) result
     (fun result child =>
        c <- deref child ;;
        if isinstance_ParsedInlineFragmentNode c
        then s <- _traverse fuel child ;; ret (result +:+ s)
        else ret result)).
Proof. reflexivity. Qed.

(** Rendering keeps every object, its class, keys, parent and type; the
    [fields] of an object hold the same addresses afterwards, possibly in
    another order. *)
Lemma traverse_same (fuel : nat) (node : addr) (h h' : Store) (s : string) :
  _traverse fuel node h = inr (s, h') -> same_up_to_order h h'.
Proof.
  revert node h h' s. induction fuel as [|fuel IH]; intros node h h' s Hrun;
    [discriminate|].
  rewrite traverse_unfold in Hrun.
  assert (Hloop : forall (sel : ParsedNode -> bool) l acc h1 acc' h2,
    for_each l acc
      (fun result child =>
         c <- deref child ;;
         if sel c then s <- _traverse fuel child ;; ret (result +:+ s)
         else ret result) h1 = inr (acc', h2) -> same_up_to_order h1 h2).
  { intros sel. apply (for_each_preserves same_up_to_order).
    intros acc x s1 acc' s2 Hb. apply bind_run in Hb as (c & s3 & Hd & Hk).
    apply deref_run in Hd as [_ ->].
    destruct (sel c); [|unfold ret in Hk; by simplify_eq].
    apply bind_run in Hk as (r & s4 & Htr & Hk). unfold ret in Hk. simplify_eq.
    by eapply IH. }
  apply bind_run in Hrun as (n & h1 & Hd & Hrun).
  apply deref_run in Hd as [_ ->].
  apply bind_run in Hrun as (r1 & h1 & Hl1 & Hrun).
  apply (Hloop (fun c => negb (isinstance_ParsedInlineFragmentNode c))) in Hl1.
  apply bind_run in Hrun as (r2 & h2 & Hccs & Hrun).
  apply class_code_string_same in Hccs.
  apply bind_run in Hrun as (n' & h3 & Hd & Hrun).
  apply deref_run in Hd as [_ ->].
  apply (Hloop isinstance_ParsedInlineFragmentNode) in Hrun.
  etrans; [exact Hl1|]. etrans; [exact Hccs|exact Hrun].
Qed.

(** ** Trees in the store *)

Lemma Tree_ind_forall (P : Tree -> Prop) :
  (forall a c ty cs, Forall P cs -> P (TNode a c ty cs)) ->
  forall t, P t.
Proof.
  intros Hnode. fix IH 1. intros [a c ty cs]. apply Hnode.
  induction cs as [|t cs IHcs]; constructor; [apply IH|exact IHcs].
Qed.

Lemma repr_inv (h : Store) p a c ty cs :
  repr h p (TNode a c ty cs) ->
  h !! a = Some {| cls := c; parent := p; fields := map t_addr cs;
                   parsed_type := ty |}
  /\ Forall (repr h (Some a)) cs.
Proof. by inversion 1. Qed.

Lemma addrs_unfold (t : Tree) :
  addrs t = t_addr t :: concat (map addrs (t_children t)).
Proof. by destruct t. Qed.

Lemma t_addr_in_addrs (t : Tree) : t_addr t ∈ addrs t.
Proof. rewrite addrs_unfold. by left. Qed.

Lemma elem_of_concat_addrs (b : addr) (cs : list Tree) :
  b ∈ concat (map addrs cs) <-> exists c, c ∈ cs /\ b ∈ addrs c.
Proof.
  rewrite list_elem_of_In, in_concat. split.
  - intros (l & Hl & Hb). apply in_map_iff in Hl as (c & <- & Hc).
    exists c. by rewrite !list_elem_of_In.
  - intros (c & Hc & Hb). exists (addrs c). rewrite in_map_iff.
    split; [exists c|]; by rewrite <- ?list_elem_of_In.
Qed.

Lemma child_addrs_subset (cs : list Tree) :
  map t_addr cs ⊆ concat (map addrs cs).
Proof.
  intros b (c & -> & Hc)%list_elem_of_fmap.
  apply elem_of_concat_addrs. exists c. split; [exact Hc|apply t_addr_in_addrs].
Qed.

Lemma repr_frame (h h' : Store) (t : Tree) : forall p,
  (forall b, b ∈ addrs t -> h' !! b = h !! b) ->
  repr h p t -> repr h' p t.
Proof.
  induction t as [a c ty cs IH] using Tree_ind_forall. intros p Hag Hrepr.
  apply repr_inv in Hrepr as [Ha Hcs]. constructor.
  - rewrite Hag; [exact Ha|]. apply (t_addr_in_addrs (TNode a c ty cs)).
  - rewrite Forall_forall in IH, Hcs. apply Forall_forall. intros ch Hch.
    apply IH; [exact Hch| |by apply Hcs].
    intros b Hb. apply Hag. simpl. right.
    apply elem_of_concat_addrs. eauto.
Qed.

Lemma repr_child_seen (h : Store) p (g : Tree) : repr h p g -> child_seen h g.
Proof.
  destruct g as [a c ty cs]. intros [Ha _]%repr_inv.
  eexists; split; [exact Ha|]. simpl. by rewrite length_map.
Qed.

Lemma child_seen_same (h h' : Store) (g : Tree) :
  same_up_to_order h h' -> child_seen h g -> child_seen h' g.
Proof.
  intros [_ Hsame] (m & Hm & Hc & Ht & Hl).
  destruct (Hsame _ _ Hm) as (m' & Hm' & Hc' & _ & Ht' & Hf').
  exists m'. repeat split; [exact Hm'|congruence..|by rewrite Hf'].
Qed.

(** A node whose own object is untouched is still seen by [field_type]
    after any amount of rendering. *)
Lemma repr_shallow (h h' : Store) p (t : Tree) :
  repr h p t -> same_up_to_order h h' -> h' !! t_addr t = h !! t_addr t ->
  shallow h' t.
Proof.
  destruct t as [a c ty cs]. intros [Ha Hcs]%repr_inv Hsame Heq. split.
  - exists p. simpl in *. by rewrite Heq.
  - simpl. eapply Forall_impl; [exact Hcs|]. intros g Hg. simpl in Hg.
    eapply child_seen_same; [exact Hsame|by eapply repr_child_seen].
Qed.

Lemma shallow_frame (h h' : Store) (t : Tree) :
  (forall b, b ∈ addrs t -> h' !! b = h !! b) -> shallow h t -> shallow h' t.
Proof.
  intros Hag [[p Hp] Hcs]. split.
  - exists p. rewrite Hag; [exact Hp|apply t_addr_in_addrs].
  - rewrite Forall_forall in Hcs. apply Forall_forall. intros g Hg.
    destruct (Hcs g Hg) as (m & Hm & Hrest). exists m. split; [|exact Hrest].
    rewrite Hag; [exact Hm|]. rewrite addrs_unfold. right.
    apply elem_of_concat_addrs. exists g. split; [exact Hg|apply t_addr_in_addrs].
Qed.

Lemma list_subseteq_cons_r {A} (x : A) (l : list A) : l ⊆ x :: l.
Proof. intros y Hy. by right. Qed.

Lemma filter_map_comm {A B} (f : B -> bool) (g : A -> B) (l : list A) :
  List.filter f (map g l) = map g (List.filter (fun x => f (g x)) l).
Proof.
  induction l as [|x l IH]; simpl; [reflexivity|].
  destruct (f (g x)); simpl; by rewrite IH.
Qed.

Lemma existsb_map_comm {A B} (f : B -> bool) (g : A -> B) (l : list A) :
  existsb f (map g l) = existsb (fun x => f (g x)) l.
Proof. induction l as [|x l IH]; simpl; [reflexivity|]. by rewrite IH. Qed.

Lemma existsb_ext_Forall {A} (f g : A -> bool) (l : list A) :
  Forall (fun x => f x = g x) l -> existsb f l = existsb g l.
Proof. induction 1 as [|x l Hx _ IH]; simpl; [reflexivity|]. by rewrite Hx, IH. Qed.

Lemma filter_ext_Forall {A} (f g : A -> bool) (l : list A) :
  Forall (fun x => f x = g x) l -> List.filter f l = List.filter g l.
Proof. induction 1 as [|x l Hx _ IH]; simpl; [reflexivity|]. by rewrite Hx, IH. Qed.

Lemma Forall_filter_bool {A} (P : A -> Prop) (f : A -> bool) (l : list A) :
  Forall P l -> Forall P (List.filter f l).
Proof.
  induction 1 as [|x l Hx _ IH]; simpl; [constructor|].
  destruct (f x); [by constructor|exact IH].
Qed.

Lemma child_seen_fragment (h : Store) (g : Tree) :
  child_seen h g -> is_fragment_at h (t_addr g) = t_is_fragment g.
Proof.
  intros (m & Hm & Hc & _). rewrite (is_fragment_at_Some _ _ _ Hm).
  unfold isinstance_ParsedInlineFragmentNode, t_is_fragment. by rewrite Hc.
Qed.

Lemma child_seen_name (h : Store) (g : Tree) :
  child_seen h g -> class_name_at h (t_addr g) = unwrapped_python_type (t_type g).
Proof.
  intros (m & Hm & _ & Ht & _). rewrite (class_name_at_Some _ _ _ Hm). by rewrite Ht.
Qed.

Lemma child_seen_len (h : Store) (g : Tree) :
  child_seen h g -> len_fields h (t_addr g) = length (t_children g).
Proof. intros (m & Hm & _ & _ & Hl). unfold len_fields. by rewrite Hm. Qed.

(** On a node the store holds, [field_type] returns what the
    specification says of the tree. *)
Lemma field_type_tree (h : Store) (t : Tree) :
  shallow h t ->
  exists n l, h !! t_addr t = Some n /\ l ≡ₚ fields n /\
    field_type (t_addr t) h
    = inr (tree_field_type t, <[t_addr t := set_fields n l]> h).
Proof.
  intros [[p Hp] Hcs]. eexists _, _. split; [exact Hp|].
  split; [apply (sort_desc_perm (len_fields h))|].
  rewrite (field_type_run _ _ _ Hp); last first.
  { simpl. apply Forall_fmap. eapply Forall_impl; [exact Hcs|].
    intros g (m & Hm & _). simpl. by rewrite Hm. }
  simpl. f_equal. f_equal.
  unfold spec_field_type, tree_field_type, union_names. simpl.
  rewrite existsb_map_comm.
  rewrite (existsb_ext_Forall _ t_is_fragment); last first.
  { eapply Forall_impl; [exact Hcs|]. intros g. apply child_seen_fragment. }
  destruct (existsb t_is_fragment (t_children t)); [|reflexivity].
  f_equal. f_equal. f_equal. f_equal.
  rewrite sort_desc_map.
  rewrite (sort_desc_ext _ (fun c => length (t_children c))); last first.
  { eapply Forall_impl; [exact Hcs|]. intros g. apply child_seen_len. }
  set (sorted := sort_desc _ (t_children t)).
  assert (Hsorted : Forall (child_seen h) sorted).
  { unfold sorted. by rewrite sort_desc_perm. }
  rewrite filter_map_comm, map_map.
  rewrite (filter_ext_Forall _ t_is_fragment); last first.
  { eapply Forall_impl; [exact Hsorted|]. intros g. apply child_seen_fragment. }
  apply Forall_filter_bool with (f := t_is_fragment) in Hsorted.
  induction Hsorted as [|g l Hg _ IH]; simpl; [reflexivity|].
  by rewrite IH, (child_seen_name _ _ Hg).
Qed.

(** The field lines of a node are those of its tree; the loop changes the
    store at the class children only. *)
Lemma field_lines_tree (cs : list Tree) : forall (h : Store) (lines : list string),
  Forall (shallow h) cs ->
  NoDup (concat (map addrs cs)) ->
  exists h', field_lines (map t_addr cs) lines h
             = inr (lines ++ concat (map tree_field_line cs), h')
    /\ agree_outside (map t_addr (List.filter t_is_class cs)) h h'.
Proof.
  induction cs as [|c cs IH]; intros h lines Hsh Hnd.
  - exists h. split; [|apply agree_outside_refl].
    unfold field_lines. simpl map. rewrite for_each_nil. simpl. by rewrite app_nil_r.
  - apply Forall_cons in Hsh as [Hc Hcs].
    simpl in Hnd. apply NoDup_app in Hnd as (_ & Hdisj & Hnd).
    destruct Hc as [[p Hp] Hgs].
    unfold field_lines. simpl map. rewrite for_each_cons.
    rewrite (bind_inr _ _ _ _ _ (deref_Some _ _ _ Hp)). cbn [cls].
    unfold tree_field_line at 1. simpl List.filter. unfold t_is_class at 1.
    destruct (t_cls c) as [| |gql_key py_key|] eqn:Hcls;
      try (destruct (IH h lines Hcs Hnd) as (h' & Hrun & Hag);
           exists h'; split; [exact Hrun|exact Hag]).
    destruct (field_type_tree h c) as (n & l & Hn & Hperm & Hft).
    { split; [exists p; by rewrite Hcls|exact Hgs]. }
    rewrite (bind_inr _ _ _ _ _ Hft). unfold ret.
    set (h1 := <[t_addr c := set_fields n l]> h).
    destruct (IH h1 (lines ++ [INDENT +:+ py_key +:+ ": " +:+ tree_field_type c +:+
                               " = " +:+ "Field(..., alias=" +:+ DQ +:+ gql_key +:+
                               DQ +:+ ")"])) as (h' & Hrun & Hag).
    + apply Forall_forall. intros d Hd.
      eapply shallow_frame; [|by eapply Forall_forall in Hcs].
      intros b Hb. apply set_fields_agree. intros ->%list_elem_of_singleton.
      eapply Hdisj; [apply t_addr_in_addrs|].
      apply elem_of_concat_addrs. eauto.
    + exact Hnd.
    + exists h'. split.
      * rewrite <- app_assoc in Hrun. exact Hrun.
      * eapply agree_outside_trans; [apply set_fields_agree|exact Hag|..].
        -- intros b ->%list_elem_of_singleton. by left.
        -- apply list_subseteq_cons_r.
Qed.

Lemma parent_type_same (h h' : Store) (p : option addr) :
  same_up_to_order h h' -> parent_type h' p = parent_type h p.
Proof.
  intros [Hlen Hsame]. destruct p as [pa|]; [|reflexivity]. simpl.
  destruct (h !! pa) as [n|] eqn:Hn.
  - destruct (Hsame _ _ Hn) as (n' & -> & _ & _ & Ht & _). simpl. by rewrite Ht.
  - apply lookup_ge_None in Hn. rewrite Hlen in Hn.
    apply lookup_ge_None in Hn. by rewrite Hn.
Qed.

Lemma is_Some_same (h h' : Store) (a : addr) :
  same_up_to_order h h' -> is_Some (h !! a) -> is_Some (h' !! a).
Proof.
  intros [_ Hsame] [n Hn]. destruct (Hsame _ _ Hn) as (n' & -> & _). by eexists.
Qed.

(** [class_code_string] gives the declaration of the tree. *)
Lemma class_code_string_tree (h : Store) (p : option addr) (t : Tree) :
  h !! t_addr t = Some {| cls := t_cls t; parent := p;
                          fields := map t_addr (t_children t);
                          parsed_type := t_type t |} ->
  (forall pa, p = Some pa -> is_Some (h !! pa)) ->
  Forall (shallow h) (t_children t) ->
  NoDup (concat (map addrs (t_children t))) ->
  exists h', class_code_string (t_addr t) h
             = inr (tree_class_code_string (parent_type h p) t, h')
    /\ agree_outside (map t_addr (List.filter t_is_class (t_children t))) h h'.
Proof.
  intros Ha Hp Hsh Hnd. unfold class_code_string.
  rewrite (bind_inr _ _ _ _ _ (deref_Some _ _ _ Ha)).
  cbn [cls parent parsed_type fields].
  unfold tree_class_code_string, declares, tree_declaration, tree_class_header.
  destruct (t_cls t) eqn:Hcls.
  - exists h. split; [reflexivity|apply agree_outside_refl].
  - destruct p as [pa|]; [|exists h; split; [reflexivity|apply agree_outside_refl]].
    destruct (Hp pa eq_refl) as [pn Hpn]. simpl parent_type. rewrite Hpn. simpl.
    destruct (is_primitive (t_type t));
      [exists h; split; [reflexivity|apply agree_outside_refl]|].
    rewrite (bind_inr _ _ _ _ _ (deref_Some _ _ _ Hpn)).
    destruct (field_lines_tree (t_children t) h
                [NL +:+ NL; "class " +:+ unwrapped_python_type (t_type t) +:+
                            "(" +:+ unwrapped_python_type (parsed_type pn) +:+ "):"]
                Hsh Hnd) as (h' & Hrun & Hag).
    exists h'. split; [|exact Hag]. by rewrite (bind_inr _ _ _ _ _ Hrun).
  - destruct (is_primitive (t_type t));
      [exists h; split; [reflexivity|apply agree_outside_refl]|]. simpl negb.
    destruct (field_lines_tree (t_children t) h
                [NL +:+ NL; "class " +:+ unwrapped_python_type (t_type t) +:+
                            "(BaseModel):"]
                Hsh Hnd) as (h' & Hrun & Hag).
    exists h'. split; [|exact Hag]. by rewrite (bind_inr _ _ _ _ _ Hrun).
  - destruct (field_lines_tree (t_children t) h
                [NL +:+ NL; "class " +:+ unwrapped_python_type (t_type t) +:+
                            "Query(BaseModel):"]
                Hsh Hnd) as (h' & Hrun & Hag).
    exists h'. split; [|exact Hag]. by rewrite (bind_inr _ _ _ _ _ Hrun).
Qed.

(** ** [_traverse] renders the tree *)

Lemma traverse_loop_same (fuel : nat) (sel : ParsedNode -> bool)
    (l : list addr) (acc : string) (h1 : Store) (acc' : string) (h2 : Store) :
  for_each l acc
    (fun result child =>
       c <- deref child ;;
       if sel c then s <- _traverse fuel child ;; ret (result +:+ s)
       else ret result) h1 = inr (acc', h2) ->
  same_up_to_order h1 h2.
Proof.
  revert l acc h1 acc' h2. apply (for_each_preserves same_up_to_order).
  intros acc x s1 acc' s2 Hb. apply bind_run in Hb as (c & s3 & Hd & Hk).
  apply deref_run in Hd as [_ ->].
  destruct (sel c); [|unfold ret in Hk; by simplify_eq].
  apply bind_run in Hk as (r & s4 & Htr & Hk). unfold ret in Hk. simplify_eq.
  by eapply traverse_same.
Qed.

Lemma strict_addrs_subset (c : Tree) : strict_addrs c ⊆ addrs c.
Proof. intros b Hb. rewrite addrs_unfold. by right. Qed.

Lemma addrs_disjoint (cs : list Tree) :
  NoDup (concat (map addrs cs)) ->
  forall c d b, c ∈ cs -> d ∈ cs -> b ∈ addrs c -> b ∈ addrs d -> c = d.
Proof.
  induction cs as [|x cs IH]; intros Hnd c d b Hc Hd Hbc Hbd.
  - by apply elem_of_nil in Hc.
  - simpl in Hnd. apply NoDup_app in Hnd as (_ & Hdisj & Hnd).
    apply elem_of_cons in Hc as [->|Hc], Hd as [->|Hd].
    + reflexivity.
    + exfalso. eapply Hdisj; [exact Hbc|]. apply elem_of_concat_addrs. eauto.
    + exfalso. eapply Hdisj; [exact Hbd|]. apply elem_of_concat_addrs. eauto.
    + by eapply IH.
Qed.

Lemma NoDup_child (cs : list Tree) (c : Tree) :
  NoDup (concat (map addrs cs)) -> c ∈ cs -> NoDup (addrs c).
Proof.
  induction cs as [|x cs IH]; intros Hnd Hc; [by apply elem_of_nil in Hc|].
  simpl in Hnd. apply NoDup_app in Hnd as (Hx & _ & Hnd).
  apply elem_of_cons in Hc as [->|Hc]; [exact Hx|by apply IH].
Qed.

Lemma elem_of_touched_by (b : addr) (pick : Tree -> bool) (cs : list Tree) :
  b ∈ touched_by pick cs <-> exists c, c ∈ cs /\ pick c = true /\ b ∈ strict_addrs c.
Proof.
  unfold touched_by. induction cs as [|x cs IH]; simpl.
  - split; [by intros ?%elem_of_nil|]. by intros (c & ?%elem_of_nil & _).
  - rewrite elem_of_app, IH. split.
    + intros [Hb|(c & Hc & Hp & Hb)].
      * destruct (pick x) eqn:Hx; [|by apply elem_of_nil in Hb].
        exists x. split; [by left|done].
      * exists c. split; [by right|done].
    + intros (c & Hc & Hp & Hb). apply elem_of_cons in Hc as [->|Hc].
      * left. by rewrite Hp.
      * right. eauto.
Qed.

Lemma touched_by_subset (pick : Tree -> bool) (cs : list Tree) :
  touched_by pick cs ⊆ concat (map addrs cs).
Proof.
  intros b (c & Hc & _ & Hb)%elem_of_touched_by.
  apply elem_of_concat_addrs. exists c. split; [exact Hc|by apply strict_addrs_subset].
Qed.

Lemma t_addr_not_touched (pick : Tree -> bool) (cs : list Tree) (c : Tree) :
  NoDup (concat (map addrs cs)) -> c ∈ cs -> t_addr c ∉ touched_by pick cs.
Proof.
  intros Hnd Hc (d & Hd & _ & Hb)%elem_of_touched_by.
  assert (c = d) as <-.
  { eapply (addrs_disjoint cs Hnd c d (t_addr c)); [done..|apply t_addr_in_addrs|].
    by apply strict_addrs_subset. }
  apply (NoDup_child _ _ Hnd) in Hc. rewrite addrs_unfold in Hc.
  apply NoDup_cons in Hc as [Hc _]. by apply Hc.
Qed.

Lemma class_children_subset (cs : list Tree) :
  map t_addr (List.filter t_is_class cs) ⊆ concat (map addrs cs).
Proof.
  intros b (c & -> & Hc)%list_elem_of_fmap.
  apply list_elem_of_In, filter_In in Hc as [Hc _]. apply list_elem_of_In in Hc.
  apply elem_of_concat_addrs. exists c. split; [exact Hc|apply t_addr_in_addrs].
Qed.

Lemma foldr_max_le (l : list nat) (n : nat) :
  foldr Nat.max 0 l <= n -> Forall (fun x => x <= n) l.
Proof.
  induction l as [|x l IH]; simpl; intros Hle; constructor; [lia|apply IH; lia].
Qed.

(** One of the two loops of [_traverse] over the children [cs] of the node
    at [a]: [sel] is its test, [pick] the same test on trees. *)
Lemma traverse_loop_tree (fuel : nat) (sel : ParsedNode -> bool)
    (pick : Tree -> bool) (f : Tree -> string) (a : addr) (ty : ParsedFieldType) :
  (forall t h p, t_height t <= fuel -> repr h p t -> NoDup (addrs t) ->
     (forall pa, p = Some pa -> is_Some (h !! pa)) ->
     exists h', _traverse fuel (t_addr t) h = inr (emit (parent_type h p) t, h')
       /\ agree_outside (strict_addrs t) h h') ->
  (forall n ch, cls n = t_cls ch -> sel n = pick ch) ->
  (forall ch, f ch = if pick ch then emit (Some ty) ch else "") ->
  forall (cs : list Tree) (h : Store) (acc : string),
    Forall (fun c => exists m, h !! t_addr c = Some m /\ cls m = t_cls c) cs ->
    Forall (fun c => pick c = true -> repr h (Some a) c) cs ->
    NoDup (concat (map addrs cs)) ->
    a ∉ concat (map addrs cs) ->
    (exists na, h !! a = Some na /\ parsed_type na = ty) ->
    Forall (fun c => t_height c <= fuel) cs ->
    exists h',
      for_each (map t_addr cs) acc
        (fun result child =>
           c <- deref child ;;
           if sel c then s <- _traverse fuel child ;; ret (result +:+ s)
           else ret result) h
      = inr (acc +:+ String.concat "" (map f cs), h')
      /\ agree_outside (touched_by pick cs) h h'.
Proof.
  intros IHfuel Hsel Hf cs.
  induction cs as [|c cs IH]; intros h acc Hseen Hrepr Hnd Ha Hna Hfuel.
  - exists h. split; [|apply agree_outside_refl].
    simpl map. rewrite for_each_nil. simpl. by rewrite str_app_nil_r.
  - apply Forall_cons in Hseen as [(m & Hm & Hcls) Hseen].
    apply Forall_cons in Hrepr as [Hc Hrepr].
    apply Forall_cons in Hfuel as [Hfc Hfuel].
    simpl in Hnd, Ha. apply NoDup_app in Hnd as (Hndc & Hdisj & Hnd).
    apply not_elem_of_app in Ha as [Hac Ha].
    simpl map. rewrite for_each_cons, concat_empty_cons.
    rewrite (bind_inr _ _ _ _ _ (deref_Some _ _ _ Hm)).
    rewrite (Hsel _ _ Hcls), Hf.
    unfold touched_by. simpl map. simpl concat. fold (touched_by pick cs).
    destruct (pick c) eqn:Hpick.
    + specialize (Hc eq_refl).
      destruct Hna as (na & Hna & Hty).
      destruct (IHfuel c h (Some a) Hfc Hc Hndc) as (h1 & Hrun & Hag1).
      { intros pa [= <-]. by eexists. }
      simpl parent_type in Hrun. rewrite Hna in Hrun. simpl in Hrun. rewrite Hty in Hrun.
      rewrite (bind_inr _ _ _ _ _ Hrun). unfold ret.
      assert (Hfr : forall b, b ∉ addrs c -> h1 !! b = h !! b).
      { intros b Hb. apply Hag1. intros Hin. by apply Hb, strict_addrs_subset. }
      destruct (IH h1 (acc +:+ emit (Some ty) c)) as (h' & Hrun' & Hag').
      * apply Forall_forall. intros d Hd. rewrite Forall_forall in Hseen.
        destruct (Hseen d Hd) as (md & Hmd & Hcd). exists md. split; [|exact Hcd].
        rewrite Hfr; [exact Hmd|]. intros Hin. eapply Hdisj; [exact Hin|].
        apply elem_of_concat_addrs. exists d. split; [exact Hd|apply t_addr_in_addrs].
      * apply Forall_forall. intros d Hd Hpd. rewrite Forall_forall in Hrepr.
        eapply repr_frame; [|by apply Hrepr].
        intros b Hb. apply Hfr. intros Hin. eapply Hdisj; [exact Hin|].
        apply elem_of_concat_addrs. eauto.
      * exact Hnd.
      * exact Ha.
      * exists na. split; [|exact Hty]. by rewrite Hfr.
      * exact Hfuel.
      * exists h'. split; [etrans; [exact Hrun'|]; by rewrite str_app_assoc|].
        eapply agree_outside_trans; [exact Hag1|exact Hag'|..].
        -- intros b Hb. apply elem_of_app. by left.
        -- intros b Hb. apply elem_of_app. by right.
    + unfold ret.
      destruct (IH h acc Hseen Hrepr Hnd Ha Hna Hfuel) as (h' & Hrun' & Hag').
      exists h'. split; [exact Hrun'|exact Hag'].
Qed.

(** The store holds the tree [t] at [t_addr t], with distinct addresses:
    with fuel for the height of [t], [_traverse] returns the rendering of
    [t], and changes the store below the root of [t] only. *)
Lemma traverse_tree (fuel : nat) : forall (t : Tree) (h : Store) (p : option addr),
  t_height t <= fuel -> repr h p t -> NoDup (addrs t) ->
  (forall pa, p = Some pa -> is_Some (h !! pa)) ->
  exists h', _traverse fuel (t_addr t) h = inr (emit (parent_type h p) t, h')
    /\ agree_outside (strict_addrs t) h h'.
Proof.
  induction fuel as [|fuel IHfuel]; intros [a c ty cs] h p Hh Hrepr Hnd Hp;
    [simpl in Hh; lia|].
  simpl in Hh. apply le_S_n, foldr_max_le, Forall_fmap in Hh.
  pose proof Hrepr as [Ha Hcs]%repr_inv.
  simpl addrs in Hnd. apply NoDup_cons in Hnd as [Hac Hnd].
  rewrite traverse_unfold. cbn [t_addr].
  rewrite (bind_inr _ _ _ _ _ (deref_Some _ _ _ Ha)). cbn [fields].
  (* the children that are not fragments *)
  destruct (traverse_loop_tree fuel
              (fun n => negb (isinstance_ParsedInlineFragmentNode n))
              (fun ch => negb (t_is_fragment ch))
              (fun ch => if t_is_fragment ch then "" else emit (Some ty) ch)
              a ty IHfuel) with (cs := cs) (h := h) (acc := "")
    as (h1 & Hrun1 & Hag1).
  { intros n ch Hn. unfold isinstance_ParsedInlineFragmentNode, t_is_fragment.
    by rewrite Hn. }
  { intros ch. by destruct (t_is_fragment ch). }
  { eapply Forall_impl; [exact Hcs|]. intros g Hg. simpl in Hg.
    destruct (repr_child_seen _ _ _ Hg) as (m & Hm & Hc & _). eauto. }
  { eapply Forall_impl; [exact Hcs|]. by intros g Hg _. }
  { exact Hnd. }
  { exact Hac. }
  { eexists. split; [exact Ha|reflexivity]. }
  { exact Hh. }
  rewrite (bind_inr _ _ _ _ _ Hrun1).
  pose proof (traverse_loop_same _ _ _ _ _ _ _ Hrun1) as Hsame1.
  assert (Ha1 : h1 !! a = h !! a).
  { apply Hag1. intros Hin. exact (Hac (touched_by_subset _ _ _ Hin)). }
  (* the node itself *)
  destruct (class_code_string_tree h1 p (TNode a c ty cs)) as (h2 & Hrun2 & Hag2).
  { simpl. by rewrite Ha1. }
  { intros pa Hpa. eapply is_Some_same; [exact Hsame1|by apply Hp]. }
  { simpl. apply Forall_forall. intros g Hg. rewrite Forall_forall in Hcs.
    eapply repr_shallow; [by apply Hcs|exact Hsame1|].
    apply Hag1. by apply t_addr_not_touched. }
  { exact Hnd. }
  simpl t_addr in Hrun2. simpl t_children in Hag2.
  rewrite (bind_inr _ _ _ _ _ Hrun2). cbv zeta.
  rewrite (parent_type_same _ _ _ Hsame1).
  pose proof (class_code_string_same _ _ _ _ Hrun2) as Hsame2.
  assert (Ha2 : h2 !! a = h !! a).
  { rewrite <- Ha1. apply Hag2. intros Hin.
    exact (Hac (class_children_subset _ _ Hin)). }
  rewrite Ha in Ha2.
  rewrite (bind_inr _ _ _ _ _ (deref_Some _ _ _ Ha2)). cbn [fields].
  (* the fragments *)
  assert (Hsame : same_up_to_order h h2) by (etrans; eassumption).
  destruct (traverse_loop_tree fuel
              isinstance_ParsedInlineFragmentNode t_is_fragment
              (fun ch => if t_is_fragment ch then emit (Some ty) ch else "")
              a ty IHfuel) with (cs := cs) (h := h2)
              (acc := ("" +:+
                       String.concat ""
                         (map (fun ch => if t_is_fragment ch then ""
                                         else emit (Some ty) ch) cs))
                      +:+ tree_class_code_string (parent_type h p) (TNode a c ty cs))
    as (h3 & Hrun3 & Hag3).
  { intros n ch Hn. unfold isinstance_ParsedInlineFragmentNode, t_is_fragment.
    by rewrite Hn. }
  { reflexivity. }
  { eapply Forall_impl; [exact Hcs|]. intros g Hg. simpl in Hg.
    destruct (child_seen_same _ _ _ Hsame (repr_child_seen _ _ _ Hg))
      as (m & Hm & Hc & _). eauto. }
  { apply Forall_forall. intros g Hg Hfrag. rewrite Forall_forall in Hcs.
    eapply repr_frame; [|by apply Hcs].
    intros b Hb. rewrite Hag2, Hag1; [reflexivity|..].
    - intros (d & Hd & Hpd & Hbd)%elem_of_touched_by.
      assert (g = d) as <-.
      { eapply (addrs_disjoint cs Hnd g d b); [done..|by apply strict_addrs_subset]. }
      by rewrite Hfrag in Hpd.
    - intros (d & -> & Hd)%list_elem_of_fmap.
      apply list_elem_of_In, filter_In in Hd as [Hd Hcl]. apply list_elem_of_In in Hd.
      assert (g = d) as <-.
      { eapply (addrs_disjoint cs Hnd g d (t_addr d)); [done..|apply t_addr_in_addrs]. }
      unfold t_is_fragment, t_is_class in *. by destruct (t_cls g). }
  { exact Hnd. }
  { exact Hac. }
  { eexists. split; [exact Ha2|reflexivity]. }
  { exact Hh. }
  exists h3. split.
  - etrans; [exact Hrun3|]. simpl emit. by rewrite !str_app_assoc.
  - unfold strict_addrs. simpl t_children.
    eapply agree_outside_trans; [|exact Hag3|reflexivity|apply touched_by_subset].
    eapply agree_outside_trans;
      [exact Hag1|exact Hag2|apply touched_by_subset|apply class_children_subset].
Qed.

(** ** The visitor builds a tree *)

Lemma SelectionNode_ind_forall (P : SelectionNode -> Prop) :
  (forall name alias type sels, Forall P sels -> P (FieldNode name alias type sels)) ->
  (forall type sels, Forall P sels -> P (InlineFragmentNode type sels)) ->
  (forall name, P (FragmentSpreadNode name)) ->
  forall sel, P sel.
Proof.
  intros Hf Hi Hs. fix IH 1. intros [name alias type sels|type sels|name].
  - apply Hf. induction sels as [|s sels IHs]; constructor; [apply IH|exact IHs].
  - apply Hi. induction sels as [|s sels IHs]; constructor; [apply IH|exact IHs].
  - apply Hs.
Qed.

(** The recursion of [_parse_type]. *)
Lemma parse_type_ind (P : GraphQLOutputType -> Prop) :
  (forall n, P (GraphQLScalarType n)) ->
  (forall n, P (GraphQLNamedType n)) ->
  (forall e, P e -> P (GraphQLList e)) ->
  (forall e, P e -> P (GraphQLNonNull (GraphQLList e))) ->
  (forall u, is_GraphQLList u = false -> P u -> P (GraphQLNonNull u)) ->
  forall t, P t.
Proof.
  intros Hs Hn Hl Hnl Hnn t.
  cut (P t /\ match t with GraphQLList e => P e | _ => True end); [by intros [? _]|].
  induction t as [n|n|e [IHe _]|u [IHu IHu']].
  - split; [apply Hs|exact I].
  - split; [apply Hn|exact I].
  - split; [by apply Hl|exact IHe].
  - split; [|exact I]. destruct u; try (by apply Hnn). by apply Hnl.
Qed.

Lemma bind_assoc {S A B C} (m : M S A) (k : A -> M S B) (k' : B -> M S C) s :
  bind (bind m k) k' s = bind m (fun x => bind (k x) k') s.
Proof. unfold bind. by destruct (m s) as [e|[a s']]. Qed.

Section VisitorFacts.
Context `{Mapper}.

Lemma keeps_store_ret {A} (x : A) : keeps_store (ret x).
Proof. intros v y v' [= <- <-]. done. Qed.

Lemma keeps_store_bind {A B} (m : Visit A) (k : A -> Visit B) :
  keeps_store m -> (forall x, keeps_store (k x)) -> keeps_store (bind m k).
Proof.
  intros Hm Hk v y v' (x & v1 & Hx & Hy)%bind_run.
  destruct (Hm _ _ _ Hx) as (Hs & Hp & Hc).
  destruct (Hk _ _ _ _ Hy) as (Hs' & Hp' & Hc'). repeat split; congruence.
Qed.

Lemma to_python_type_keeps t : keeps_store (_to_python_type t).
Proof.
  intros v s v'. unfold _to_python_type.
  destruct (is_GraphQLScalarType t); [by intros [= <- <-]|].
  destruct (last_char _); [|discriminate].
  destruct (dedup_loop _ _ _ _ _); [discriminate|]. by intros [= <- <-].
Qed.

Lemma parse_type_tail_keeps is_optional is_list t rec :
  keeps_store rec -> keeps_store (_parse_type_tail is_optional is_list t rec).
Proof.
  intros Hrec. unfold _parse_type_tail.
  apply keeps_store_bind.
  - destruct (_ || _); [|apply keeps_store_ret].
    apply keeps_store_bind; [exact Hrec|]. intros p. apply keeps_store_ret.
  - intros [p|]; (apply keeps_store_bind;
      [first [apply keeps_store_ret|apply to_python_type_keeps]
      |intros x; apply keeps_store_ret]).
Qed.

Lemma parse_type_keeps t : keeps_store (_parse_type t).
Proof.
  induction t as [n|n|e IH|e IH|u Hu IH] using parse_type_ind; simpl.
  - apply parse_type_tail_keeps. intros v x v'. discriminate.
  - apply parse_type_tail_keeps. intros v x v'. discriminate.
  - by apply parse_type_tail_keeps.
  - by apply parse_type_tail_keeps.
  - destruct u; try discriminate; by apply parse_type_tail_keeps.
Qed.

Lemma builds_ret : builds (ret tt).
Proof.
  intros v v' a na [= <-] Hc Ha. repeat split; [done..|].
  exists []. simpl. rewrite app_nil_r, Nat.sub_diag.
  repeat split; [|constructor]. rewrite Ha. by destruct na.
Qed.

Lemma builds_seq (m1 m2 : Visit unit) :
  builds m1 -> builds m2 -> builds (m1 ;;; m2).
Proof.
  intros H1 H2 v v' a na ([] & v1 & Hm1 & Hm2)%bind_run Hc Ha.
  destruct (H1 _ _ _ _ Hm1 Hc Ha)
    as (Hp1 & Hc1 & Hl1 & Hfr1 & ts1 & Ha1 & Hseq1 & Hr1).
  destruct (H2 _ _ _ _ Hm2 Hc1 Ha1)
    as (Hp2 & Hc2 & Hl2 & Hfr2 & ts2 & Ha2 & Hseq2 & Hr2).
  assert (Hlt : a < length (store v)) by (by eapply lookup_lt_Some).
  split; [congruence|]. split; [exact Hc2|]. split; [lia|].
  split.
  { intros b Hb Hne. rewrite Hfr2 by (done || lia). by apply Hfr1. }
  exists (ts1 ++ ts2). split; [|split].
  - rewrite Ha2. simpl. by rewrite map_app, app_assoc.
  - rewrite map_app, concat_app, Hseq1, Hseq2.
    replace (length (store v') - length (store v))
      with ((length (store v1) - length (store v))
            + (length (store v') - length (store v1))) by lia.
    rewrite seq_app. do 2 f_equal. lia.
  - apply Forall_app. split; [|exact Hr2].
    apply Forall_forall. intros t Ht. rewrite Forall_forall in Hr1.
    eapply repr_frame; [|by apply Hr1].
    intros b Hb.
    assert (Hin : b ∈ concat (map addrs ts1)).
    { apply elem_of_concat_addrs. eauto. }
    rewrite Hseq1 in Hin. apply list_elem_of_In, in_seq in Hin.
    apply Hfr2; lia.
Qed.

Lemma builds_for_each {A} (f : A -> Visit unit) (l : list A) :
  Forall (fun x => builds (f x)) l ->
  builds (for_each l tt (fun _ x => f x)).
Proof.
  induction 1 as [|x l Hx _ IH]; [apply builds_ret|].
  intros v v' a na Hrun. revert Hrun.
  rewrite for_each_cons.
  intros Hrun. eapply (builds_seq (f x) (for_each l tt (fun _ x => f x))); [done..|].
  unfold bind. destruct (f x v) as [e|[[] v1]]; exact Hrun.
Qed.

Lemma builds_after {A} (m : Visit A) (k : A -> Visit unit) :
  keeps_store m -> (forall x, builds (k x)) -> builds (bind m k).
Proof.
  intros Hm Hk v v' a na (x & v1 & Hx & Hrun)%bind_run Hc Ha.
  destruct (Hm _ _ _ Hx) as (Hs & Hp & Hcur).
  rewrite <- Hs, <- Hp. eapply Hk; [exact Hrun|congruence..].
Qed.

(** Entering a node, visiting its selection set, and leaving it. *)
Lemma builds_node (c : NodeClass) (ty : ParsedFieldType) (body : Visit unit) :
  builds body -> builds (push_node c ty ;;; body ;;; pop_node).
Proof.
  intros Hbody v v' a na Hrun Hc Ha.
  apply bind_run in Hrun as ([] & v1 & Hpush & Hrun).
  apply bind_run in Hrun as ([] & v2 & Hb & Hpop).
  unfold push_node in Hpush. rewrite Hc, Ha in Hpush. simplify_eq.
  set (h := store v) in *. set (n0 := length h) in *.
  set (new := {| cls := c; parent := Some a; fields := []; parsed_type := ty |}) in *.
  set (h1 := <[a := set_fields na (fields na ++ [n0])]> h ++ [new]) in *.
  assert (Hlt : a < n0) by (by eapply lookup_lt_Some).
  assert (Hlen1 : length h1 = S n0).
  { unfold h1. rewrite length_app, length_insert. simpl. unfold n0. lia. }
  assert (Hnew : h1 !! n0 = Some new).
  { unfold h1. rewrite lookup_app_r; rewrite length_insert; [|done].
    by rewrite Nat.sub_diag. }
  destruct (Hbody _ _ n0 new Hb eq_refl Hnew)
    as (Hp2 & Hc2 & Hl2 & Hfr2 & ts & Hn2 & Hseq2 & Hr2).
  simpl in Hp2, Hl2, Hfr2, Hn2, Hseq2. fold h1 in Hl2, Hfr2, Hseq2.
  unfold pop_node in Hpop. rewrite Hc2, Hn2 in Hpop. simpl in Hpop. simplify_eq.
  simpl. fold h. fold n0.
  split; [exact Hp2|]. split; [reflexivity|]. split; [lia|].
  assert (Hold : forall b, b < n0 -> store v2 !! b = (<[a := set_fields na (fields na ++ [n0])]> h) !! b).
  { intros b Hb'. rewrite Hfr2 by lia. unfold h1. by rewrite lookup_app_l by (by rewrite length_insert). }
  split.
  { intros b Hb' Hne. rewrite Hold by done. by rewrite list_lookup_insert_ne. }
  exists [TNode n0 c ty ts]. split; [|split].
  - rewrite Hold by done. by rewrite list_lookup_insert_eq.
  - simpl. rewrite app_nil_r, Hseq2, Hlen1.
    replace (length (store v2) - n0) with (S (length (store v2) - S n0)) by lia.
    reflexivity.
  - constructor; [|constructor]. constructor; [|exact Hr2].
    rewrite Hn2. reflexivity.
Qed.

Lemma builds_selection (sel : SelectionNode) : builds (visit_selection sel).
Proof.
  induction sel as [name alias type sels IH|type sels IH|name]
    using SelectionNode_ind_forall.
  - intros v v' a na Hrun. revert Hrun. simpl. unfold enter_field.
    destruct type as [t|]; [|discriminate].
    rewrite bind_assoc. revert v v' a na.
    apply builds_after; [apply parse_type_keeps|]. intros ft.
    apply (builds_node _ _ (for_each sels tt (fun _ s => visit_selection s))).
    by apply builds_for_each.
  - intros v v' a na Hrun. revert Hrun. simpl. unfold enter_inline_fragment.
    destruct type as [t|]; [|discriminate].
    rewrite bind_assoc. revert v v' a na.
    apply builds_after; [apply parse_type_keeps|]. intros ft.
    apply (builds_node _ _ (for_each sels tt (fun _ s => visit_selection s))).
    by apply builds_for_each.
  - apply builds_ret.
Qed.

Lemma builds_selection_set (sels : list SelectionNode) :
  builds (visit_selection_set sels).
Proof.
  apply builds_for_each, Forall_forall. intros s _. apply builds_selection.
Qed.

Lemma builds_definition (d : DefinitionNode) : builds (visit_definition d).
Proof.
  destruct d as [[value|] sels|name sels]; simpl.
  - apply builds_node, builds_selection_set.
  - intros v v' a na Hrun. discriminate.
  - apply builds_selection_set.
Qed.

Lemma builds_visit (document_ast : DocumentNode) : builds (visit document_ast).
Proof.
  apply builds_for_each, Forall_forall. intros d _. apply builds_definition.
Qed.

End VisitorFacts.

(** ** The visit does not get stuck *)

Lemma dedup_loop_returns (h : Store) (cache : gset string) :
  chain_ok h ->
  forall fuel cur class_name,
    (forall c, cur = Some c -> c < length h /\ c <= fuel) ->
    exists s, dedup_loop fuel h cache cur class_name = inr s.
Proof.
  intros Hchain fuel. induction fuel as [|fuel IH]; intros cur class_name Hcur.
  - destruct cur as [c|]; simpl; [|by eexists].
    destruct (Hcur c eq_refl) as [Hlt Hle].
    destruct (lookup_lt_is_Some_2 h c Hlt) as [n Hn]. rewrite Hn.
    destruct (parent n) as [p|] eqn:Hp; [|by eexists].
    specialize (Hchain _ _ _ Hn Hp). lia.
  - destruct cur as [c|]; simpl; [|by eexists].
    destruct (Hcur c eq_refl) as [Hlt Hle].
    destruct (lookup_lt_is_Some_2 h c Hlt) as [n Hn]. rewrite Hn.
    destruct (parent n) as [p|] eqn:Hp; [|by eexists].
    specialize (Hchain _ _ _ Hn Hp).
    case_decide; [|by eexists].
    apply IH. intros ? [= <-]. lia.
Qed.

Section SafeFacts.
Context `{Mapper}.

Lemma safe_ret {A} (x : A) : safe (ret x).
Proof. by intros v Hv. Qed.

Lemma safe_raise {A} (e : Exception) : e <> Stuck -> safe (@raise _ A e).
Proof. by intros He v Hv. Qed.

Lemma safe_bind {A B} (m : Visit A) (k : A -> Visit B) :
  safe m -> (forall x, safe (k x)) -> safe (bind m k).
Proof.
  intros Hm Hk v Hv. specialize (Hm v Hv). unfold bind.
  destruct (m v) as [e|[x v1]]; [exact Hm|]. by apply Hk.
Qed.

Lemma safe_for_each {A} (f : A -> Visit unit) (l : list A) :
  (forall x, x ∈ l -> safe (f x)) -> safe (for_each l tt (fun _ x => f x)).
Proof.
  induction l as [|x l IH]; intros Hf; [apply safe_ret|].
  intros v Hv. rewrite for_each_cons.
  pose proof (Hf x (list_elem_of_here _ _) v Hv) as Hx.
  destruct (f x v) as [e|[[] v1]]; [exact Hx|].
  apply IH; [|exact Hx]. intros y Hy. apply Hf. by right.
Qed.

Lemma safe_to_python_type t : safe (_to_python_type t).
Proof.
  intros v [Hchain Hcur]. unfold _to_python_type.
  destruct (is_GraphQLScalarType t); [by split|].
  destruct (last_char _); [|done].
  destruct (dedup_loop_returns (store v) (deduplication_cache v) Hchain
              (length (store v)) (self_parent v)
              (drop_last_two (replace "_" "" (gql_str t)) +:+ "V" +:+ s))
    as [name ->].
  { intros c Hc. specialize (Hcur c Hc). lia. }
  by split.
Qed.

Lemma safe_parse_type_tail is_optional is_list t rec :
  (is_GraphQLNonNull t || is_GraphQLList t = true -> safe rec) ->
  safe (_parse_type_tail is_optional is_list t rec).
Proof.
  intros Hrec. unfold _parse_type_tail.
  apply safe_bind.
  - destruct (_ || _); [|apply safe_ret].
    apply safe_bind; [by apply Hrec|]. intros p. apply safe_ret.
  - intros [p|]; (apply safe_bind;
      [first [apply safe_ret|apply safe_to_python_type]
      |intros x; apply safe_ret]).
Qed.

Lemma safe_parse_type t : safe (_parse_type t).
Proof.
  induction t as [n|n|e IH|e IH|u Hu IH] using parse_type_ind; simpl.
  - by apply safe_parse_type_tail.
  - by apply safe_parse_type_tail.
  - by apply safe_parse_type_tail.
  - by apply safe_parse_type_tail.
  - destruct u; try discriminate; by apply safe_parse_type_tail.
Qed.

Lemma safe_push_node c ty : safe (push_node c ty).
Proof.
  intros v [Hchain Hcur]. unfold push_node.
  destruct (self_parent v) as [a|] eqn:Ha; [|done].
  specialize (Hcur a eq_refl).
  destruct (lookup_lt_is_Some_2 _ _ Hcur) as [na Hna]. rewrite Hna.
  split; simpl.
  - intros b n p Hb Hp.
    destruct (decide (b < length (store v))) as [Hlt|Hge].
    + rewrite lookup_app_l in Hb by (by rewrite length_insert).
      rewrite (lookup_set_fields _ _ _ _ _ Hna) in Hb.
      destruct (store v !! b) as [m|] eqn:Hm; [|done]. simpl in Hb.
      apply (Hchain b m p Hm). case_decide; simplify_eq; exact Hp.
    + rewrite lookup_app_r in Hb by (rewrite length_insert; lia).
      rewrite length_insert in Hb.
      apply list_lookup_singleton_Some in Hb as [Hb <-]. simpl in Hp.
      simplify_eq. lia.
  - intros ? [= <-]. rewrite length_app, length_insert. simpl. lia.
Qed.

Lemma safe_pop_node : safe pop_node.
Proof.
  intros v [Hchain Hcur]. unfold pop_node.
  destruct (self_parent v) as [a|] eqn:Ha; [|split; [done|by rewrite Ha]].
  specialize (Hcur a eq_refl).
  destruct (lookup_lt_is_Some_2 _ _ Hcur) as [na Hna]. rewrite Hna.
  split; [exact Hchain|]. simpl. intros p Hp.
  specialize (Hchain _ _ _ Hna Hp). lia.
Qed.

Lemma safe_selection (sel : SelectionNode) : safe (visit_selection sel).
Proof.
  induction sel as [name alias type sels IH|type sels IH|name]
    using SelectionNode_ind_forall; simpl.
  - apply safe_bind; [|intros []; apply safe_bind;
                       [|intros []; apply safe_pop_node]].
    + unfold enter_field. destruct type as [t|]; [|by apply safe_raise].
      apply safe_bind; [apply safe_parse_type|]. intros ft. apply safe_push_node.
    + apply safe_for_each. intros s Hs. by eapply Forall_forall in IH.
  - apply safe_bind; [|intros []; apply safe_bind;
                       [|intros []; apply safe_pop_node]].
    + unfold enter_inline_fragment. destruct type as [t|]; [|by apply safe_raise].
      apply safe_bind; [apply safe_parse_type|]. intros ft. apply safe_push_node.
    + apply safe_for_each. intros s Hs. by eapply Forall_forall in IH.
  - apply safe_ret.
Qed.

Lemma safe_visit (document_ast : DocumentNode) : safe (visit document_ast).
Proof.
  apply safe_for_each. intros d _.
  assert (Hsels : forall sels, safe (visit_selection_set sels)).
  { intros sels. apply safe_for_each. intros s _. apply safe_selection. }
  destruct d as [[value|] sels|name sels]; simpl.
  - apply safe_bind; [apply safe_push_node|]. intros [].
    apply safe_bind; [apply Hsels|]. intros []. apply safe_pop_node.
  - apply safe_bind; [by apply safe_raise|]. intros [].
    apply safe_bind; [apply Hsels|]. intros []. apply safe_pop_node.
  - apply Hsels.
Qed.

Lemma cursor_ok_init : cursor_ok visitor_init.
Proof.
  split.
  - intros c n p Hc Hp. destruct c as [|c]; simpl in Hc; [|done]. by simplify_eq.
  - intros a [= <-]. simpl. lia.
Qed.

End SafeFacts.

(** ** Type resolution and class names *)

Lemma dedup_loop_suffix (h : Store) (cache : gset string) :
  forall fuel cur class_name s,
    dedup_loop fuel h cache cur class_name = inr s ->
    exists prefix, s = prefix +:+ class_name /\ (class_name ∉ cache -> prefix = "").
Proof.
  intros fuel. induction fuel as [|fuel IH]; intros cur class_name s.
  - destruct cur as [c|]; simpl; [|intros [= <-]; by exists ""].
    destruct (h !! c) as [n|]; [|discriminate].
    destruct (parent n) as [p|]; [|intros [= <-]; by exists ""].
    case_decide; [discriminate|]. intros [= <-]. by exists "".
  - destruct cur as [c|]; simpl; [|intros [= <-]; by exists ""].
    destruct (h !! c) as [n|]; [|discriminate].
    destruct (parent n) as [p|]; [|intros [= <-]; by exists ""].
    case_decide as Hin; [|intros [= <-]; by exists ""].
    intros (prefix & -> & _)%IH.
    exists (prefix +:+ unwrapped_python_type (parsed_type n) +:+ "_").
    split; [by rewrite !str_app_assoc|]. intros Hnot. by destruct Hnot.
Qed.

Lemma innermost_below (t : GraphQLOutputType) :
  innermost (below_wrappers t) = innermost t.
Proof. by destruct t as [| | |[]]. Qed.

Lemma innermost_not_wrapped (t : GraphQLOutputType) :
  is_wrapped t = false -> innermost t = t.
Proof. by destruct t. Qed.

Section ParserClaims.
Context `{Mapper}.

Lemma parse_type_unfold (t : GraphQLOutputType) (v : FieldToTypeMatcherVisitor) :
  _parse_type t v
  = _parse_type_tail (spec_is_optional t) (spec_is_list t) (below_wrappers t)
      (_parse_type (below_wrappers t)) v.
Proof. by destruct t as [| | |[]]. Qed.

Lemma to_python_type_returns (t : GraphQLOutputType) (v : FieldToTypeMatcherVisitor) :
  cursor_ok v -> resolvable t = true ->
  exists s v', _to_python_type t v = inr (s, v') /\ cursor_ok v'.
Proof.
  intros Hv Hres. pose proof (safe_to_python_type t v Hv) as Hsafe.
  unfold _to_python_type in *. unfold resolvable, candidate_class_name in Hres.
  destruct (is_GraphQLScalarType t); [by eexists _, _|]. simpl in Hres.
  destruct (last_char _) as [last|]; [|by apply bool_decide_eq_true, is_Some_None in Hres].
  destruct Hv as [Hchain Hcur].
  destruct (dedup_loop_returns (store v) (deduplication_cache v) Hchain
              (length (store v)) (self_parent v)
              (drop_last_two (replace "_" "" (gql_str t)) +:+ "V" +:+ last))
    as [name Hname].
  { intros c Hc. specialize (Hcur c Hc). lia. }
  rewrite Hname in *. by eexists _, _.
Qed.

Lemma parse_type_tail_rec (o l : bool) (t : GraphQLOutputType)
    (rec : Visit ParsedFieldType) (v v' : FieldToTypeMatcherVisitor)
    (r2 : ParsedFieldType) :
  is_wrapped t = true -> rec v = inr (r2, v') ->
  _parse_type_tail o l t rec v
  = inr ({| unwrapped_python_type := unwrapped_python_type r2;
            wrapped_python_type := py_wrap o l (wrapped_python_type r2);
            is_primitive := is_primitive r2 |}, v').
Proof.
  intros Hw Hrec. unfold _parse_type_tail. unfold is_wrapped in Hw. rewrite Hw.
  unfold bind, ret. rewrite Hrec. by destruct o, l.
Qed.

Lemma parse_type_tail_bottom (o l : bool) (t : GraphQLOutputType)
    (rec : Visit ParsedFieldType) (v v' : FieldToTypeMatcherVisitor) (s : string) :
  is_wrapped t = false -> _to_python_type t v = inr (s, v') ->
  _parse_type_tail o l t rec v
  = inr ({| unwrapped_python_type := s;
            wrapped_python_type := py_wrap o l s;
            is_primitive := is_GraphQLScalarType t |}, v').
Proof.
  intros Hw Hrec. unfold _parse_type_tail. unfold is_wrapped in Hw. rewrite Hw.
  unfold bind, ret. rewrite Hrec. by destruct o, l.
Qed.

Lemma parse_type_returns (t : GraphQLOutputType) :
  forall v, cursor_ok v -> resolvable (innermost t) = true ->
    exists r v', _parse_type t v = inr (r, v') /\ cursor_ok v'.
Proof.
  induction t as [n|n|e IH|e IH|u Hu IH] using parse_type_ind;
    intros v Hv Hres; rewrite parse_type_unfold.
  - destruct (to_python_type_returns _ _ Hv Hres) as (s & v' & Hs & Hv').
    eexists _, v'. split; [|exact Hv']. by apply parse_type_tail_bottom.
  - destruct (to_python_type_returns _ _ Hv Hres) as (s & v' & Hs & Hv').
    eexists _, v'. split; [|exact Hv']. by apply parse_type_tail_bottom.
  - simpl below_wrappers. destruct (is_wrapped e) eqn:Hw.
    + destruct (IH v Hv Hres) as (r2 & v' & Hr2 & Hv').
      eexists _, v'. split; [|exact Hv']. by eapply parse_type_tail_rec.
    + simpl in Hres. rewrite (innermost_not_wrapped _ Hw) in Hres.
      destruct (to_python_type_returns _ _ Hv Hres) as (s & v' & Hs & Hv').
      eexists _, v'. split; [|exact Hv']. by apply parse_type_tail_bottom.
  - simpl below_wrappers. destruct (is_wrapped e) eqn:Hw.
    + destruct (IH v Hv Hres) as (r2 & v' & Hr2 & Hv').
      eexists _, v'. split; [|exact Hv']. by eapply parse_type_tail_rec.
    + simpl in Hres. rewrite (innermost_not_wrapped _ Hw) in Hres.
      destruct (to_python_type_returns _ _ Hv Hres) as (s & v' & Hs & Hv').
      eexists _, v'. split; [|exact Hv']. by apply parse_type_tail_bottom.
  - assert (Hb : below_wrappers (GraphQLNonNull u) = u) by (by destruct u).
    rewrite Hb. destruct (is_wrapped u) eqn:Hw.
    + destruct (IH v Hv Hres) as (r2 & v' & Hr2 & Hv').
      eexists _, v'. split; [|exact Hv']. by eapply parse_type_tail_rec.
    + simpl in Hres. rewrite (innermost_not_wrapped _ Hw) in Hres.
      destruct (to_python_type_returns _ _ Hv Hres) as (s & v' & Hs & Hv').
      eexists _, v'. split; [|exact Hv']. by apply parse_type_tail_bottom.
Qed.

(** C6.  For a type whose innermost type has a name, [_parse_type] returns,
    and the wrapped name it returns is [Optional[list[...]]] around the
    inner name when the optional and the list flag are both set,
    [Optional[...]] when only the optional flag is, [list[...]] when only
    the list flag is, and the inner name itself otherwise.  The inner name
    is the wrapped name [_parse_type] returns for the type below the
    wrappers stripped when that type is wrapped again, and the name
    [_to_python_type] returns for it otherwise. *)
Theorem parse_type_rewrap (t : GraphQLOutputType) (v : FieldToTypeMatcherVisitor) :
  cursor_ok v ->
  resolvable (innermost t) = true ->
  exists r v' inner,
    _parse_type t v = inr (r, v')
    /\ (if is_wrapped (below_wrappers t)
        then exists r2, _parse_type (below_wrappers t) v = inr (r2, v')
                        /\ inner = wrapped_python_type r2
                        /\ unwrapped_python_type r = unwrapped_python_type r2
                        /\ is_primitive r = is_primitive r2
        else _to_python_type (below_wrappers t) v = inr (inner, v')
             /\ unwrapped_python_type r = inner
             /\ is_primitive r = is_GraphQLScalarType (below_wrappers t))
    /\ (spec_is_optional t = true -> spec_is_list t = true ->
        wrapped_python_type r = "Optional[list[" +:+ inner +:+ "]]")
    /\ (spec_is_optional t = true -> spec_is_list t = false ->
        wrapped_python_type r = "Optional[" +:+ inner +:+ "]")
    /\ (spec_is_optional t = false -> spec_is_list t = true ->
        wrapped_python_type r = "list[" +:+ inner +:+ "]")
    /\ (spec_is_optional t = false -> spec_is_list t = false ->
        wrapped_python_type r = inner).
Proof.
  intros Hv Hres. rewrite parse_type_unfold.
  destruct (is_wrapped (below_wrappers t)) eqn:Hw.
  - destruct (parse_type_returns (below_wrappers t) v Hv) as (r2 & v' & Hr2 & _).
    { by rewrite innermost_below. }
    eexists _, v', (wrapped_python_type r2).
    split; [by eapply parse_type_tail_rec|]. split; [by exists r2|].
    simpl. repeat split; intros -> ->; reflexivity.
  - destruct (to_python_type_returns (below_wrappers t) v Hv) as (s & v' & Hs & _).
    { by rewrite <- (innermost_not_wrapped _ Hw), innermost_below. }
    eexists _, v', s.
    split; [by eapply parse_type_tail_bottom|]. split; [done|].
    simpl. repeat split; intros -> ->; reflexivity.
Qed.

(** C7, as the code has it.  For a type that is not a scalar, the class
    name before deduplication is the string form of the type without its
    underscores, less its last two characters, followed by [V] and its last
    character; [_to_python_type] returns it behind the prefixes of the
    deduplication, and as it is when it is not in the cache. *)
Theorem class_name_candidate (t : GraphQLOutputType) (v : FieldToTypeMatcherVisitor)
    (last : string) :
  is_GraphQLScalarType t = false ->
  cursor_ok v ->
  last_char (replace "_" "" (gql_str t)) = Some last ->
  let candidate := drop_last_two (replace "_" "" (gql_str t)) +:+ "V" +:+ last in
  exists prefix v',
    _to_python_type t v = inr (prefix +:+ candidate, v')
    /\ (candidate ∉ deduplication_cache v -> prefix = "")
    /\ deduplication_cache v' = {[prefix +:+ candidate]} ∪ deduplication_cache v.
Proof.
  intros Hns [Hchain Hcur] Hlast candidate.
  unfold _to_python_type. rewrite Hns, Hlast. fold candidate.
  destruct (dedup_loop_returns (store v) (deduplication_cache v) Hchain
              (length (store v)) (self_parent v) candidate) as [name Hname].
  { intros c Hc. specialize (Hcur c Hc). lia. }
  rewrite Hname. apply dedup_loop_suffix in Hname as (prefix & -> & Hpre).
  by eexists prefix, _.
Qed.

Context `{GraphQLCore}.

(** C5.  With the document of the query: when the only operation has no
    name, [parse] raises [AnonymousQueryError], whatever the validation
    would say; otherwise, when the validation reports errors, [parse]
    raises [InvalidQueryError] with all of them; and when [parse] raises,
    it returns no tree, and [generate] raises the same exception and returns
    no text. *)
Theorem parse_errors (query : string) (schema : GraphQLSchema)
    (document_ast : DocumentNode) :
  graphql_parse query = Some document_ast ->
  (forall sels,
     get_operation_ast document_ast = Some (OperationDefinitionNode None sels) ->
     parse query schema = inl AnonymousQueryError)
  /\ ((forall sels,
         get_operation_ast document_ast <> Some (OperationDefinitionNode None sels)) ->
      validate schema document_ast <> [] ->
      parse query schema = inl (InvalidQueryError (validate schema document_ast)))
  /\ (forall e, parse query schema = inl e -> forall r, parse query schema <> inr r)
  /\ (forall raw_schema e,
        parse query (build_client_schema raw_schema) = inl e ->
        generate query raw_schema = inl e).
Proof.
  intros Hdoc. split; [|split; [|split]].
  - intros sels Hop. unfold parse. by rewrite Hdoc, Hop.
  - intros Hnamed Herr. unfold parse. rewrite Hdoc.
    destruct (get_operation_ast document_ast) as [[[name|] sels|name sels]|] eqn:Hop;
      try (by destruct (validate schema document_ast)).
    by destruct (Hnamed sels).
  - intros e -> r. discriminate.
  - intros raw_schema e He. unfold generate. by rewrite He.
Qed.

End ParserClaims.

(** ** The visit returns *)

Section ReturnsFacts.
Context `{Mapper}.


Lemma returns_seq (m1 m2 : Visit unit) :
  returns m1 -> returns m2 -> returns (m1 ;;; m2).
Proof.
  intros H1 H2 v a Hv Ha.
  destruct (H1 v a Hv Ha) as (v1 & Hm1 & Hv1 & Ha1).
  destruct (H2 v1 a Hv1 Ha1) as (v2 & Hm2 & Hv2 & Ha2).
  exists v2. split; [|done]. by rewrite (bind_inr _ _ _ _ _ Hm1).
Qed.







Context `{GraphQLCore}.


End ReturnsFacts.

(** ** The tree of a parsed query *)

Lemma addrs_length (t : Tree) : length (addrs t) = t_size t.
Proof.
  induction t as [a c ty cs IH] using Tree_ind_forall. simpl. f_equal.
  induction IH as [|x l Hx _ IHl]; simpl; [reflexivity|].
  by rewrite length_app, Hx, IHl.
Qed.

Lemma t_height_le_size (t : Tree) : t_height t <= t_size t.
Proof.
  induction t as [a c ty cs IH] using Tree_ind_forall. simpl. apply le_n_S.
  induction IH as [|x l Hx _ IHl]; simpl; lia.
Qed.

Lemma NoDup_child_addrs (cs : list Tree) :
  NoDup (concat (map addrs cs)) -> NoDup (map t_addr cs).
Proof.
  induction cs as [|c cs IH]; simpl; intros Hnd; [constructor|].
  apply NoDup_app in Hnd as (_ & Hdisj & Hnd).
  apply NoDup_cons. split; [|by apply IH].
  intros Hin. eapply Hdisj; [apply t_addr_in_addrs|].
  by apply child_addrs_subset.
Qed.

(** Every address of a tree is the root of a tree the store holds. *)
Lemma subtree_at (h : Store) (t : Tree) : forall p,
  repr h p t -> NoDup (addrs t) ->
  forall q, q ∈ addrs t ->
    exists p' s, repr h p' s /\ t_addr s = q /\ NoDup (addrs s).
Proof.
  induction t as [a c ty cs IH] using Tree_ind_forall.
  intros p Hrepr Hnd q Hq. simpl in Hq. apply elem_of_cons in Hq as [->|Hq].
  - by exists p, (TNode a c ty cs).
  - apply repr_inv in Hrepr as [_ Hcs]. simpl in Hnd.
    apply NoDup_cons in Hnd as [_ Hnd].
    apply elem_of_concat_addrs in Hq as (ch & Hch & Hq).
    rewrite Forall_forall in IH, Hcs.
    eapply IH; [exact Hch|by apply Hcs|by eapply NoDup_child|exact Hq].
Qed.

(** Every address below the root is in the [fields] of the object its
    parent pointer leads to. *)
Lemma repr_parent_holds (h : Store) (t : Tree) : forall p,
  repr h p t ->
  forall b, b ∈ strict_addrs t ->
    exists q qn m, h !! q = Some qn /\ b ∈ fields qn /\
                   h !! b = Some m /\ parent m = Some q.
Proof.
  induction t as [a c ty cs IH] using Tree_ind_forall.
  intros p [Ha Hcs]%repr_inv b Hb. unfold strict_addrs in Hb. simpl in Hb.
  apply elem_of_concat_addrs in Hb as (ch & Hch & Hb).
  rewrite Forall_forall in IH, Hcs. specialize (Hcs ch Hch).
  rewrite addrs_unfold in Hb. apply elem_of_cons in Hb as [->|Hb].
  - destruct ch as [b cc cty ccs]. apply repr_inv in Hcs as [Hb _].
    eexists a, _, _. split; [exact Ha|]. split; [|split; [exact Hb|reflexivity]].
    simpl. apply list_elem_of_fmap. by exists (TNode b cc cty ccs).
  - by eapply IH.
Qed.

Lemma repr_children_point_back (h : Store) (p : option addr) (s : Tree) :
  repr h p s ->
  forall b, b ∈ map t_addr (t_children s) ->
    exists m, h !! b = Some m /\ parent m = Some (t_addr s).
Proof.
  destruct s as [a c ty cs]. intros [_ Hcs]%repr_inv b (ch & -> & Hch)%list_elem_of_fmap.
  rewrite Forall_forall in Hcs. specialize (Hcs ch Hch).
  destruct ch as [b cc cty ccs]. apply repr_inv in Hcs as [Hb _]. by eexists.
Qed.

Lemma repr_root_lookup (h : Store) (p : option addr) (s : Tree) :
  repr h p s ->
  h !! t_addr s = Some {| cls := t_cls s; parent := p;
                          fields := map t_addr (t_children s);
                          parsed_type := t_type s |}.
Proof. destruct s. by intros [? _]%repr_inv. Qed.

(** A store that is a tree covering all its addresses is well formed. *)
Lemma tree_well_formed (h : Store) (ts : list Tree) :
  repr h None (TNode 0 ParsedNodeC root_type ts) ->
  addrs (TNode 0 ParsedNodeC root_type ts) = seq 0 (length h) ->
  well_formed_store h 0.
Proof.
  set (t := TNode 0 ParsedNodeC root_type ts). intros Hrepr Hcover.
  assert (Hnd : NoDup (addrs t)) by (rewrite Hcover; apply NoDup_seq).
  assert (Hin : forall b, is_Some (h !! b) -> b ∈ addrs t).
  { intros b Hb%lookup_lt_is_Some. rewrite Hcover.
    apply list_elem_of_In, in_seq. lia. }
  split; [|split; [|split]].
  - eexists. split; [exact (repr_root_lookup _ _ _ Hrepr)|]. done.
  - intros c m Hc Hne.
    destruct (repr_parent_holds h t None Hrepr c) as (q & qn & m' & Hq & Hcq & Hm' & Hp).
    { assert (Hct : c ∈ addrs t) by (apply Hin; by eexists).
      rewrite addrs_unfold in Hct. by apply elem_of_cons in Hct as [->|Hct]. }
    simplify_eq. by exists q, qn.
  - intros c m q qn Hc Hq Hcq.
    destruct (subtree_at h t None Hrepr Hnd q) as (p' & s & Hs & <- & _).
    { apply Hin. by eexists. }
    rewrite (repr_root_lookup _ _ _ Hs) in Hq. simplify_eq. simpl in Hcq.
    destruct (repr_children_point_back _ _ _ Hs c Hcq) as (m' & Hm' & Hp).
    by simplify_eq.
  - intros q qn Hq.
    destruct (subtree_at h t None Hrepr Hnd q) as (p' & s & Hs & <- & Hnds).
    { apply Hin. by eexists. }
    rewrite (repr_root_lookup _ _ _ Hs) in Hq. simplify_eq. simpl. split.
    + apply NoDup_child_addrs. rewrite addrs_unfold in Hnds.
      by apply NoDup_cons in Hnds as [_ ?].
    + apply Forall_forall. intros b Hb.
      destruct (repr_children_point_back _ _ _ Hs b Hb) as (m' & Hm' & _).
      by eexists.
Qed.

Section ParseFacts.
Context `{Mapper} `{GraphQLCore}.

Lemma parse_visit (query : string) (schema : GraphQLSchema) (h : Store) (root : addr) :
  parse query schema = inr (h, root) ->
  exists document_ast v,
    visit document_ast visitor_init = inr (tt, v) /\ h = store v /\ root = parsed v.
Proof.
  unfold parse. destruct (graphql_parse query) as [doc|]; [|discriminate].
  intros Hrun.
  assert (Hvisit : match visit (TypeInfo schema doc) visitor_init with
                   | inl e => inl e
                   | inr (_, visitor) => inr (store visitor, parsed visitor)
                   end = inr (h, root)).
  { destruct (get_operation_ast doc) as [[[name|] sels|name sels]|];
      try discriminate; by destruct (validate schema doc). }
  destruct (visit (TypeInfo schema doc) visitor_init) as [e|[[] v]] eqn:Hv;
    [discriminate|].
  exists (TypeInfo schema doc), v. by simplify_eq.
Qed.

(** The store [parse] returns is a tree whose root is the object made by
    [__init__], and whose addresses are all the addresses of the store. *)
Lemma parse_tree (query : string) (schema : GraphQLSchema) (h : Store) (root : addr) :
  parse query schema = inr (h, root) ->
  exists ts, root = 0 /\
    repr h None (TNode 0 ParsedNodeC root_type ts) /\
    addrs (TNode 0 ParsedNodeC root_type ts) = seq 0 (length h).
Proof.
  intros (doc & v & Hvisit & -> & ->)%parse_visit.
  destruct (builds_visit doc _ _ 0 _ Hvisit eq_refl eq_refl)
    as (Hp & _ & Hlen & _ & ts & Hroot & Hseq & Hts).
  simpl in Hp, Hlen, Hroot, Hseq. exists ts. split; [exact Hp|]. split.
  - constructor; [exact Hroot|exact Hts].
  - simpl. rewrite Hseq.
    replace (length (store v)) with (S (length (store v) - 1)) at 2 by lia.
    reflexivity.
Qed.

(** [parse] raises Python exceptions only. *)
Lemma parse_not_stuck (query : string) (schema : GraphQLSchema) :
  parse query schema <> inl Stuck.
Proof.
  unfold parse. destruct (graphql_parse query) as [doc|]; [|done].
  assert (Hvisit : match visit (TypeInfo schema doc) visitor_init with
                   | inl e => inl e
                   | inr (_, visitor) => inr (store visitor, parsed visitor)
                   end <> (inl Stuck : Result (Store * addr))).
  { pose proof (safe_visit (TypeInfo schema doc) _ cursor_ok_init) as Hs.
    destruct (visit (TypeInfo schema doc) visitor_init) as [e|[[] v]]; [|done].
    congruence. }
  destruct (get_operation_ast doc) as [[[name|] sels|name sels]|];
    try done; by destruct (validate schema doc).
Qed.

(** The rendering of a parsed query: [_traverse] with the fuel [generate]
    gives it returns the rendering of the tree. *)
Lemma parse_traverse (query : string) (schema : GraphQLSchema) (h : Store) (root : addr) :
  parse query schema = inr (h, root) ->
  exists ts h',
    repr h None (TNode 0 ParsedNodeC root_type ts) /\
    addrs (TNode 0 ParsedNodeC root_type ts) = seq 0 (length h) /\
    _traverse (length h) root h
    = inr (emit None (TNode 0 ParsedNodeC root_type ts), h').
Proof.
  intros (ts & -> & Hrepr & Hcover)%parse_tree.
  destruct (traverse_tree (length h) (TNode 0 ParsedNodeC root_type ts) h None)
    as (h' & Hrun & _); [| exact Hrepr | | |].
  - etrans; [apply t_height_le_size|]. by rewrite <- addrs_length, Hcover, length_seq.
  - rewrite Hcover. apply NoDup_seq.
  - done.
  - by exists ts, h'.
Qed.

End ParseFacts.

(** ** Declarations *)










Lemma concat_map_if (pick : Tree -> bool) (f : Tree -> string) (cs : list Tree) :
  String.concat "" (map (fun ch => if pick ch then f ch else "") cs)
  = String.concat "" (map f (List.filter pick cs)).
Proof.
  induction cs as [|c cs IH]; [reflexivity|].
  simpl map. simpl List.filter. rewrite concat_empty_cons.
  destruct (pick c); [|exact IH].
  simpl map. by rewrite concat_empty_cons, IH.
Qed.

(** ** The emitter on trees, and on parsed queries *)

Lemma concat_empty_split (f : Tree -> string) (l1 l2 : list Tree) (x : Tree) :
  String.concat "" (map f (l1 ++ x :: l2))
  = String.concat "" (map f l1) +:+ f x +:+ String.concat "" (map f l2).
Proof. by rewrite map_app, concat_empty_app; simpl map; rewrite concat_empty_cons. Qed.

Lemma emit_unfold (pty : option ParsedFieldType) (t : Tree) :
  emit pty t
  = String.concat ""
      (map (emit (Some (t_type t)))
           (List.filter (fun ch => negb (t_is_fragment ch)) (t_children t)))
    +:+ tree_class_code_string pty t
    +:+ String.concat ""
          (map (emit (Some (t_type t))) (List.filter t_is_fragment (t_children t))).
Proof.
  destruct t as [a c ty cs]. simpl.
  rewrite <- !concat_map_if. f_equal. f_equal.
  apply map_ext. intros ch. by destruct (t_is_fragment ch).
Qed.

(** C1.  For every tree the store holds (with distinct addresses and fuel
    for its height), [_traverse] returns, at the node, the renderings of the
    children that are not inline fragments in child order, then the class
    declaration of the node, then the renderings of the inline fragments;
    each child is rendered by its own traversal in the same way.  Hence the
    declaration of an inline fragment stands after the declaration of its
    parent, and for a chain [Q { a { b { c } } }] with a scalar [c] the
    output is the declaration of the class of [b], then the one of [a],
    then [QQuery]. *)
Theorem traverse_order (h : Store) (p : option addr) (t : Tree) (fuel : nat) :
  repr h p t ->
  NoDup (addrs t) ->
  (forall pa, p = Some pa -> is_Some (h !! pa)) ->
  t_height t <= S fuel ->
  let own := tree_class_code_string (parent_type h p) t in
  let pty := Some (t_type t) in
  (exists h',
     _traverse (S fuel) (t_addr t) h
     = inr (String.concat ""
              (map (emit pty)
                   (List.filter (fun ch => negb (t_is_fragment ch)) (t_children t)))
            +:+ own
            +:+ String.concat ""
                  (map (emit pty) (List.filter t_is_fragment (t_children t))),
            h')
     /\ _traverse (S fuel) (t_addr t) h = inr (emit (parent_type h p) t, h'))
  /\ (exists hs, class_code_string (t_addr t) h = inr (own, hs))
  /\ Forall (fun ch => exists hc,
               _traverse fuel (t_addr ch) h = inr (emit pty ch, hc))
            (t_children t)
  /\ (forall f, f ∈ t_children t -> t_is_fragment f = true ->
        exists pre mid post h',
          _traverse (S fuel) (t_addr t) h
          = inr (pre +:+ own +:+ mid +:+ tree_class_code_string pty f +:+ post, h'))
  /\ (forall r q a b c rt qt aty bty cty ka ka' kb kb' kc kc',
        is_primitive aty = false -> is_primitive bty = false ->
        is_primitive cty = true ->
        let B := TNode b (ParsedClassNodeC kb kb') bty
                   [TNode c (ParsedClassNodeC kc kc') cty []] in
        let A := TNode a (ParsedClassNodeC ka ka') aty [B] in
        let Q := TNode q ParsedOperationNodeC qt [A] in
        emit None (TNode r ParsedNodeC rt [Q])
        = tree_declaration (Some aty) B +:+ tree_declaration (Some qt) A
          +:+ tree_declaration (Some rt) Q).
Proof.
  intros Hrepr Hnd Hp Hh own pty.
  destruct (traverse_tree (S fuel) t h p Hh Hrepr Hnd Hp) as (h' & Hrun0 & _).
  pose proof Hrun0 as Hrun.
  rewrite emit_unfold in Hrun. fold own pty in Hrun.
  split; [by exists h'|]. split; [|split; [|split]].
  - destruct t as [a c ty cs]. pose proof Hrepr as [Ha Hcs]%repr_inv.
    simpl addrs in Hnd. apply NoDup_cons in Hnd as [Hac Hnd].
    destruct (class_code_string_tree h p (TNode a c ty cs)) as (hs & Hccs & _).
    + exact Ha.
    + exact Hp.
    + simpl. apply Forall_forall. intros g Hg. rewrite Forall_forall in Hcs.
      eapply repr_shallow; [by apply Hcs|reflexivity..].
    + exact Hnd.
    + by exists hs.
  - destruct t as [a c ty cs]. pose proof Hrepr as [Ha Hcs]%repr_inv.
    simpl addrs in Hnd. apply NoDup_cons in Hnd as [Hac Hnd].
    simpl in Hh. apply le_S_n, foldr_max_le, Forall_fmap in Hh.
    simpl. apply Forall_forall. intros ch Hch.
    rewrite Forall_forall in Hcs, Hh.
    destruct (traverse_tree fuel ch h (Some a)) as (hc & Hc & _).
    + by apply Hh.
    + by apply Hcs.
    + by eapply NoDup_child.
    + intros pa [= <-]. by eexists.
    + exists hc. simpl in Hc. by rewrite Ha in Hc.
  - intros f Hf Hfrag.
    assert (Hin : f ∈ List.filter t_is_fragment (t_children t)).
    { apply list_elem_of_In, filter_In. by rewrite <- list_elem_of_In. }
    apply list_elem_of_split in Hin as (l1 & l2 & Hsplit).
    rewrite Hsplit, concat_empty_split, (emit_unfold pty f) in Hrun.
    set (before := String.concat "" (map (emit pty) l1)) in Hrun.
    set (after := String.concat "" (map (emit pty) l2)) in Hrun.
    set (fa := String.concat "" (map (emit (Some (t_type f)))
                 (List.filter (fun ch => negb (t_is_fragment ch)) (t_children f))))
      in Hrun.
    set (fb := String.concat "" (map (emit (Some (t_type f)))
                 (List.filter t_is_fragment (t_children f)))) in Hrun.
    exists (String.concat ""
              (map (emit pty)
                 (List.filter (fun ch => negb (t_is_fragment ch)) (t_children t)))),
           (before +:+ fa), (fb +:+ after), h'.
    rewrite Hrun, !str_app_assoc. reflexivity.
  - intros r q a b c rt qt aty bty cty ka ka' kb kb' kc kc' Ha Hb Hc B A Q.
    simpl. unfold tree_class_code_string, declares. simpl.
    rewrite Ha, Hb, Hc. simpl.
    repeat (rewrite str_app_nil_r || rewrite str_app_nil_l || rewrite str_app_assoc).
    reflexivity.
Qed.

Section EmitterClaims.
Context `{Mapper} `{GraphQLCore}.



(** C9, as the code has it.  Rendering a parsed query returns, and keeps
    every object of the store with its class and keys, its parent and its
    parsed type; the [fields] of an object hold the same children as before,
    in the order [field_type] sorted them into when it was called for the
    object. *)
Theorem render_keeps_nodes (query : string) (raw_schema : IntrospectionQuery)
    (h : Store) (root : addr) :
  parse query (build_client_schema raw_schema) = inr (h, root) ->
  exists text h',
    _traverse (length h) root h = inr (text, h') /\
    generate query raw_schema = inr (HEADER +:+ IMPORTS +:+ text +:+ NL) /\
    length h' = length h /\
    forall a n, h !! a = Some n ->
      exists n', h' !! a = Some n' /\
        cls n' = cls n /\ parent n' = parent n /\
        parsed_type n' = parsed_type n /\
        fields n' ≡ₚ fields n.
Proof.
  intros Hparse.
  destruct (parse_traverse _ _ _ _ Hparse) as (ts & h' & _ & _ & Hrun).
  exists (emit None (TNode 0 ParsedNodeC root_type ts)), h'.
  split; [exact Hrun|]. split.
  - unfold generate. rewrite Hparse, Hrun. by rewrite str_app_assoc.
  - destruct (traverse_same _ _ _ _ _ Hrun) as [Hlen Hsame]. by split.
Qed.

(** C10.  The store [parse] returns is well formed: the root object has no
    parent and empty names; every other object has a parent, is in the
    [fields] of that parent, and in the [fields] of no other object; the
    store is a tree that holds all its objects.  This is what entering and
    leaving do: each part of the visit comes back with the cursor where it
    started, having appended the new nodes to the [fields] of the cursor. *)
Theorem parse_well_formed (query : string) (schema : GraphQLSchema)
    (h : Store) (root : addr) :
  parse query schema = inr (h, root) ->
  well_formed_store h root
  /\ (exists t, repr h None t /\ t_addr t = root /\ addrs t = seq 0 (length h))
  /\ (forall sel, builds (visit_selection sel))
  /\ (forall d, builds (visit_definition d)).
Proof.
  intros (ts & -> & Hrepr & Hcover)%parse_tree.
  split; [by eapply tree_well_formed|]. split; [by eexists|].
  split; [apply builds_selection|apply builds_definition].
Qed.

End EmitterClaims.

(** ** More on the wrapper resolver and on type resolution *)

Lemma unwrap_stack_valid_both (t : GraphQLOutputType) :
  valid_stack (Unwrapper.wrapper_stack (Unwrapper.unwrap t)) = true
  /\ valid_stack (Unwrapper.wrapper_stack (Unwrapper.unwrap (GraphQLNonNull t))) = true
  /\ is_GraphQLList (Unwrapper.inner_gql_type (Unwrapper.unwrap t)) = false
  /\ is_GraphQLList (Unwrapper.inner_gql_type (Unwrapper.unwrap (GraphQLNonNull t)))
     = false.
Proof.
  induction t as [n|n|e (IHe & IHe' & IHi & IHi')|u (IHu & IHu' & IHi & IHi')].
  - by repeat split.
  - by repeat split.
  - simpl. by repeat split.
  - by repeat split.
Qed.

(** X1.  The stack of [Unwrapper.unwrap] never holds two [OPTIONAL] markers in a
    row, and the inner type it reports is never a list, whatever the type,
    well formed or not. *)
Theorem unwrap_stack_valid (t : GraphQLOutputType) :
  valid_stack (Unwrapper.wrapper_stack (Unwrapper.unwrap t)) = true
  /\ is_GraphQLList (Unwrapper.inner_gql_type (Unwrapper.unwrap t)) = false.
Proof. destruct (unwrap_stack_valid_both t) as (? & _ & ? & _). by split. Qed.

Lemma rewrap_acc_unwrap (inner : GraphQLOutputType) :
  is_wrapped inner = false ->
  forall stack, valid_stack stack = true ->
    let acc := Unwrapper.rewrap_acc stack inner in
    Unwrapper.unwrap (Unwrapper.close acc.2 acc.1)
    = {| Unwrapper.wrapper_stack := stack;
         Unwrapper.inner_gql_type := inner;
         Unwrapper.is_primitive := is_GraphQLScalarType inner |}
    /\ acc.2 = match stack with Unwrapper.OPTIONAL :: _ => false | _ => true end.
Proof.
  intros Hinner stack. induction stack as [|w stack IH]; intros Hvalid.
  - simpl. split; [|reflexivity]. by destruct inner.
  - rewrite UnwrapperFacts.rewrap_acc_cons. destruct w.
    + (* LIST *)
      simpl in Hvalid. destruct (IH Hvalid) as [IHu _]. simpl in IHu.
      split; [|reflexivity]. simpl. by rewrite IHu.
    + (* OPTIONAL *)
      assert (Hrest : valid_stack stack = true
                      /\ match stack with Unwrapper.OPTIONAL :: _ => False | _ => True end).
      { simpl in Hvalid. by destruct stack as [|[] ?]. }
      destruct Hrest as [Hv Hnot]. destruct (IH Hv) as [IHu IHnn].
      simpl in IHu, IHnn. split; [|reflexivity]. simpl.
      destruct stack as [|[] stack]; try done.
      * simpl in *. by destruct inner.
      * rewrite IHnn in IHu. simpl in IHu.
        rewrite UnwrapperFacts.rewrap_acc_cons in IHu |- *. simpl in IHu |- *.
        by injection IHu as -> -> ->.
Qed.

(** X2.  The other round trip: re-wrapping a named type with a stack that has no
    two [OPTIONAL] markers in a row gives a type that [Unwrapper.unwrap] takes
    apart into that stack and that type. *)
Theorem rewrap_unwrap (stack : list Unwrapper.WrapperType) (inner : GraphQLOutputType) :
  valid_stack stack = true ->
  is_wrapped inner = false ->
  Unwrapper.unwrap (Unwrapper.rewrap stack inner)
  = {| Unwrapper.wrapper_stack := stack;
       Unwrapper.inner_gql_type := inner;
       Unwrapper.is_primitive := is_GraphQLScalarType inner |}
  /\ well_formed (Unwrapper.rewrap stack inner) = true.
Proof.
  intros Hvalid Hinner.
  split; [exact (proj1 (rewrap_acc_unwrap inner Hinner stack Hvalid))|].
  unfold Unwrapper.rewrap. fold (Unwrapper.rewrap_acc stack inner).
  clear Hvalid. revert Hinner.
  induction stack as [|w stack IH]; intros Hinner.
  - simpl. by destruct inner.
  - specialize (IH Hinner). rewrite UnwrapperFacts.rewrap_acc_cons.
    destruct (Unwrapper.rewrap_acc stack inner) as [t nn] eqn:Hacc.
    destruct w; simpl in *.
    + exact IH.
    + destruct nn; simpl in *; [|exact IH].
      by apply andb_true_iff in IH as [_ ?].
Qed.

Lemma forget_list (s : list Unwrapper.WrapperType) :
  s <> [Unwrapper.OPTIONAL] ->
  forget_element_optional (Unwrapper.LIST :: s)
  = Unwrapper.LIST :: forget_element_optional s.
Proof. by destruct s as [|[] [|? ?]]. Qed.

Lemma stack_of_wrapped (e : GraphQLOutputType) :
  is_wrapped e = true ->
  Unwrapper.wrapper_stack (Unwrapper.unwrap e) <> [Unwrapper.OPTIONAL].
Proof. by destruct e as [| | |[]]. Qed.

Lemma stack_of_named (e : GraphQLOutputType) :
  is_wrapped e = false ->
  Unwrapper.wrapper_stack (Unwrapper.unwrap e) = [Unwrapper.OPTIONAL].
Proof. by destruct e. Qed.

Lemma well_formed_below (t : GraphQLOutputType) :
  well_formed t = true -> well_formed (below_wrappers t) = true.
Proof. by destruct t as [| | |[]]. Qed.

Lemma py_wrap_optional_list (x : string) :
  py_wrapper Unwrapper.OPTIONAL (py_wrapper Unwrapper.LIST x) = py_wrap true true x.
Proof. unfold py_wrapper, py_wrap. by rewrite !str_app_assoc. Qed.

(** One level of [_parse_type], on stacks. *)
Lemma stack_below (t : GraphQLOutputType) (name : string) :
  well_formed t = true ->
  render_stack (forget_element_optional
                  (Unwrapper.wrapper_stack (Unwrapper.unwrap t))) name
  = py_wrap (spec_is_optional t) (spec_is_list t)
      (if is_wrapped (below_wrappers t)
       then render_stack (forget_element_optional
                            (Unwrapper.wrapper_stack
                               (Unwrapper.unwrap (below_wrappers t)))) name
       else name).
Proof.
  assert (Hlist : forall e,
    render_stack (forget_element_optional
                    (Unwrapper.LIST :: Unwrapper.wrapper_stack (Unwrapper.unwrap e))) name
    = py_wrapper Unwrapper.LIST
        (if is_wrapped e
         then render_stack (forget_element_optional
                              (Unwrapper.wrapper_stack (Unwrapper.unwrap e))) name
         else name)).
  { intros e. destruct (is_wrapped e) eqn:Hw.
    - by rewrite (forget_list _ (stack_of_wrapped e Hw)).
    - by rewrite (stack_of_named e Hw). }
  intros Hwf. destruct t as [n|n|e|u]; try reflexivity.
  - change (Unwrapper.wrapper_stack (Unwrapper.unwrap (GraphQLList e)))
      with (Unwrapper.OPTIONAL :: Unwrapper.LIST
              :: Unwrapper.wrapper_stack (Unwrapper.unwrap e)).
    change (forget_element_optional (Unwrapper.OPTIONAL :: ?s))
      with (Unwrapper.OPTIONAL :: forget_element_optional s).
    change (render_stack (Unwrapper.OPTIONAL :: ?s) name)
      with (py_wrapper Unwrapper.OPTIONAL (render_stack s name)).
    rewrite Hlist. apply py_wrap_optional_list.
  - destruct u as [n|n|e|u]; try reflexivity; [|discriminate].
    change (Unwrapper.wrapper_stack (Unwrapper.unwrap (GraphQLNonNull (GraphQLList e))))
      with (Unwrapper.LIST :: Unwrapper.wrapper_stack (Unwrapper.unwrap e)).
    by rewrite Hlist.
Qed.

Section TypeResolution.
Context `{Mapper}.

(** What one call of [_parse_type] has done when it returns. *)
Lemma parse_type_inv (t : GraphQLOutputType) (v v' : FieldToTypeMatcherVisitor)
    (r : ParsedFieldType) :
  _parse_type t v = inr (r, v') ->
  if is_wrapped (below_wrappers t)
  then exists r2,
         _parse_type (below_wrappers t) v = inr (r2, v') /\
         r = {| unwrapped_python_type := unwrapped_python_type r2;
                wrapped_python_type :=
                  py_wrap (spec_is_optional t) (spec_is_list t)
                          (wrapped_python_type r2);
                is_primitive := is_primitive r2 |}
  else exists s,
         _to_python_type (below_wrappers t) v = inr (s, v') /\
         r = {| unwrapped_python_type := s;
                wrapped_python_type :=
                  py_wrap (spec_is_optional t) (spec_is_list t) s;
                is_primitive := is_GraphQLScalarType (below_wrappers t) |}.
Proof.
  rewrite parse_type_unfold. destruct (is_wrapped (below_wrappers t)) eqn:Hw.
  - destruct (_parse_type (below_wrappers t) v) as [e|[r2 v2]] eqn:Hrec.
    + unfold _parse_type_tail. unfold is_wrapped in Hw. rewrite Hw.
      unfold bind. by rewrite Hrec.
    + rewrite (parse_type_tail_rec _ _ _ _ _ _ _ Hw Hrec). intros [= <- <-].
      by exists r2.
  - destruct (_to_python_type (below_wrappers t) v) as [e|[s v2]] eqn:Hrec.
    + unfold _parse_type_tail. unfold is_wrapped in Hw. rewrite Hw.
      unfold bind, ret. by rewrite Hrec.
    + rewrite (parse_type_tail_bottom _ _ _ _ _ _ _ Hw Hrec). intros [= <- <-].
      by exists s.
Qed.

Lemma parse_type_resolves (t : GraphQLOutputType) :
  forall (v v' : FieldToTypeMatcherVisitor) (r : ParsedFieldType),
    _parse_type t v = inr (r, v') ->
    _to_python_type (innermost t) v = inr (unwrapped_python_type r, v')
    /\ is_primitive r = is_GraphQLScalarType (innermost t).
Proof.
  induction t as [n|n|e IH|e IH|u Hu IH] using parse_type_ind;
    intros v v' r Hrun%parse_type_inv.
  - destruct Hrun as (s & Hs & ->). by split.
  - destruct Hrun as (s & Hs & ->). by split.
  - cbn [below_wrappers Unwrapper.strip_non_null] in Hrun.
    destruct (is_wrapped e) eqn:Hw.
    + destruct Hrun as (r2 & Hr2 & ->).
      cbn [innermost unwrapped_python_type is_primitive]. by apply IH.
    + destruct Hrun as (s & Hs & ->).
      cbn [innermost unwrapped_python_type is_primitive].
      by rewrite (innermost_not_wrapped _ Hw).
  - cbn [below_wrappers Unwrapper.strip_non_null] in Hrun.
    destruct (is_wrapped e) eqn:Hw.
    + destruct Hrun as (r2 & Hr2 & ->).
      cbn [innermost unwrapped_python_type is_primitive]. by apply IH.
    + destruct Hrun as (s & Hs & ->).
      cbn [innermost unwrapped_python_type is_primitive].
      by rewrite (innermost_not_wrapped _ Hw).
  - assert (Hb : below_wrappers (GraphQLNonNull u) = u) by (by destruct u).
    rewrite Hb in Hrun. destruct (is_wrapped u) eqn:Hw.
    + destruct Hrun as (r2 & Hr2 & ->).
      cbn [innermost unwrapped_python_type is_primitive]. by apply IH.
    + destruct Hrun as (s & Hs & ->).
      cbn [innermost unwrapped_python_type is_primitive].
      by rewrite (innermost_not_wrapped _ Hw).
Qed.

(** X3.  Whatever the wrappers, the unwrapped name [_parse_type] returns is the
    name [_to_python_type] gives the innermost type, and [is_primitive] says
    whether the innermost type is a scalar. *)
Theorem parse_type_innermost (t : GraphQLOutputType)
    (v v' : FieldToTypeMatcherVisitor) (r : ParsedFieldType) :
  _parse_type t v = inr (r, v') ->
  _to_python_type (innermost t) v = inr (unwrapped_python_type r, v')
  /\ is_primitive r = is_GraphQLScalarType (innermost t).
Proof. apply parse_type_resolves. Qed.

End TypeResolution.

Section TypeExpressions.
Context `{Mapper}.

(** X4.  [_parse_type] and [Unwrapper.unwrap] agree but for one wrapper: the
    wrapped name of a well-formed type is the Python expression of the
    wrapper stack of [Unwrapper.unwrap] around the unwrapped name, without the
    [OPTIONAL] marker of the elements of the innermost list. *)
Theorem parse_type_stack (t : GraphQLOutputType) :
  forall (v v' : FieldToTypeMatcherVisitor) (r : ParsedFieldType),
    well_formed t = true ->
    _parse_type t v = inr (r, v') ->
    wrapped_python_type r
    = render_stack (forget_element_optional
                      (Unwrapper.wrapper_stack (Unwrapper.unwrap t)))
                   (unwrapped_python_type r).
Proof.
  assert (Hstep : forall t : GraphQLOutputType,
    (forall v v' r, well_formed (below_wrappers t) = true ->
       _parse_type (below_wrappers t) v = inr (r, v') ->
       wrapped_python_type r
       = render_stack (forget_element_optional
                         (Unwrapper.wrapper_stack
                            (Unwrapper.unwrap (below_wrappers t))))
                      (unwrapped_python_type r)) ->
    forall v v' r, well_formed t = true -> _parse_type t v = inr (r, v') ->
      wrapped_python_type r
      = render_stack (forget_element_optional
                        (Unwrapper.wrapper_stack (Unwrapper.unwrap t)))
                     (unwrapped_python_type r)).
  { intros t0 IH v v' r Hwf Hrun%parse_type_inv.
    rewrite (stack_below _ _ Hwf).
    destruct (is_wrapped (below_wrappers t0)) eqn:Hw.
    - destruct Hrun as (r2 & Hr2 & ->).
      cbn [unwrapped_python_type wrapped_python_type]. f_equal.
      eapply IH; [by apply well_formed_below|exact Hr2].
    - by destruct Hrun as (s & Hs & ->). }
  induction t as [n|n|e IH|e IH|u Hu IH] using parse_type_ind; apply Hstep.
  - intros v v' r _ Hrun%parse_type_inv. by destruct Hrun as (s & Hs & ->).
  - intros v v' r _ Hrun%parse_type_inv. by destruct Hrun as (s & Hs & ->).
  - exact IH.
  - exact IH.
  - assert (Hb : below_wrappers (GraphQLNonNull u) = u) by (by destruct u).
    rewrite Hb. exact IH.
Qed.

(** X5.  The nullability of the elements of the innermost list is not rendered:
    a list of a named type and a list of the non-null named type resolve to
    the same names. *)
Theorem parse_type_list_element (b : GraphQLOutputType)
    (v : FieldToTypeMatcherVisitor) :
  is_wrapped b = false ->
  _parse_type (GraphQLList b) v = _parse_type (GraphQLList (GraphQLNonNull b)) v
  /\ _parse_type (GraphQLNonNull (GraphQLList b)) v
     = _parse_type (GraphQLNonNull (GraphQLList (GraphQLNonNull b))) v.
Proof.
  intros Hb.
  assert (Hbb : below_wrappers (GraphQLNonNull b) = b) by (by destruct b).
  assert (Hinner : forall o l,
    _parse_type_tail o l b (_parse_type b) v
    = _parse_type_tail o l (GraphQLNonNull b) (_parse_type (GraphQLNonNull b)) v).
  { intros o l.
    destruct (_to_python_type b v) as [e|[s v']] eqn:Hs.
    - assert (Hnn : _parse_type (GraphQLNonNull b) v = inl e).
      { rewrite parse_type_unfold, Hbb. unfold _parse_type_tail.
        unfold is_wrapped in Hb. rewrite Hb. unfold bind, ret. by rewrite Hs. }
      unfold _parse_type_tail. unfold is_wrapped in Hb. rewrite Hb.
      cbn [is_GraphQLNonNull orb]. unfold bind, ret. by rewrite Hs, Hnn.
    - rewrite (parse_type_tail_bottom o l b _ v v' s Hb Hs).
      assert (Hnn : _parse_type (GraphQLNonNull b) v
                    = inr ({| unwrapped_python_type := s;
                              wrapped_python_type := s;
                              is_primitive := is_GraphQLScalarType b |}, v')).
      { rewrite parse_type_unfold, Hbb.
        rewrite (parse_type_tail_bottom _ _ b _ v v' s Hb Hs).
        by destruct b. }
      by rewrite (parse_type_tail_rec o l (GraphQLNonNull b) _ v v' _ eq_refl Hnn). }
  split.
  - rewrite (parse_type_unfold (GraphQLList b)),
      (parse_type_unfold (GraphQLList (GraphQLNonNull b))). apply Hinner.
  - rewrite (parse_type_unfold (GraphQLNonNull (GraphQLList b))),
      (parse_type_unfold (GraphQLNonNull (GraphQLList (GraphQLNonNull b)))).
    apply Hinner.
Qed.

Lemma parse_type_wraps_name (t : GraphQLOutputType) :
  forall (v v' : FieldToTypeMatcherVisitor) (r : ParsedFieldType),
    _parse_type t v = inr (r, v') ->
    exists opening closing,
      wrapped_python_type r = opening +:+ unwrapped_python_type r +:+ closing.
Proof.
  assert (Hwrap : forall o l x opening closing,
    exists opening' closing',
      py_wrap o l (opening +:+ x +:+ closing) = opening' +:+ x +:+ closing').
  { intros o l x opening closing. destruct o, l; simpl.
    - exists ("Optional[list[" +:+ opening), (closing +:+ "]]").
      by rewrite !str_app_assoc.
    - exists ("Optional[" +:+ opening), (closing +:+ "]").
      by rewrite !str_app_assoc.
    - exists ("list[" +:+ opening), (closing +:+ "]").
      by rewrite !str_app_assoc.
    - by exists opening, closing. }
  assert (Hbottom : forall o l x,
    exists opening closing, py_wrap o l x = opening +:+ x +:+ closing).
  { intros o l x. destruct (Hwrap o l x "" "") as (op & cl & Heq).
    exists op, cl. by rewrite str_app_nil_l, str_app_nil_r in Heq. }
  assert (Hstep : forall t : GraphQLOutputType,
    (forall v v' r, _parse_type (below_wrappers t) v = inr (r, v') ->
       exists opening closing,
         wrapped_python_type r = opening +:+ unwrapped_python_type r +:+ closing) ->
    forall v v' r, _parse_type t v = inr (r, v') ->
      exists opening closing,
        wrapped_python_type r = opening +:+ unwrapped_python_type r +:+ closing).
  { intros t0 IH v v' r Hrun%parse_type_inv.
    destruct (is_wrapped (below_wrappers t0)) eqn:Hw.
    - destruct Hrun as (r2 & Hr2 & ->).
      cbn [unwrapped_python_type wrapped_python_type].
      destruct (IH _ _ _ Hr2) as (op & cl & ->). apply Hwrap.
    - destruct Hrun as (s & Hs & ->).
      cbn [unwrapped_python_type wrapped_python_type]. apply Hbottom. }
  induction t as [n|n|e IH|e IH|u Hu IH] using parse_type_ind; apply Hstep.
  - intros v v' r Hrun%parse_type_inv. destruct Hrun as (s & Hs & ->).
    apply Hbottom.
  - intros v v' r Hrun%parse_type_inv. destruct Hrun as (s & Hs & ->).
    apply Hbottom.
  - exact IH.
  - exact IH.
  - assert (Hb : below_wrappers (GraphQLNonNull u) = u) by (by destruct u).
    rewrite Hb. exact IH.
Qed.

(** X6.  The wrapped name holds the unwrapped name: it is the unwrapped name
    between an opening and a closing part. *)
Theorem parse_type_holds_name (t : GraphQLOutputType)
    (v v' : FieldToTypeMatcherVisitor) (r : ParsedFieldType) :
  _parse_type t v = inr (r, v') ->
  exists opening closing,
    wrapped_python_type r = opening +:+ unwrapped_python_type r +:+ closing.
Proof. apply parse_type_wraps_name. Qed.

Lemma to_python_type_cache (t : GraphQLOutputType)
    (v v' : FieldToTypeMatcherVisitor) (s : string) :
  _to_python_type t v = inr (s, v') ->
  if is_GraphQLScalarType t
  then v' = v /\ s = graphql_primitive_to_python t
  else deduplication_cache v' = {[s]} ∪ deduplication_cache v.
Proof.
  unfold _to_python_type. destruct (is_GraphQLScalarType t).
  - by intros [= <- <-].
  - destruct (last_char _); [|discriminate].
    destruct (dedup_loop _ _ _ _ _); [discriminate|]. by intros [= <- <-].
Qed.

(** X7.  The deduplication cache only grows: resolving a type whose innermost
    type is a scalar leaves the visitor as it is and returns the name of the
    primitive; resolving any other type adds the class name it returns to
    the cache, and nothing else. *)
Theorem parse_type_cache (t : GraphQLOutputType)
    (v v' : FieldToTypeMatcherVisitor) (r : ParsedFieldType) :
  _parse_type t v = inr (r, v') ->
  deduplication_cache v ⊆ deduplication_cache v'
  /\ (is_primitive r = true ->
      v' = v /\ unwrapped_python_type r = graphql_primitive_to_python (innermost t))
  /\ (is_primitive r = false ->
      unwrapped_python_type r ∈ deduplication_cache v'
      /\ deduplication_cache v'
         = {[unwrapped_python_type r]} ∪ deduplication_cache v).
Proof.
  intros (Hname & Hprim)%parse_type_resolves.
  apply to_python_type_cache in Hname. revert Hname. rewrite <- Hprim.
  destruct (is_primitive r); intros Hname.
  - destruct Hname as [Hv Hs]. subst v'. by repeat split.
  - rewrite Hname. split; [apply union_subseteq_r|]. split; [done|].
    intros _. split; [|done]. by apply elem_of_union_l, elem_of_singleton.
Qed.

End TypeExpressions.

(** ** The deduplication of class names *)

Lemma dedup_loop_first_free (h : Store) (cache : gset string) :
  forall fuel cur class_name s,
    dedup_loop fuel h cache cur class_name = inr s ->
    exists tried later,
      candidates fuel h cur class_name = tried ++ s :: later
      /\ Forall (fun name => name ∈ cache) tried
      /\ (s ∈ cache -> later = []).
Proof.
  intros fuel. induction fuel as [|fuel IH]; intros cur class_name s Hrun.
  - exists [], []. destruct cur as [c|]; simpl in *; [|by simplify_eq].
    destruct (h !! c) as [n|]; [|discriminate].
    destruct (parent n) as [p|]; [|by simplify_eq].
    case_decide; [discriminate|]. by simplify_eq.
  - destruct cur as [c|]; simpl in *; [|exists [], []; by simplify_eq].
    destruct (h !! c) as [n|]; [|discriminate].
    destruct (parent n) as [p|]; [|exists [], []; by simplify_eq].
    case_decide as Hin.
    + apply IH in Hrun as (tried & later & -> & Htried & Hlater).
      exists (class_name :: tried), later. split; [done|]. split; [|done].
      by constructor.
    + simplify_eq. eexists [], _. by repeat split.
Qed.

Section Deduplication.
Context `{Mapper}.

(** X8.  The class name of a type that is not a scalar is the first of the names
    tried that is not in the cache; when all of them are in the cache, it is
    the last one, which is then returned although it is taken. *)
Theorem class_name_first_free (t : GraphQLOutputType)
    (v v' : FieldToTypeMatcherVisitor) (s last : string) :
  is_GraphQLScalarType t = false ->
  last_char (replace "_" "" (gql_str t)) = Some last ->
  _to_python_type t v = inr (s, v') ->
  exists tried later,
    candidates (length (store v)) (store v) (self_parent v)
               (drop_last_two (replace "_" "" (gql_str t)) +:+ "V" +:+ last)
    = tried ++ s :: later
    /\ Forall (fun name => name ∈ deduplication_cache v) tried
    /\ (s ∈ deduplication_cache v -> later = []).
Proof.
  intros Hns Hlast. unfold _to_python_type. rewrite Hns, Hlast.
  destruct (dedup_loop _ _ _ _ _) as [e|name] eqn:Hloop; [discriminate|].
  intros [= <- <-]. by eapply dedup_loop_first_free.
Qed.

End Deduplication.

(** ** [field_type] called again *)

Lemma sort_desc_sorted_id {A} (key : A -> nat) (l : list A) :
  StronglySorted (desc key) l -> sort_desc key l = l.
Proof.
  induction 1 as [|x l Hl IH Hx]; [done|].
  simpl. rewrite IH. destruct l as [|y l']; [done|]. simpl.
  apply Forall_cons in Hx as [Hxy _]. unfold desc in Hxy.
  by destruct (Nat.ltb_spec (key x) (key y)); [lia|].
Qed.

Lemma len_fields_set_fields (h : Store) (self : addr) (n : ParsedNode)
    (l : list addr) (a : addr) :
  h !! self = Some n -> length l = length (fields n) ->
  len_fields (<[self := set_fields n l]> h) a = len_fields h a.
Proof.
  intros Hself Hlen. unfold len_fields.
  destruct (decide (a = self)) as [->|Hne].
  - rewrite list_lookup_insert_eq by (by eapply lookup_lt_Some).
    by rewrite Hself.
  - by rewrite list_lookup_insert_ne.
Qed.

(** X9.  [field_type] settles after one call: called again on the store it left,
    it returns the same text and leaves that store as it is. *)
Theorem field_type_again (h : Store) (self : addr) (n : ParsedNode) :
  h !! self = Some n ->
  Forall (fun c => is_Some (h !! c)) (fields n) ->
  exists text h',
    field_type self h = inr (text, h')
    /\ field_type self h' = inr (text, h').
Proof.
  intros Hself Hall.
  set (order := sort_desc (len_fields h) (fields n)).
  set (h' := <[self := set_fields n order]> h).
  assert (Hlt : self < length h) by (by eapply lookup_lt_Some).
  assert (Hself' : h' !! self = Some (set_fields n order))
    by (by apply list_lookup_insert_eq).
  assert (Horder : sort_desc (len_fields h') order = order).
  { rewrite (sort_desc_ext _ (len_fields h)).
    - apply sort_desc_sorted_id, sort_desc_sorted.
    - apply Forall_forall. intros a _.
      apply len_fields_set_fields; [done|apply sort_desc_length]. }
  exists (spec_field_type h n order), h'.
  split; [by apply field_type_run|].
  rewrite (field_type_run h' self (set_fields n order) Hself').
  - cbn [fields set_fields]. rewrite Horder.
    assert (Hh' : <[self := set_fields (set_fields n order) order]> h' = h')
      by (unfold h'; by rewrite list_insert_insert_eq).
    rewrite Hh'. f_equal. f_equal.
    unfold spec_field_type, union_names. cbn [fields set_fields parsed_type].
    rewrite (existsb_perm _ _ _ (sort_desc_perm (len_fields h) (fields n))).
    fold order.
    rewrite (existsb_ext_in _ (is_fragment_at h))
        by (intros; by apply is_fragment_at_set_fields).
    rewrite (filter_ext_all _ (is_fragment_at h))
      by (intros; by apply is_fragment_at_set_fields).
    rewrite (map_ext _ (class_name_at h))
      by (intros; by apply class_name_at_set_fields).
    by rewrite <- (existsb_perm _ _ _ (sort_desc_perm (len_fields h) (fields n))).
  - cbn [fields set_fields]. apply Forall_forall. intros c Hc.
    apply (is_Some_set_fields _ _ _ _ _ Hself).
    eapply Forall_forall in Hall; [exact Hall|].
    unfold order in Hc. by rewrite (sort_desc_perm (len_fields h)) in Hc.
Qed.

(** ** The union in the field type *)


(** [replace] replaces: where [old] occurs, the result holds [new]. *)
Lemma replace_occurs (old new front back : string) :
  exists front' back',
    replace old new (front +:+ old +:+ back) = front' +:+ new +:+ back'.
Proof.
  destruct old as [|o old].
  - unfold replace. rewrite str_app_nil_l.
    destruct (front +:+ back) as [|c s]; simpl.
    + exists "", "". by rewrite str_app_nil_l, str_app_nil_r.
    + exists "", (String c (replace_empty new s)). by rewrite str_app_nil_l.
  - unfold replace. induction front as [|c front IH].
    + rewrite str_app_nil_l, str_app_cons.
      cbn [replace_from]. rewrite <- str_app_cons, prefix_app.
      eexists "", _. by rewrite str_app_nil_l.
    + rewrite str_app_cons. cbn [replace_from].
      destruct (String.prefix _ _).
      * eexists "", _. by rewrite str_app_nil_l.
      * destruct IH as (front' & back' & ->).
        exists (String c front'), back'. by rewrite str_app_cons.
Qed.

Section UnionShown.
Context `{Mapper}.

(** X10.  The union is never lost: for a node whose type [_parse_type] resolved
    and that has an inline fragment among its children, the field type holds
    the union of the class names of the fragments and of the node. *)
Theorem field_type_shows_union (h : Store) (self : addr) (n : ParsedNode)
    (t : GraphQLOutputType) (v v' : FieldToTypeMatcherVisitor) :
  h !! self = Some n ->
  Forall (fun c => is_Some (h !! c)) (fields n) ->
  existsb (is_fragment_at h) (fields n) = true ->
  _parse_type t v = inr (parsed_type n, v') ->
  exists text h' opening closing,
    field_type self h = inr (text, h')
    /\ text = opening +:+ ("Union[" +:+
                String.concat ", "
                  (union_names h n (sort_desc (len_fields h) (fields n)))
                +:+ "]") +:+ closing.
Proof.
  intros Hself Hall Hfrag Hty.
  apply parse_type_wraps_name in Hty as (front & back & Hwrapped).
  destruct (replace_occurs (unwrapped_python_type (parsed_type n))
              ("Union[" +:+
               String.concat ", "
                 (union_names h n (sort_desc (len_fields h) (fields n)))
               +:+ "]") front back) as (opening & closing & Hrep).
  eexists _, _, opening, closing. split; [by apply field_type_run|].
  unfold spec_field_type. by rewrite Hfrag, Hwrapped, Hrep.
Qed.

End UnionShown.

(** ** What the visit raises *)

Section RaisesFacts.
Context `{Mapper}.

Lemma raises_only_ret {A} (P : Exception -> Prop) (x : A) : raises_only P (ret x).
Proof. by intros v Hv. Qed.

Lemma raises_only_bind {A B} (P : Exception -> Prop) (m : Visit A) (k : A -> Visit B) :
  raises_only P m -> (forall x, raises_only P (k x)) -> raises_only P (bind m k).
Proof.
  intros Hm Hk v Hv. specialize (Hm v Hv). unfold bind.
  destruct (m v) as [e|[x v1]]; [exact Hm|]. destruct Hm as [Hv1 Hc1].
  specialize (Hk x v1 Hv1). destruct (k x v1) as [e|[y v2]]; [exact Hk|].
  destruct Hk as [Hv2 Hc2]. split; [exact Hv2|congruence].
Qed.

Lemma to_python_type_raises t : raises_only (eq IndexError) (_to_python_type t).
Proof.
  intros v [Hchain Hcur]. unfold _to_python_type.
  destruct (is_GraphQLScalarType t); [by repeat split|].
  destruct (last_char _); [|done].
  destruct (dedup_loop_returns (store v) (deduplication_cache v) Hchain
              (length (store v)) (self_parent v)
              (drop_last_two (replace "_" "" (gql_str t)) +:+ "V" +:+ s))
    as [name ->].
  { intros c Hc. specialize (Hcur c Hc). lia. }
  by repeat split.
Qed.

Lemma parse_type_tail_raises is_optional is_list t rec :
  (is_GraphQLNonNull t || is_GraphQLList t = true -> raises_only (eq IndexError) rec) ->
  raises_only (eq IndexError) (_parse_type_tail is_optional is_list t rec).
Proof.
  intros Hrec. unfold _parse_type_tail.
  apply raises_only_bind.
  - destruct (_ || _); [|apply raises_only_ret].
    apply raises_only_bind; [by apply Hrec|]. intros p. apply raises_only_ret.
  - intros [p|]; (apply raises_only_bind;
      [first [apply raises_only_ret|apply to_python_type_raises]
      |intros x; apply raises_only_ret]).
Qed.

Lemma parse_type_raises t : raises_only (eq IndexError) (_parse_type t).
Proof.
  induction t as [n|n|e IH|e IH|u Hu IH] using parse_type_ind; simpl.
  - by apply parse_type_tail_raises.
  - by apply parse_type_tail_raises.
  - by apply parse_type_tail_raises.
  - by apply parse_type_tail_raises.
  - destruct u; try discriminate; by apply parse_type_tail_raises.
Qed.

Lemma steady_ret : steady (ret tt).
Proof. by intros v a Hv Ha. Qed.

Lemma steady_seq (m1 m2 : Visit unit) : steady m1 -> steady m2 -> steady (m1 ;;; m2).
Proof.
  intros H1 H2 v a Hv Ha. specialize (H1 v a Hv Ha). unfold bind.
  destruct (m1 v) as [e|[[] v1]]; [exact H1|]. simpl in H1.
  destruct H1 as [Hv1 Ha1].
  exact (H2 v1 a Hv1 Ha1).
Qed.

Lemma steady_for_each {A} (f : A -> Visit unit) (l : list A) :
  Forall (fun x => steady (f x)) l -> steady (for_each l tt (fun _ x => f x)).
Proof.
  induction 1 as [|x l Hx _ IH]; [apply steady_ret|].
  intros v a Hv Ha. rewrite for_each_cons.
  pose proof (steady_seq (f x) (for_each l tt (fun _ x => f x)) Hx IH v a Hv Ha) as Hs.
  unfold bind in *. by destruct (f x v) as [e|[[] v1]].
Qed.

(** Entering a node, visiting its selection set, and leaving it. *)
Lemma steady_node (c : NodeClass) (ty : ParsedFieldType) (body : Visit unit) :
  builds body -> steady body -> steady (push_node c ty ;;; body ;;; pop_node).
Proof.
  intros Hbuilds Hbody v a Hv Ha.
  pose proof (safe_push_node c ty v Hv) as Hpush.
  destruct Hv as [Hchain Hcur]. pose proof (Hcur a Ha) as Hlt.
  destruct (lookup_lt_is_Some_2 _ _ Hlt) as [na Hna].
  unfold bind at 1. unfold push_node in *. rewrite Ha, Hna in *.
  set (v1 := {| store := _; parsed := _; self_parent := _;
                deduplication_cache := _ |}) in *.
  specialize (Hbody v1 (length (store v)) Hpush eq_refl).
  unfold bind at 1.
  destruct (body v1) as [e|[[] v2]] eqn:Hrun; [exact Hbody|].
  destruct Hbody as [Hv2 Ha2].
  assert (Hnew : store v1 !! length (store v)
                 = Some {| cls := c; parent := Some a; fields := [];
                           parsed_type := ty |}).
  { simpl. rewrite lookup_app_r; rewrite length_insert; [|done].
    by rewrite Nat.sub_diag. }
  destruct (Hbuilds _ _ _ _ Hrun eq_refl Hnew)
    as (_ & _ & Hlen & _ & ts & Hn2 & _).
  unfold pop_node. rewrite Ha2, Hn2. simpl.
  split; [|reflexivity]. split; [apply Hv2|]. simpl. intros ? [= <-].
  simpl in Hlen. rewrite length_app, length_insert in Hlen. simpl in Hlen. lia.
Qed.

Lemma steady_after (t : option GraphQLOutputType) (k : ParsedFieldType -> Visit unit) :
  (forall ft, steady (k ft)) ->
  steady (match t with
          | None => raise ValueError
          | Some graphql_type => bind (_parse_type graphql_type) k
          end).
Proof.
  intros Hk v a Hv Ha. destruct t as [t|]; [|by left].
  pose proof (parse_type_raises t v Hv) as Hty. unfold bind.
  destruct (_parse_type t v) as [e|[ft v1]]; [by right|].
  destruct Hty as [Hv1 Ha1]. apply Hk; [exact Hv1|congruence].
Qed.

Lemma steady_selection (sel : SelectionNode) : steady (visit_selection sel).
Proof.
  induction sel as [name alias type sels IH|type sels IH|name]
    using SelectionNode_ind_forall.
  - intros v a Hv Ha. simpl. unfold enter_field.
    pose proof (steady_after type
      (fun ft => push_node (ParsedClassNodeC (default name alias)
                              (graphql_field_name_to_python name)) ft ;;;
                 for_each sels tt (fun _ s => visit_selection s) ;;; pop_node)) as Hs.
    destruct type as [t|]; [|by left].
    rewrite bind_assoc. destruct alias as [al|]; apply Hs; try done;
      intros ft; apply steady_node;
      first [apply builds_for_each, Forall_forall; intros; apply builds_selection
            |by apply steady_for_each].
  - intros v a Hv Ha. simpl. unfold enter_inline_fragment.
    pose proof (steady_after type
      (fun ft => push_node ParsedInlineFragmentNodeC ft ;;;
                 for_each sels tt (fun _ s => visit_selection s) ;;; pop_node)) as Hs.
    destruct type as [t|]; [|by left].
    rewrite bind_assoc. apply Hs; try done.
    intros ft. apply steady_node;
      first [apply builds_for_each, Forall_forall; intros; apply builds_selection
            |by apply steady_for_each].
  - apply steady_ret.
Qed.

Lemma steady_selection_set (sels : list SelectionNode) :
  steady (visit_selection_set sels).
Proof. apply steady_for_each, Forall_forall. intros s _. apply steady_selection. Qed.

Lemma steady_visit (document_ast : DocumentNode) : steady (visit document_ast).
Proof.
  apply steady_for_each, Forall_forall. intros d _.
  destruct d as [[value|] sels|name sels]; simpl.
  - apply steady_node; [apply builds_selection_set|apply steady_selection_set].
  - intros v a Hv Ha. by left.
  - apply steady_selection_set.
Qed.

(** X11.  What the methods of the visitor raise.  From a visitor whose
    cursor is at an object of the store and whose parent pointers lead to
    lower addresses, as in the visitor [__init__] makes, the visit of a
    document either returns with the cursor where it was, or raises
    [ValueError] (a node without a type, an operation without a name) or
    [IndexError] (a type whose name has no character besides underscores).
    The cursor is never [None] where [enter_field], [enter_inline_fragment]
    and [enter_operation_definition] dereference it, and the walk up the
    ancestors never leaves the store. *)
Theorem visit_raises (document_ast : DocumentNode)
    (v : FieldToTypeMatcherVisitor) (a : addr) :
  cursor_ok v -> self_parent v = Some a ->
  match visit document_ast v with
  | inl e => (e = ValueError \/ e = IndexError)
             /\ e <> AttributeError /\ e <> Stuck
  | inr (_, v') => cursor_ok v' /\ self_parent v' = Some a
  end.
Proof.
  intros Hv Ha. pose proof (steady_visit document_ast v a Hv Ha) as Hs.
  destruct (visit document_ast v) as [e|[[] v']]; [|exact Hs].
  split; [exact Hs|]. destruct Hs as [-> | ->]; by split.
Qed.

End RaisesFacts.

(** ** The tree has the shape of the document *)

Section ShapeFacts.
Context `{Mapper}.

Lemma grows_ret : grows [] (ret tt).
Proof.
  intros v v' a na [= <-] Hc Ha. repeat split; [done..|].
  exists []. simpl. rewrite app_nil_r, Nat.sub_diag.
  repeat split; [|constructor]. rewrite Ha. by destruct na.
Qed.

Lemma grows_seq (m1 m2 : Visit unit) (s1 s2 : list Shape) :
  grows s1 m1 -> grows s2 m2 -> grows (s1 ++ s2) (m1 ;;; m2).
Proof.
  intros H1 H2 v v' a na ([] & v1 & Hm1 & Hm2)%bind_run Hc Ha.
  destruct (H1 _ _ _ _ Hm1 Hc Ha)
    as (Hp1 & Hc1 & Hl1 & Hfr1 & ts1 & Ha1 & Hseq1 & Hr1 & Hs1).
  destruct (H2 _ _ _ _ Hm2 Hc1 Ha1)
    as (Hp2 & Hc2 & Hl2 & Hfr2 & ts2 & Ha2 & Hseq2 & Hr2 & Hs2).
  assert (Hlt : a < length (store v)) by (by eapply lookup_lt_Some).
  split; [congruence|]. split; [exact Hc2|]. split; [lia|].
  split.
  { intros b Hb Hne. rewrite Hfr2 by (done || lia). by apply Hfr1. }
  exists (ts1 ++ ts2). split; [|split; [|split]].
  - rewrite Ha2. simpl. by rewrite map_app, app_assoc.
  - rewrite map_app, concat_app, Hseq1, Hseq2.
    replace (length (store v') - length (store v))
      with ((length (store v1) - length (store v))
            + (length (store v') - length (store v1))) by lia.
    rewrite seq_app. do 2 f_equal. lia.
  - apply Forall_app. split; [|exact Hr2].
    apply Forall_forall. intros t Ht. rewrite Forall_forall in Hr1.
    eapply repr_frame; [|by apply Hr1].
    intros b Hb.
    assert (Hin : b ∈ concat (map addrs ts1)).
    { apply elem_of_concat_addrs. eauto. }
    rewrite Hseq1 in Hin. apply list_elem_of_In, in_seq in Hin.
    apply Hfr2; lia.
  - by rewrite map_app, Hs1, Hs2.
Qed.

Lemma grows_for_each {A} (f : A -> Visit unit) (shapes : A -> list Shape)
    (l : list A) :
  Forall (fun x => grows (shapes x) (f x)) l ->
  grows (concat (map shapes l)) (for_each l tt (fun _ x => f x)).
Proof.
  induction 1 as [|x l Hx _ IH]; [apply grows_ret|].
  intros v v' a na Hrun. revert Hrun.
  rewrite for_each_cons.
  intros Hrun. simpl.
  eapply (grows_seq (f x) (for_each l tt (fun _ x => f x))); [done..|].
  unfold bind. destruct (f x v) as [e|[[] v1]]; exact Hrun.
Qed.

Lemma grows_after {A} (m : Visit A) (k : A -> Visit unit) (P : A -> Prop)
    (shapes : list Shape) :
  keeps_store m ->
  (forall v x v', m v = inr (x, v') -> P x) ->
  (forall x, P x -> grows shapes (k x)) ->
  grows shapes (bind m k).
Proof.
  intros Hm HP Hk v v' a na (x & v1 & Hx & Hrun)%bind_run Hc Ha.
  destruct (Hm _ _ _ Hx) as (Hs & Hp & Hcur).
  rewrite <- Hs, <- Hp. eapply Hk; [by eapply HP|exact Hrun|congruence..].
Qed.

Lemma grows_node (c : NodeClass) (ty : ParsedFieldType) (body : Visit unit)
    (shapes : list Shape) :
  grows shapes body ->
  grows [ShapeNode c (is_primitive ty) shapes] (push_node c ty ;;; body ;;; pop_node).
Proof.
  intros Hbody v v' a na Hrun Hc Ha.
  apply bind_run in Hrun as ([] & v1 & Hpush & Hrun).
  apply bind_run in Hrun as ([] & v2 & Hb & Hpop).
  unfold push_node in Hpush. rewrite Hc, Ha in Hpush. simplify_eq.
  set (h := store v) in *. set (n0 := length h) in *.
  set (new := {| cls := c; parent := Some a; fields := []; parsed_type := ty |}) in *.
  set (h1 := <[a := set_fields na (fields na ++ [n0])]> h ++ [new]) in *.
  assert (Hlt : a < n0) by (by eapply lookup_lt_Some).
  assert (Hlen1 : length h1 = S n0).
  { unfold h1. rewrite length_app, length_insert. simpl. unfold n0. lia. }
  assert (Hnew : h1 !! n0 = Some new).
  { unfold h1. rewrite lookup_app_r; rewrite length_insert; [|done].
    by rewrite Nat.sub_diag. }
  destruct (Hbody _ _ n0 new Hb eq_refl Hnew)
    as (Hp2 & Hc2 & Hl2 & Hfr2 & ts & Hn2 & Hseq2 & Hr2 & Hs2).
  simpl in Hp2, Hl2, Hfr2, Hn2, Hseq2. fold h1 in Hl2, Hfr2, Hseq2.
  unfold pop_node in Hpop. rewrite Hc2, Hn2 in Hpop. simpl in Hpop. simplify_eq.
  simpl. fold h. fold n0.
  split; [exact Hp2|]. split; [reflexivity|]. split; [lia|].
  assert (Hold : forall b, b < n0 ->
            store v2 !! b = (<[a := set_fields na (fields na ++ [n0])]> h) !! b).
  { intros b Hb'. rewrite Hfr2 by lia. unfold h1.
    by rewrite lookup_app_l by (by rewrite length_insert). }
  split.
  { intros b Hb' Hne. rewrite Hold by done. by rewrite list_lookup_insert_ne. }
  exists [TNode n0 c ty ts]. split; [|split; [|split]].
  - rewrite Hold by done. by rewrite list_lookup_insert_eq.
  - simpl. rewrite app_nil_r, Hseq2, Hlen1.
    replace (length (store v2) - n0) with (S (length (store v2) - S n0)) by lia.
    reflexivity.
  - constructor; [|constructor]. constructor; [|exact Hr2].
    rewrite Hn2. reflexivity.
  - reflexivity.
Qed.

Lemma grows_selection (sel : SelectionNode) :
  grows (selection_shape sel) (visit_selection sel).
Proof.
  induction sel as [name alias type sels IH|type sels IH|name]
    using SelectionNode_ind_forall.
  - intros v v' a na Hrun. revert Hrun. simpl. unfold enter_field.
    destruct type as [t|]; [|discriminate].
    rewrite bind_assoc. revert v v' a na.
    apply (grows_after _ _
             (fun ft => is_primitive ft = is_GraphQLScalarType (innermost t)));
      [apply parse_type_keeps| |].
    + intros v ft v' Hft. by apply parse_type_resolves in Hft as [_ ?].
    + intros ft <-. destruct alias as [al|];
        apply (grows_node _ _ (for_each sels tt (fun _ s => visit_selection s)));
        by apply grows_for_each.
  - intros v v' a na Hrun. revert Hrun. simpl. unfold enter_inline_fragment.
    destruct type as [t|]; [|discriminate].
    rewrite bind_assoc. revert v v' a na.
    apply (grows_after _ _
             (fun ft => is_primitive ft = is_GraphQLScalarType (innermost t)));
      [apply parse_type_keeps| |].
    + intros v ft v' Hft. by apply parse_type_resolves in Hft as [_ ?].
    + intros ft <-.
      apply (grows_node _ _ (for_each sels tt (fun _ s => visit_selection s))).
      by apply grows_for_each.
  - apply grows_ret.
Qed.

Lemma grows_selection_set (sels : list SelectionNode) :
  grows (concat (map selection_shape sels)) (visit_selection_set sels).
Proof.
  apply grows_for_each, Forall_forall. intros s _. apply grows_selection.
Qed.

Lemma grows_definition (d : DefinitionNode) :
  grows (definition_shape d) (visit_definition d).
Proof.
  destruct d as [[value|] sels|name sels]; simpl.
  - apply (grows_node ParsedOperationNodeC
             {| unwrapped_python_type := value;
                wrapped_python_type := "Optional[list[" +:+ value +:+ "]]";
                is_primitive := false |}), grows_selection_set.
  - intros v v' a na Hrun. discriminate.
  - apply grows_selection_set.
Qed.

Lemma grows_visit (document_ast : DocumentNode) :
  grows (document_shape document_ast) (visit document_ast).
Proof.
  apply grows_for_each, Forall_forall. intros d _. apply grows_definition.
Qed.

Context `{GraphQLCore}.

(** X12.  The tree [parse] returns has the shape of the document: under the root,
    in the order of the document, one operation node for every operation and
    the nodes of the selections of every fragment definition; under a node,
    one class node for every field of its selection set, with the alias or
    else the name as GraphQL key and the mapped name as Python key, and one
    fragment node for every inline fragment, in the order of the selection
    set; nothing for a fragment spread.  A node is primitive when the
    innermost type of its field is a scalar. *)
Theorem parse_shape (query : string) (schema : GraphQLSchema)
    (document_ast : DocumentNode) (h : Store) (root : addr) :
  graphql_parse query = Some document_ast ->
  parse query schema = inr (h, root) ->
  exists ts,
    repr h None (TNode root ParsedNodeC root_type ts)
    /\ map shape ts = document_shape (TypeInfo schema document_ast).
Proof.
  intros Hdoc. unfold parse. rewrite Hdoc. intros Hrun.
  assert (Hvisit : match visit (TypeInfo schema document_ast) visitor_init with
                   | inl e => inl e
                   | inr (_, visitor) => inr (store visitor, parsed visitor)
                   end = inr (h, root)).
  { destruct (get_operation_ast document_ast) as [[[name|] sels|name sels]|];
      try discriminate; by destruct (validate schema document_ast). }
  destruct (visit (TypeInfo schema document_ast) visitor_init)
    as [e|[[] v]] eqn:Hv; [discriminate|].
  simplify_eq.
  destruct (grows_visit _ _ _ 0 _ Hv eq_refl eq_refl)
    as (Hp & _ & _ & _ & ts & Hroot & _ & Hts & Hshape).
  simpl in Hp, Hroot. exists ts. split; [|exact Hshape].
  rewrite Hp. constructor; [exact Hroot|exact Hts].
Qed.

End ShapeFacts.

(** ** The declarations [generate] returns *)


Section DeclarationClaims.
Context `{Mapper} `{GraphQLCore}.



End DeclarationClaims.

(** ** The command *)


Lemma str_app_inv_tail (a b c d : string) :
  String.length c = String.length d -> a +:+ c = b +:+ d -> a = b /\ c = d.
Proof.
  intros Hlen. revert b. induction a as [|x a IH]; intros [|y b];
    rewrite ?str_app_cons, ?str_app_nil_l.
  - done.
  - intros ->. rewrite ?str_app_cons in Hlen. simpl in Hlen.
    rewrite str_length_app in Hlen. lia.
  - intros <-. rewrite ?str_app_cons in Hlen. simpl in Hlen.
    rewrite str_length_app in Hlen. lia.
  - intros [= -> Heq]. destruct (IH _ Heq) as [-> ->]. done.
Qed.

Lemma endswith_spec (s suffix : string) :
  endswith s suffix = true <-> exists front, s = front +:+ suffix.
Proof.
  induction s as [|x s IH]; cbn [endswith].
  - destruct (String.eqb_spec "" suffix) as [<-|Hne]; simpl.
    + split; [by exists ""|done].
    + split; [done|]. intros ([|y front] & Heq).
      * by rewrite str_app_nil_l in Heq.
      * by rewrite str_app_cons in Heq.
  - destruct (String.eqb_spec (String x s) suffix) as [<-|Hne]; simpl.
    + split; [by exists ""|done].
    + rewrite IH. split.
      * intros (front & ->). exists (String x front). by rewrite str_app_cons.
      * intros ([|y front] & Heq).
        -- by rewrite str_app_nil_l in Heq.
        -- rewrite str_app_cons in Heq. injection Heq as _ ->. by exists front.
Qed.

Lemma substring_front (a b : string) :
  String.substring 0 (String.length a) (a +:+ b) = a.
Proof.
  induction a as [|x a IH].
  - rewrite str_app_nil_l. by destruct b.
  - rewrite str_app_cons. simpl. by rewrite IH.
Qed.

Lemma drop_last_three_app (a b : string) :
  String.length b = 3 -> drop_last_three (a +:+ b) = a.
Proof.
  intros Hb. unfold drop_last_three. rewrite str_length_app, Hb.
  replace (String.length a + 3 - 3) with (String.length a) by lia.
  apply substring_front.
Qed.

Lemma gql_not_py (s : string) :
  endswith s ".gql" = true -> endswith s ".py" = false.
Proof.
  intros (p & ->)%endswith_spec. apply not_true_is_false.
  intros (q & Heq)%endswith_spec.
  change ".gql" with (".g" +:+ "ql") in Heq. change ".py" with ("." +:+ "py") in Heq.
  rewrite <- !str_app_assoc in Heq.
  by apply str_app_inv_tail in Heq as [_ ?].
Qed.

Section CommandFacts.
Context `{Mapper} `{OperatingSystem}.

Lemma target_gql (front : string) : target (front +:+ ".gql") = front +:+ ".py".
Proof.
  unfold target. change ".gql" with ("." +:+ "gql").
  rewrite <- str_app_assoc, drop_last_three_app by done.
  by rewrite str_app_assoc.
Qed.

Lemma target_py (file : string) :
  endswith file ".gql" = true -> endswith (target file) ".py" = true.
Proof.
  intros (p & ->)%endswith_spec. rewrite target_gql. apply endswith_spec. by exists p.
Qed.

Lemma target_inj (file file' : string) :
  endswith file ".gql" = true -> endswith file' ".gql" = true ->
  target file = target file' -> file = file'.
Proof.
  intros (p & ->)%endswith_spec (q & ->)%endswith_spec. rewrite !target_gql.
  by intros [-> _]%str_app_inv_tail.
Qed.

Lemma target_not_query (file file' : string) :
  endswith file ".gql" = true -> endswith file' ".gql" = true ->
  target file <> file'.
Proof.
  intros Hf%target_py Hf'%gql_not_py Heq. rewrite Heq in Hf. congruence.
Qed.

Lemma find_inner (root : string) (files result : list string) :
  foldl (fun result name =>
           if endswith name ".gql" then result ++ [os_path_join root name]
           else result) result files
  = result ++ map (os_path_join root)
                  (List.filter (fun name => endswith name ".gql") files).
Proof.
  revert result. induction files as [|name files IH]; intros result; simpl.
  - by rewrite app_nil_r.
  - rewrite IH. destruct (endswith name ".gql"); [|done].
    by rewrite <- app_assoc.
Qed.

Lemma find_query_files_concat (fs : gmap string string) (dir : string) :
  _find_query_files fs dir
  = concat (map (fun entry =>
                   map (os_path_join entry.1)
                       (List.filter (fun name => endswith name ".gql") entry.2))
                (os_walk fs dir)).
Proof.
  unfold _find_query_files.
  assert (Hgen : forall entries result,
    foldl (fun result '(root, files) =>
             foldl (fun result name =>
                      if endswith name ".gql" then result ++ [os_path_join root name]
                      else result) result files) result entries
    = result ++ concat (map (fun entry =>
                   map (os_path_join entry.1)
                       (List.filter (fun name => endswith name ".gql") entry.2))
                entries)).
  { induction entries as [|[root files] entries IH]; intros result; simpl.
    - by rewrite app_nil_r.
    - by rewrite IH, find_inner, <- app_assoc. }
  apply Hgen.
Qed.

Lemma generate_file_verdict (introspection : IntrospectionQuery) (file : string)
    (w : World) :
  generate_file introspection file w
  = match verdict introspection (file_system w) file with
    | Written code => (None, write (target file) code w)
    | Skipped message => (None, print message w)
    | Raised e => (Some e, w)
    end.
Proof.
  unfold generate_file, verdict. destruct (file_system w !! file) as [content|]; [|done].
  unfold plugins. case_decide as Hp.
  - rewrite Hp, lookup_singleton_eq.
    by destruct (generate content introspection) as [[]|code].
  - by rewrite lookup_singleton_ne.
Qed.

Lemma verdict_agree (introspection : IntrospectionQuery)
    (fs fs' : gmap string string) (file : string) :
  fs' !! file = fs !! file ->
  verdict introspection fs' file = verdict introspection fs file.
Proof. unfold verdict. by intros ->. Qed.

Lemma messages_cons (introspection : IntrospectionQuery)
    (fs : gmap string string) (file : string) (files : list string) :
  messages introspection fs (file :: files)
  = match verdict introspection fs file with
    | Skipped message => message :: messages introspection fs files
    | _ => messages introspection fs files
    end.
Proof. unfold messages. simpl. by destruct (verdict introspection fs file). Qed.

Lemma messages_agree (introspection : IntrospectionQuery)
    (fs fs' : gmap string string) (files : list string) :
  Forall (fun f => fs' !! f = fs !! f) files ->
  messages introspection fs' files = messages introspection fs files.
Proof.
  induction 1 as [|f files Hf _ IH]; [done|].
  by rewrite !messages_cons, (verdict_agree _ _ _ _ Hf), IH.
Qed.

(** The loop runs the files in order up to the first that raises. *)
Lemma generate_files_spec (introspection : IntrospectionQuery) (files : list string) :
  forall (w : World) (out : option CommandException) (w' : World),
    Forall (fun f => endswith f ".gql" = true) files ->
    generate_files introspection files w = (out, w') ->
    exists ran rest,
      files = ran ++ rest
      /\ Forall (fun f => forall e,
                   verdict introspection (file_system w) f <> Raised e) ran
      /\ match rest with
         | [] => out = None
         | f :: _ =>
             exists e, verdict introspection (file_system w) f = Raised e
                       /\ out = Some e
         end
      /\ (forall f code, f ∈ ran ->
            verdict introspection (file_system w) f = Written code ->
            file_system w' !! target f = Some code)
      /\ (forall path, ~ written_by introspection (file_system w) ran path ->
            file_system w' !! path = file_system w !! path)
      /\ printed w' = printed w ++ messages introspection (file_system w) ran.
Proof.
  induction files as [|x files IH]; intros w out w' Hgql Hrun.
  - simpl in Hrun. simplify_eq. exists [], []. repeat split; try done.
    + intros f code Hf. by apply elem_of_nil in Hf.
    + unfold messages. simpl. by rewrite app_nil_r.
  - apply Forall_cons in Hgql as [Hx Hgql]. simpl in Hrun.
    rewrite generate_file_verdict in Hrun.
    destruct (verdict introspection (file_system w) x) as [code|message|e] eqn:Hv.
    + set (w1 := write (target x) code w) in *.
      assert (Hlook : forall f, endswith f ".gql" = true ->
                file_system w1 !! f = file_system w !! f).
      { intros f Hf. simpl. apply lookup_insert_ne. by apply target_not_query. }
      assert (Hsame : forall f, endswith f ".gql" = true ->
                verdict introspection (file_system w1) f
                = verdict introspection (file_system w) f).
      { intros f Hf. by apply verdict_agree, Hlook. }
      destruct (IH w1 out w' Hgql Hrun)
        as (ran & rest & -> & Hok & Hrest & Hwr & Hfr & Hpr).
      apply Forall_app in Hgql as [Hgd Hgr]. rewrite Forall_forall in Hgd.
      exists (x :: ran), rest. split; [done|].
      split; [|split; [|split; [|split]]].
      * constructor; [by rewrite Hv|].
        apply Forall_forall. intros f Hf e. rewrite <- Hsame by (by apply Hgd).
        rewrite Forall_forall in Hok. by apply Hok.
      * destruct rest as [|f rest']; [done|].
        destruct Hrest as (e & He & ->). exists e. split; [|done].
        apply Forall_cons in Hgr as [Hf _]. by rewrite <- Hsame.
      * intros f c Hf Hvf. destruct (decide (f ∈ ran)) as [Hin|Hnin].
        -- apply Hwr; [done|]. by rewrite Hsame by (by apply Hgd).
        -- apply elem_of_cons in Hf as [->|?]; [|done]. rewrite Hfr.
           ++ simpl. rewrite lookup_insert_eq. congruence.
           ++ intros (f' & c' & Hf' & _ & Heq). apply target_inj in Heq;
                [congruence|done|by apply Hgd].
      * intros path Hnot. rewrite Hfr.
        -- simpl. apply lookup_insert_ne. intros <-. apply Hnot.
           exists x, code. split; [by left|done].
        -- intros (f' & c' & Hf' & Hv' & ->). apply Hnot.
           exists f', c'. split; [by right|]. split; [|done].
           by rewrite <- Hsame by (by apply Hgd).
      * rewrite Hpr, messages_cons, Hv. simpl. f_equal.
        apply messages_agree, Forall_forall. intros f Hf. by apply Hlook, Hgd.
    + destruct (IH (print message w) out w' Hgql Hrun)
        as (ran & rest & -> & Hok & Hrest & Hwr & Hfr & Hpr).
      simpl in Hok, Hrest, Hwr, Hfr, Hpr.
      exists (x :: ran), rest. split; [done|].
      split; [|split; [|split; [|split]]].
      * constructor; [by rewrite Hv|done].
      * done.
      * intros f c Hf Hvf. apply elem_of_cons in Hf as [->|Hf]; [congruence|].
        by apply Hwr.
      * intros path Hnot. apply Hfr. intros (f' & c' & Hf' & Hv' & ->).
        apply Hnot. exists f', c'. split; [by right|done].
      * by rewrite Hpr, <- app_assoc, messages_cons, Hv.
    + simplify_eq. exists [], (x :: files). repeat split; try done.
      * by exists e.
      * intros f code Hf. by apply elem_of_nil in Hf.
      * unfold messages. simpl. by rewrite app_nil_r.
Qed.

End CommandFacts.

Section CommandTheorems.
Context `{Mapper} `{OperatingSystem}.

(** What the command relies on of [os.path.join]: the joined path ends with
    its last component. *)
Hypothesis os_path_join_name :
  forall root name, exists front, os_path_join root name = front +:+ name.

Lemma find_query_files_all_gql (fs : gmap string string) (dir : string) :
  Forall (fun file => endswith file ".gql" = true) (_find_query_files fs dir).
Proof using os_path_join_name.
  rewrite find_query_files_concat. apply Forall_concat, Forall_forall.
  intros l (entry & -> & _)%list_elem_of_fmap.
  apply Forall_forall. intros file (name & -> & Hname)%list_elem_of_fmap.
  apply list_elem_of_In, filter_In in Hname as [_ (p & ->)%endswith_spec].
  destruct (os_path_join_name entry.1 (p +:+ ".gql")) as (front & ->).
  apply endswith_spec. exists (front +:+ p). by rewrite str_app_assoc.
Qed.

(** X13.  The query files are the joined paths of the file names that end in
    [.gql], directory by directory in the order of [os.walk] and name by name
    in the order of the directory; each of them ends in [.gql] itself. *)
Theorem find_query_files_gql (fs : gmap string string) (dir : string) :
  _find_query_files fs dir
  = concat (map (fun entry =>
                   map (os_path_join entry.1)
                       (List.filter (fun name => endswith name ".gql") entry.2))
                (os_walk fs dir))
  /\ Forall (fun file => endswith file ".gql" = true) (_find_query_files fs dir).
Proof using os_path_join_name.
  split; [apply find_query_files_concat|apply find_query_files_all_gql].
Qed.

Lemma generate_files_keeps (introspection : IntrospectionQuery) (files : list string) :
  forall (w : World) (out : option CommandException) (w' : World),
    generate_files introspection files w = (out, w') ->
    forall path, is_Some (file_system w !! path) -> is_Some (file_system w' !! path).
Proof.
  induction files as [|x files IH]; intros w out w' Hrun path Hpath.
  - simpl in Hrun. by simplify_eq.
  - simpl in Hrun. rewrite generate_file_verdict in Hrun.
    destruct (verdict introspection (file_system w) x) as [code|message|e].
    + eapply IH; [exact Hrun|]. simpl. apply lookup_insert_is_Some.
      destruct (decide (target x = path)); [by left|by right].
    + eapply IH; [exact Hrun|]. done.
    + by simplify_eq.
Qed.

(** X14.  The command writes files whose path ends in [.py] and no others: every
    other path, the query files among them, holds what it held; no file is
    removed; and what was printed stays printed. *)
Theorem generate_code_keeps (introspection_file_path dir : string)
    (w w' : World) (out : option CommandException) :
  generate_code introspection_file_path dir w = (out, w') ->
  (forall path, endswith path ".py" = false ->
     file_system w' !! path = file_system w !! path)
  /\ (forall path, is_Some (file_system w !! path) ->
        is_Some (file_system w' !! path))
  /\ exists lines, printed w' = printed w ++ lines.
Proof using os_path_join_name.
  unfold generate_code.
  destruct (file_system w !! introspection_file_path) as [text|];
    [|intros [= <- <-]; repeat split; try done; exists []; by rewrite app_nil_r].
  destruct (json_loads_data text) as [[introspection|]|];
    [|intros [= <- <-]; repeat split; try done; exists []; by rewrite app_nil_r..].
  intros Hrun. split; [|split].
  - pose proof (find_query_files_all_gql (file_system w) dir) as Hgql.
    destruct (generate_files_spec _ _ _ _ _ Hgql Hrun)
      as (ran & rest & Hfiles & _ & _ & _ & Hfr & _).
    intros path Hpath. apply Hfr. intros (f & code & Hf & _ & ->).
    rewrite target_py in Hpath; [done|].
    rewrite Hfiles in Hgql. apply Forall_app in Hgql as [Hgd _].
    rewrite Forall_forall in Hgd. by apply Hgd.
  - by eapply generate_files_keeps.
  - destruct (generate_files_spec _ _ _ _ _
                (find_query_files_all_gql (file_system w) dir) Hrun)
      as (ran & rest & _ & _ & _ & _ & _ & Hpr).
    by eexists.
Qed.

(** X15.  With the introspection loaded, the command runs the query files in order
    up to the first that raises: a file that is not there, a plugin that is
    not in [plugins], or an exception of the plugin other than the two that
    skip a file; the command ends with that exception, and without one when
    no file raises.  Of the files run, each one whose query the plugin turns
    into code has that code in the file of the same path with [py] for
    [gql], each skipped one has printed its line, in order, and every other
    path holds what it held. *)
Theorem generate_code_files (introspection_file_path dir text : string)
    (introspection : IntrospectionQuery)
    (w w' : World) (out : option CommandException) :
  file_system w !! introspection_file_path = Some text ->
  json_loads_data text = Some (Some introspection) ->
  generate_code introspection_file_path dir w = (out, w') ->
  exists ran rest,
    _find_query_files (file_system w) dir = ran ++ rest
    /\ Forall (fun f => forall e,
                 verdict introspection (file_system w) f <> Raised e) ran
    /\ match rest with
       | [] => out = None
       | f :: _ =>
           exists e, verdict introspection (file_system w) f = Raised e
                     /\ out = Some e
       end
    /\ (forall f code, f ∈ ran ->
          verdict introspection (file_system w) f = Written code ->
          file_system w' !! target f = Some code)
    /\ (forall path, ~ written_by introspection (file_system w) ran path ->
          file_system w' !! path = file_system w !! path)
    /\ printed w' = printed w ++ messages introspection (file_system w) ran.
Proof using os_path_join_name.
  intros Hfile Hjson. unfold generate_code. rewrite Hfile, Hjson.
  apply generate_files_spec, find_query_files_all_gql.
Qed.

End CommandTheorems.

(** ** The example schema *)

Import Example.

Lemma pet_store_parsed : parse pet_query tt = inr (pet_store, 0).
Proof. vm_compute. reflexivity. Qed.

Lemma pet_store_repr : repr pet_store None pet_tree.
Proof. unfold pet_tree, pet_subtree, leaf. prove_repr. Qed.

(** [generate] on [query Q { a { b { c } } }]: the class of [b], then the
    class of [a], then [QQuery]. *)
Example chain_generate : generate chain_query tt = inr chain_text.
Proof. vm_compute. reflexivity. Qed.

(** The field type of [pet]: the fragment with two fields first. *)
Example pet_field_type :
  exists h', field_type 2 pet_store
             = inr ("Optional[list[Union[CatV1, DogV1, PetV1]]]", h').
Proof. eexists. vm_compute. reflexivity. Qed.

Lemma unwrap_list_example :
  Unwrapper.unwrap (GraphQLList (GraphQLNonNull (GraphQLNamedType "T_v1")))
  = {| Unwrapper.wrapper_stack := [Unwrapper.OPTIONAL; Unwrapper.LIST];
       Unwrapper.inner_gql_type := GraphQLNamedType "T_v1";
       Unwrapper.is_primitive := false |}.
Proof. reflexivity. Qed.

Lemma traverse_order_witness :
  exists h',
    _traverse 3 2 pet_store
    = inr (String.concat ""
             (map (emit (Some (t_type pet_subtree)))
                  (List.filter (fun ch => negb (t_is_fragment ch))
                               (t_children pet_subtree)))
           +:+ tree_class_code_string (parent_type pet_store (Some 1)) pet_subtree
           +:+ String.concat ""
                 (map (emit (Some (t_type pet_subtree)))
                      (List.filter t_is_fragment (t_children pet_subtree))),
           h')
    /\ _traverse 3 2 pet_store
       = inr (emit (parent_type pet_store (Some 1)) pet_subtree, h').
Proof.
  refine (proj1 (traverse_order pet_store (Some 1) pet_subtree 2 _ _ _ _)).
  - unfold pet_subtree, leaf. prove_repr.
  - refine (bool_decide_unpack _ _); vm_compute; exact I.
  - intros pa Hpa. injection Hpa as <-. vm_compute. eexists. reflexivity.
  - vm_compute. lia.
Defined.

Lemma field_type_union_witness :
  exists h',
    field_type 2 pet_store
    = inr ("Optional[list[Union[CatV1, DogV1, PetV1]]]", h')
    /\ Replaced "PetV1" "Union[CatV1, DogV1, PetV1]"
         "Optional[list[PetV1]]" "Optional[list[Union[CatV1, DogV1, PetV1]]]".
Proof.
  destruct (field_type_union pet_store 2 pet_node)
    as (_ & _ & _ & text & Hrun & Htext & Hunion & _).
  - vm_compute. reflexivity.
  - vm_compute. reflexivity.
  - refine (bool_decide_unpack _ _); vm_compute; exact I.
  - destruct Hunion as [_ Hreplaced]; [vm_compute; reflexivity|].
    assert (Hvalue : text = "Optional[list[Union[CatV1, DogV1, PetV1]]]")
      by (rewrite Htext; vm_compute; reflexivity).
    rewrite Hvalue in Hrun, Hreplaced. clear Htext Hvalue.
    vm_compute in Hreplaced.
    eexists. split; [exact Hrun|]. apply Hreplaced. discriminate.
Defined.



Lemma render_keeps_nodes_witness :
  exists text h',
    _traverse (length reorder_store) 0 reorder_store = inr (text, h') /\
    length h' = length reorder_store.
Proof.
  destruct (@render_keeps_nodes mapper core reorder_query tt reorder_store 0
              ltac:(vm_compute; reflexivity))
    as (text & h' & Hrun & _ & Hlen & _).
  exists text, h'. split; [exact Hrun|exact Hlen].
Defined.

(** The claim C9 as it is stated does not hold: rendering the tree of
    [query Q { a { x y { z } } }] changes the [fields] of the node of [a]
    from [x, y] to [y, x]. *)
Lemma render_reorders_fields :
  exists h text h',
    parse reorder_query tt = inr (h, 0) /\
    _traverse (length h) 0 h = inr (text, h') /\
    fields <$> h !! 2 = Some [3; 4] /\
    fields <$> h' !! 2 = Some [4; 3] /\
    h' <> h.
Proof.
  eexists _, _, _. split; [vm_compute; reflexivity|].
  split; [vm_compute; reflexivity|].
  split; [reflexivity|]. split; [reflexivity|]. discriminate.
Qed.

Lemma parse_well_formed_witness : well_formed_store pet_store 0.
Proof.
  exact (proj1 (@parse_well_formed mapper core pet_query tt pet_store 0
                  ltac:(vm_compute; reflexivity))).
Defined.

Lemma parse_errors_witness :
  parse anonymous_query tt = inl AnonymousQueryError
  /\ parse invalid_query tt
     = inl (InvalidQueryError ["Cannot query field nope on type Query."]).
Proof.
  split.
  - apply (proj1 (@parse_errors mapper core anonymous_query tt anonymous_document
                    ltac:(vm_compute; reflexivity)) _ ltac:(vm_compute; reflexivity)).
  - apply (proj1 (proj2 (@parse_errors mapper core invalid_query tt invalid_document
                           ltac:(vm_compute; reflexivity)))).
    + intros sels. vm_compute. discriminate.
    + vm_compute. discriminate.
Defined.

Lemma parse_type_rewrap_witness :
  exists r v' inner,
    _parse_type (GraphQLList (GraphQLNonNull (GraphQLNamedType "T_v1"))) visitor_init
    = inr (r, v')
    /\ wrapped_python_type r = "Optional[list[" +:+ inner +:+ "]]".
Proof.
  destruct (parse_type_rewrap
              (GraphQLList (GraphQLNonNull (GraphQLNamedType "T_v1"))) visitor_init)
    as (r & v' & inner & Hrun & _ & Hwrap & _).
  - apply cursor_ok_init.
  - vm_compute. reflexivity.
  - exists r, v', inner. split; [exact Hrun|]. apply Hwrap; reflexivity.
Defined.

(** The claim C7 as it is stated does not hold: for [A_v1] the string form
    less its last two characters, followed by [V] and the last character,
    is [A_V1]; the class name is [AV1]. *)
Lemma class_name_drops_underscores :
  exists v',
    _to_python_type (GraphQLNamedType "A_v1") visitor_init = inr ("AV1", v')
    /\ drop_last_two (gql_str (GraphQLNamedType "A_v1")) +:+ "V" +:+ "1" = "A_V1"
    /\ last_char (gql_str (GraphQLNamedType "A_v1")) = Some "1"
    /\ "AV1" <> "A_V1".
Proof.
  eexists. split; [vm_compute; reflexivity|].
  split; [reflexivity|]. split; [reflexivity|]. discriminate.
Qed.

Lemma class_name_candidate_witness :
  exists prefix v',
    _to_python_type (GraphQLNamedType "A_v1") visitor_init
    = inr (prefix +:+ "AV1", v')
    /\ prefix = "".
Proof.
  destruct (class_name_candidate (GraphQLNamedType "A_v1") visitor_init "1")
    as (prefix & v' & Hrun & Hpre & _).
  - reflexivity.
  - apply cursor_ok_init.
  - vm_compute. reflexivity.
  - exists prefix, v'. split; [exact Hrun|]. apply Hpre, not_elem_of_empty.
Defined.

(** C4 on the code.  In [query Q { a { x } b { y } c { z } }] the three
    fields have one object type.  The second takes the prefix of the
    operation; for the third the walk up the ancestors ends at the root with
    the name still in the cache: the nodes of [b] and of [c] get the same
    class name, and [generate] declares the class [Q_TV1] twice. *)
Theorem triple_class_names :
  exists h nb nc,
    parse triple_query tt = inr (h, 0)
    /\ h !! 4 = Some nb /\ h !! 6 = Some nc
    /\ cls nb = ParsedClassNodeC "b" "b" /\ cls nc = ParsedClassNodeC "c" "c"
    /\ is_primitive (parsed_type nb) = false
    /\ is_primitive (parsed_type nc) = false
    /\ unwrapped_python_type (parsed_type nb) = "Q_TV1"
    /\ unwrapped_python_type (parsed_type nc) = "Q_TV1"
    /\ generate triple_query tt = inr triple_text.
Proof.
  eexists _, _, _.
  split; [vm_compute; reflexivity|].
  split; [reflexivity|]. split; [reflexivity|].
  do 6 (split; [reflexivity|]).
  vm_compute. reflexivity.
Qed.

(** ** The further properties on the example schema *)

Import ExampleCommand.

Lemma rewrap_unwrap_witness :
  Unwrapper.unwrap
    (Unwrapper.rewrap [Unwrapper.OPTIONAL; Unwrapper.LIST] (GraphQLNamedType "T_v1"))
  = {| Unwrapper.wrapper_stack := [Unwrapper.OPTIONAL; Unwrapper.LIST];
       Unwrapper.inner_gql_type := GraphQLNamedType "T_v1";
       Unwrapper.is_primitive := false |}
  /\ well_formed
       (Unwrapper.rewrap [Unwrapper.OPTIONAL; Unwrapper.LIST] (GraphQLNamedType "T_v1"))
     = true.
Proof.
  apply (rewrap_unwrap [Unwrapper.OPTIONAL; Unwrapper.LIST] (GraphQLNamedType "T_v1"));
    reflexivity.
Defined.

Lemma parse_type_innermost_witness :
  exists r v',
    _parse_type (GraphQLList (GraphQLNonNull (GraphQLNamedType "T_v1"))) visitor_init
    = inr (r, v')
    /\ _to_python_type (GraphQLNamedType "T_v1") visitor_init
       = inr (unwrapped_python_type r, v')
    /\ is_primitive r = false.
Proof.
  eexists _, _. split; [vm_compute; reflexivity|].
  exact (@parse_type_innermost mapper
           (GraphQLList (GraphQLNonNull (GraphQLNamedType "T_v1"))) visitor_init _ _
           ltac:(vm_compute; reflexivity)).
Defined.

Lemma parse_type_stack_witness :
  exists r v',
    _parse_type (GraphQLList (GraphQLNonNull (GraphQLNamedType "T_v1"))) visitor_init
    = inr (r, v')
    /\ wrapped_python_type r
       = render_stack [Unwrapper.OPTIONAL; Unwrapper.LIST] (unwrapped_python_type r).
Proof.
  eexists _, _. split; [vm_compute; reflexivity|].
  exact (@parse_type_stack mapper
           (GraphQLList (GraphQLNonNull (GraphQLNamedType "T_v1"))) visitor_init _ _
           ltac:(reflexivity) ltac:(vm_compute; reflexivity)).
Defined.

Lemma parse_type_list_element_witness :
  _parse_type (GraphQLList (GraphQLNamedType "T_v1")) visitor_init
  = _parse_type (GraphQLList (GraphQLNonNull (GraphQLNamedType "T_v1"))) visitor_init.
Proof.
  exact (proj1 (@parse_type_list_element mapper (GraphQLNamedType "T_v1")
                  visitor_init ltac:(reflexivity))).
Defined.

Lemma parse_type_holds_name_witness :
  exists r v',
    _parse_type (GraphQLList (GraphQLNonNull (GraphQLNamedType "T_v1"))) visitor_init
    = inr (r, v')
    /\ exists opening closing,
         wrapped_python_type r = opening +:+ unwrapped_python_type r +:+ closing.
Proof.
  eexists _, _. split; [vm_compute; reflexivity|].
  exact (@parse_type_holds_name mapper
           (GraphQLList (GraphQLNonNull (GraphQLNamedType "T_v1"))) visitor_init _ _
           ltac:(vm_compute; reflexivity)).
Defined.

Lemma parse_type_cache_witness :
  exists r v',
    _parse_type (GraphQLList (GraphQLNonNull (GraphQLNamedType "T_v1"))) visitor_init
    = inr (r, v')
    /\ unwrapped_python_type r ∈ deduplication_cache v'.
Proof.
  eexists _, _. split; [vm_compute; reflexivity|].
  apply (@parse_type_cache mapper
           (GraphQLList (GraphQLNonNull (GraphQLNamedType "T_v1"))) visitor_init _ _
           ltac:(vm_compute; reflexivity)).
  reflexivity.
Defined.

Lemma class_name_first_free_witness :
  exists s v',
    _to_python_type (GraphQLNamedType "A_v1") visitor_init = inr (s, v')
    /\ exists tried later,
         candidates 1 (store visitor_init) (Some 0) "AV1" = tried ++ s :: later
         /\ Forall (fun name => name ∈ deduplication_cache visitor_init) tried
         /\ (s ∈ deduplication_cache visitor_init -> later = []).
Proof.
  eexists _, _. split; [vm_compute; reflexivity|].
  exact (@class_name_first_free mapper (GraphQLNamedType "A_v1") visitor_init _ _ "1"
           ltac:(reflexivity) ltac:(vm_compute; reflexivity)
           ltac:(vm_compute; reflexivity)).
Defined.

Lemma field_type_again_witness :
  exists text h',
    field_type 2 pet_store = inr (text, h')
    /\ field_type 2 h' = inr (text, h').
Proof.
  apply (field_type_again pet_store 2 pet_node).
  - vm_compute. reflexivity.
  - refine (bool_decide_unpack _ _); vm_compute; exact I.
Defined.

Lemma field_type_shows_union_witness :
  exists text h' opening closing,
    field_type 2 pet_store = inr (text, h')
    /\ text = opening +:+ ("Union[" +:+
                String.concat ", "
                  (union_names pet_store pet_node
                     (sort_desc (len_fields pet_store) (fields pet_node)))
                +:+ "]") +:+ closing.
Proof.
  refine (@field_type_shows_union mapper pet_store 2 pet_node
            (GraphQLList (GraphQLNamedType "Pet_v1")) visitor_init _ _ _ _ _).
  - vm_compute. reflexivity.
  - refine (bool_decide_unpack _ _); vm_compute; exact I.
  - vm_compute. reflexivity.
  - vm_compute. reflexivity.
Defined.

Lemma parse_shape_witness :
  exists ts,
    repr pet_store None (TNode 0 ParsedNodeC root_type ts)
    /\ map shape ts = document_shape pet_document.
Proof.
  exact (@parse_shape mapper core pet_query tt pet_document pet_store 0
           ltac:(vm_compute; reflexivity) ltac:(vm_compute; reflexivity)).
Defined.

Lemma posix_join_name (root name : string) :
  exists front, posix_join root name = front +:+ name.
Proof.
  unfold posix_join. destruct (String.prefix "/" name).
  - exists "". by rewrite str_app_nil_l.
  - destruct (_ || _); [by exists root|].
    exists (root +:+ "/"). by rewrite str_app_assoc.
Qed.

Lemma find_query_files_gql_witness :
  Forall (fun file => endswith file ".gql" = true)
         (_find_query_files example_files "queries").
Proof.
  exact (proj2 (@find_query_files_gql core operating_system posix_join_name
                  example_files "queries")).
Defined.

Lemma generate_code_keeps_witness :
  file_system (generate_code "schema.json" "queries" example_world).2
    !! "queries/pets/pet.gql"
  = file_system example_world !! "queries/pets/pet.gql".
Proof.
  apply (proj1 (@generate_code_keeps mapper core operating_system posix_join_name
                  "schema.json" "queries" example_world _ _
                  ltac:(apply surjective_pairing))).
  reflexivity.
Defined.

Lemma generate_code_files_witness :
  exists ran rest,
    _find_query_files example_files "queries" = ran ++ rest
    /\ (forall f code, f ∈ ran ->
          verdict tt example_files f = Written code ->
          file_system (generate_code "schema.json" "queries" example_world).2
            !! target f = Some code)
    /\ printed (generate_code "schema.json" "queries" example_world).2
       = messages tt example_files ran.
Proof.
  destruct (@generate_code_files mapper core operating_system posix_join_name
              "schema.json" "queries" "{ data }" tt example_world _ _
              ltac:(vm_compute; reflexivity) ltac:(reflexivity)
              ltac:(apply surjective_pairing))
    as (ran & rest & Hfiles & _ & _ & Hwritten & _ & Hprinted).
  exists ran, rest. split; [exact Hfiles|]. split; [exact Hwritten|exact Hprinted].
Defined.

Lemma visit_raises_witness :
  match visit invalid_document visitor_init with
  | inl e => (e = ValueError \/ e = IndexError)
             /\ e <> AttributeError /\ e <> Stuck
  | inr (_, v') => cursor_ok v' /\ self_parent v' = Some 0
  end.
Proof.
  apply (@visit_raises mapper invalid_document visitor_init 0).
  - apply cursor_ok_init.
  - reflexivity.
Defined.

(** The example run: the two named queries are written next to their files,
    the anonymous one is skipped with its line, and the stale [pet.py] is
    overwritten. *)
Example generate_code_example :
  let result := generate_code "schema.json" "queries" example_world in
  result.1 = None
  /\ _find_query_files example_files "queries"
     = ["queries/chain.gql"; "queries/anonymous.gql"; "queries/pets/pet.gql"]
  /\ file_system result.2 !! "queries/chain.py" = Some chain_text
  /\ file_system result.2 !! "queries/anonymous.py" = None
  /\ (exists code, generate pet_query tt = inr code
        /\ file_system result.2 !! "queries/pets/pet.py" = Some code)
  /\ file_system result.2 !! "queries/pets/pet.gql" = Some pet_query
  /\ printed result.2 = [anonymous_message "queries/anonymous.gql"].
Proof.
  vm_compute. repeat split. eexists. split; reflexivity.
Qed.
